(** * Replica allocation of a UnitedDeployment over its subsets

    A shallow embedding of [pkg/controller/uniteddeployment/allocator.go]
    and the properties of the allocation it computes.

    Conventions of the embedding:
    - [int32] values are integers of [Z]; every [int32] addition and
      subtraction is followed by the two's-complement wrap-around
      [Int32.wrap].  Values of Go's [int] are only slice lengths, indices
      and counters bounded by a slice length; they are plain [Z].
    - A run-time panic (nil dereference, index out of range, division by
      zero) is the result [None] of the [option] monad.
    - The records of a [subsetInfos] slice are pointers to distinct structs
      that the allocator mutates in place; a method that mutates them
      returns the new slice next to its result.
    - What Go leaves to the implementation, the order of a [range] over a
      map and the permutation chosen by [sort.Sort] among equal elements,
      is the [GoRuntime] interface. *)

From Stdlib Require Import ZArith String Ascii DecimalString Lia.
From stdpp Require Import gmap strings list fin_maps sorting.

Local Open Scope Z_scope.

(** ** 32-bit signed integers *)

Module Int32.

Definition min_int : Z := -2147483648.
Definition max_int : Z := 2147483647.
Definition modulus : Z := 4294967296.

(** The value an [int32] holds after an operation whose exact result
    is [z]. *)
Definition wrap (z : Z) : Z := (z - min_int) mod modulus + min_int.

Definition in_range (z : Z) : Prop := min_int ≤ z ≤ max_int.

Definition add (a b : Z) : Z := wrap (a + b).
Definition sub (a b : Z) : Z := wrap (a - b).

(** [a / b] and [a % b]: truncated towards zero, a panic when [b] is
    zero. *)
Definition quo (a b : Z) : option Z :=
  if decide (b = 0) then None else Some (wrap (Z.quot a b)).
Definition rem (a b : Z) : option Z :=
  if decide (b = 0) then None else Some (Z.rem a b).

End Int32.

Arguments Int32.wrap : simpl never.
Arguments Int32.add : simpl never.
Arguments Int32.sub : simpl never.

(** [fmt.Sprintf("%d", z)] *)
Definition formatInt (z : Z) : string := NilZero.string_of_int (Z.to_int z).

(** [strings.Compare] *)
Definition strings_Compare (a b : string) : Z :=
  match String.compare a b with
  | Lt => -1
  | Eq => 0
  | Gt => 1
  end.

(** ** The records *)

Record nameToReplicas : Type := {
  SubsetName : string;
  Replicas : Z;
  Specified : bool
}.

Global Instance nameToReplicas_eq_dec : EqDecision nameToReplicas.
Proof. solve_decision. Defined.

Abbreviation subsetInfos := (list nameToReplicas).

(** [subset.Replicas = v] *)
Definition setReplicas (v : Z) (subset : nameToReplicas) : nameToReplicas :=
  {| SubsetName := SubsetName subset; Replicas := v;
     Specified := Specified subset |}.

(** [subset.Specified = b] *)
Definition setSpecified (b : bool) (subset : nameToReplicas) : nameToReplicas :=
  {| SubsetName := SubsetName subset; Replicas := Replicas subset;
     Specified := b |}.

Definition Get (n : subsetInfos) (i : Z) : option nameToReplicas :=
  if decide (0 ≤ i) then n !! Z.to_nat i else None.

Definition Len (n : subsetInfos) : Z := Z.of_nat (length n).

(** The comparison of [Less] on two records. *)
Definition lessRecord (a b : nameToReplicas) : bool :=
  if decide (Replicas a ≠ Replicas b)
  then bool_decide (Replicas a < Replicas b)
  else bool_decide (strings_Compare (SubsetName a) (SubsetName b) < 0).

Definition Less (n : subsetInfos) (i j : Z) : option bool :=
  a ← Get n i; b ← Get n j; Some (lessRecord a b).

Definition Swap (n : subsetInfos) (i j : Z) : option subsetInfos :=
  a ← Get n i; b ← Get n j;
  Some (<[Z.to_nat j := a]> (<[Z.to_nat i := b]> n)).

(** [sort.IsSorted]: no element is [Less] than its predecessor. *)
Definition notAfter (a b : nameToReplicas) : Prop := lessRecord b a = false.

Global Instance notAfter_dec a b : Decision (notAfter a b).
Proof. unfold notAfter. apply _. Defined.

(** ** What the Go implementation chooses

    [sort_Sort] is [sort.Sort] on a [subsetInfos]: it returns a permutation
    of its argument that [sort.IsSorted] accepts, and nothing more is
    promised (the sort is not stable).  [rangeOver] is the sequence of
    entries a [for ... range] visits on a map: each entry once, in an
    unspecified order. *)

Class GoRuntime : Type := {
  sort_Sort : subsetInfos → subsetInfos;
  sort_Sort_perm : ∀ n, sort_Sort n ≡ₚ n;
  sort_Sort_sorted : ∀ n, Sorted notAfter (sort_Sort n);
  rangeOver : gmap string Z → list (string * Z);
  rangeOver_perm : ∀ m, rangeOver m ≡ₚ map_to_list m
}.

(** ** The UnitedDeployment, as far as the allocator reads it *)

Record SubsetDef (IntOrString : Type) : Type := {
  Name : string;
  SubsetDefReplicas : option IntOrString
}.
Arguments Name {IntOrString} _.
Arguments SubsetDefReplicas {IntOrString} _.

Record UnitedDeployment (IntOrString : Type) : Type := {
  SpecReplicas : option Z;
  TopologySubsets : list (SubsetDef IntOrString)
}.
Arguments SpecReplicas {IntOrString} _.
Arguments TopologySubsets {IntOrString} _.

(** The subset that exists for a name; the allocator reads its
    [Spec.Replicas]. *)
Record Subset : Type := { SubsetSpecReplicas : Z }.

Record replicasAllocator : Type := { subsets : subsetInfos }.

(** The local variables of [incrementalAllocate] that its two loops
    share; [boundary] is the loop variable [i]. *)
Record incrementalVars : Type := {
  expectedReplicas : Z;
  average : Z;
  reminder : Z;
  leftSubsetsCount : Z;
  boundary : Z
}.

Section Allocator.

Context {rt : GoRuntime}.

Definition SortToAllocator (n : subsetInfos) : replicasAllocator :=
  {| subsets := sort_Sort n |}.

(** *** effectiveReplicas *)

(** [for _, replicas := range *subsetReplicasLimits] *)
Definition sumLimits (entries : list (string * Z)) : Z :=
  foldl (λ specifiedReplicas entry, Int32.add specifiedReplicas entry.2)
        0 entries.

(** [for _, subset := range *s.subsets] counting the names in the map *)
Fixpoint countSpecified (limits : gmap string Z) (n : subsetInfos)
    (specifiedCount : Z) : Z :=
  match n with
  | [] => specifiedCount
  | subset :: rest =>
      match limits !! SubsetName subset with
      | Some _ => countSpecified limits rest (specifiedCount + 1)
      | None => countSpecified limits rest specifiedCount
      end
  end.

Definition effectiveReplicas (s : replicasAllocator) (replicas : Z)
    (subsetReplicasLimits : option (gmap string Z)) : bool * string :=
  match subsetReplicasLimits with
  | None => (true, "")
  | Some limits =>
      let specifiedReplicas := sumLimits (rangeOver limits) in
      if decide (specifiedReplicas > replicas) then
        (false,
         "Specified subsets' replica (" ++ formatInt specifiedReplicas
           ++ ") is greater than UnitedDeployment replica ("
           ++ formatInt replicas ++ ")")
      else if decide (specifiedReplicas < replicas) then
        let specifiedCount := countSpecified limits (subsets s) 0 in
        if decide (specifiedCount = Len (subsets s)) then
          (false,
           "Specified subsets' replica (" ++ formatInt specifiedReplicas
             ++ ") is less than UnitedDeployment replica ("
             ++ formatInt replicas ++ ")")
        else (true, "")
      else (true, "")
  end%string.

(** *** toSubsetReplicaMap *)

Definition toSubsetReplicaMap (s : replicasAllocator) : gmap string Z :=
  foldl (λ allocatedReplicas subset,
           <[SubsetName subset := Replicas subset]> allocatedReplicas)
        ∅ (subsets s).

(** *** normalAllocate *)

(** Step 1.  The result is the slice with the specified records updated,
    [specifiedReplicas] and [specifiedSubsetCount].  The map pointer is
    dereferenced in the loop body. *)
Fixpoint applySpecified (specifiedSubsetReplicas : option (gmap string Z))
    (n : subsetInfos) (specifiedReplicas specifiedSubsetCount : Z)
    : option (subsetInfos * Z * Z) :=
  match n with
  | [] => Some ([], specifiedReplicas, specifiedSubsetCount)
  | subset :: rest =>
      limits ← specifiedSubsetReplicas;
      match limits !! SubsetName subset with
      | Some replicas =>
          '(rest', sum, count) ←
            applySpecified specifiedSubsetReplicas rest
              (Int32.add specifiedReplicas replicas)
              (specifiedSubsetCount + 1);
          Some (setSpecified true (setReplicas replicas subset) :: rest',
                sum, count)
      | None =>
          '(rest', sum, count) ←
            applySpecified specifiedSubsetReplicas rest
              specifiedReplicas specifiedSubsetCount;
          Some (subset :: rest', sum, count)
      end
  end.

(** Step 2, [for i := len - 1; i >= 0; i--] over the slice; [k] is [i + 1],
    so that [k = 0] is the failed loop guard. *)
Fixpoint spreadRest (n : subsetInfos) (k : nat)
    (average remainder leftSubsetCount : Z) : option subsetInfos :=
  match k with
  | O => Some n
  | S k' =>
      let i := Z.of_nat k' in
      subset ← Get n i;
      if Specified subset then
        spreadRest n k' average remainder leftSubsetCount
      else
        let '(subset', remainder') :=
          if decide (remainder > 0)
          then (setReplicas (Int32.wrap (average + 1)) subset, remainder - 1)
          else (setReplicas (Int32.wrap average) subset, remainder) in
        let n' := <[k' := subset']> n in
        let leftSubsetCount' := leftSubsetCount - 1 in
        if decide (leftSubsetCount' = 0) then Some n'
        else spreadRest n' k' average remainder' leftSubsetCount'
  end.

Definition normalAllocate (s : replicasAllocator) (expectedReplicas : Z)
    (specifiedSubsetReplicas : option (gmap string Z))
    : option (gmap string Z * replicasAllocator) :=
  '(n1, specifiedReplicas, specifiedSubsetCount) ←
    applySpecified specifiedSubsetReplicas (subsets s) 0 0;
  let leftSubsetCount := Len n1 - specifiedSubsetCount in
  n2 ←
    (if decide (leftSubsetCount ≠ 0) then
       let allocatableReplicas :=
         Int32.sub expectedReplicas specifiedReplicas in
       let average := Z.quot allocatableReplicas leftSubsetCount in
       let remainder := Z.rem allocatableReplicas leftSubsetCount in
       spreadRest n1 (length n1) average remainder leftSubsetCount
     else Some n1);
  let s' := {| subsets := n2 |} in
  Some (toSubsetReplicaMap s', s').

(** *** incrementalAllocate *)

(** [for _, nts := range *s.subsets] summing the current replicas *)
Definition sumCurrent (n : subsetInfos) : Z :=
  foldl (λ currentReplicas nts, Int32.add currentReplicas (Replicas nts))
        0 n.

(** The first loop of the scale-out branch,
    [for i = consideredLen - 1; i >= 0; i--]; [k] is [i + 1], so that
    [k = 0] is the failed loop guard, which leaves [i = -1]. *)
Fixpoint scaleOutBoundary (n : subsetInfos) (k : nat)
    (v : incrementalVars) : option incrementalVars :=
  match k with
  | O =>
      Some {| expectedReplicas := expectedReplicas v;
              average := average v; reminder := reminder v;
              leftSubsetsCount := leftSubsetsCount v; boundary := -1 |}
  | S k' =>
      let i := Z.of_nat k' in
      let leftSubsetsCount := Int32.add (Int32.wrap i) 1 in
      average ← Int32.quo (expectedReplicas v) leftSubsetsCount;
      reminder ← Int32.rem (expectedReplicas v) leftSubsetsCount;
      let consideredAverage :=
        if decide (reminder > 0) then Int32.add average 1 else average in
      subset ← Get n i;
      if decide (consideredAverage < Replicas subset) then
        scaleOutBoundary n k'
          {| expectedReplicas :=
               Int32.sub (expectedReplicas v) (Replicas subset);
             average := average; reminder := reminder;
             leftSubsetsCount := leftSubsetsCount; boundary := i |}
      else
        Some {| expectedReplicas := expectedReplicas v;
                average := average; reminder := reminder;
                leftSubsetsCount := leftSubsetsCount; boundary := i |}
  end.

(** The second loop of the scale-out branch, [for j := i; j > -1; j--];
    [k] is [j + 1]. *)
Fixpoint scaleOutAssign (n : subsetInfos) (k : nat) (average reminder : Z)
    : option subsetInfos :=
  match k with
  | O => Some n
  | S k' =>
      subset ← Get n (Z.of_nat k');
      if decide (reminder > 0) then
        scaleOutAssign
          (<[k' := setReplicas (Int32.add average 1) subset]> n) k'
          average (Int32.sub reminder 1)
      else
        scaleOutAssign (<[k' := setReplicas average subset]> n) k'
          average reminder
  end.

(** The first loop of the scale-in branch,
    [for i = 0; i < consideredLen; i++]; [todo] is [consideredLen - i],
    so that [todo = 0] is the failed loop guard. *)
Fixpoint scaleInBoundary (n : subsetInfos) (consideredLen : Z)
    (todo : nat) (v : incrementalVars) : option incrementalVars :=
  match todo with
  | O => Some v
  | S todo' =>
      let i := boundary v in
      let leftSubsetsCount := Int32.wrap (consideredLen - i) in
      average ← Int32.quo (expectedReplicas v) leftSubsetsCount;
      reminder ← Int32.rem (expectedReplicas v) leftSubsetsCount;
      subset ← Get n i;
      if decide (average > Replicas subset) then
        scaleInBoundary n consideredLen todo'
          {| expectedReplicas :=
               Int32.sub (expectedReplicas v) (Replicas subset);
             average := average; reminder := reminder;
             leftSubsetsCount := leftSubsetsCount; boundary := i + 1 |}
      else
        Some {| expectedReplicas := expectedReplicas v;
                average := average; reminder := reminder;
                leftSubsetsCount := leftSubsetsCount; boundary := i |}
  end.

(** The second loop of the scale-in branch,
    [for j := i; j < consideredLen; j++]; [todo] is [consideredLen - j]. *)
Fixpoint scaleInAssign (n : subsetInfos) (j : Z) (todo : nat)
    (average reminder leftSubsetsCount : Z) : option subsetInfos :=
  match todo with
  | O => Some n
  | S todo' =>
      subset ← Get n j;
      if decide (leftSubsetsCount ≤ reminder) then
        scaleInAssign
          (<[Z.to_nat j := setReplicas (Int32.add average 1) subset]> n)
          (j + 1) todo' average reminder leftSubsetsCount
      else
        scaleInAssign (<[Z.to_nat j := setReplicas average subset]> n)
          (j + 1) todo' average reminder (Int32.sub leftSubsetsCount 1)
  end.

(** The variables as [incrementalAllocate] declares them:
    [expectedReplicas] is its parameter, the others start at zero. *)
Definition declaredVars (expectedReplicas : Z) : incrementalVars :=
  {| expectedReplicas := expectedReplicas; average := 0; reminder := 0;
     leftSubsetsCount := 0; boundary := 0 |}.

Definition incrementalAllocate (s : replicasAllocator)
    (expectedReplicas : Z) : option (gmap string Z * replicasAllocator) :=
  let n := subsets s in
  let currentReplicas := sumCurrent n in
  let consideredLen := Len n in
  let diff := Int32.sub expectedReplicas currentReplicas in
  let v0 := declaredVars expectedReplicas in
  n' ←
    (if decide (diff > 0) then
       v ← scaleOutBoundary n (Z.to_nat consideredLen) v0;
       scaleOutAssign n (Z.to_nat (boundary v + 1)) (average v) (reminder v)
     else if decide (diff < 0) then
       v ← scaleInBoundary n consideredLen (Z.to_nat consideredLen) v0;
       scaleInAssign n (boundary v) (Z.to_nat (consideredLen - boundary v))
         (average v) (reminder v) (leftSubsetsCount v)
     else Some n);
  let s' := {| subsets := n' |} in
  Some (toSubsetReplicaMap s', s').

(** *** AllocateReplicas *)

Definition AllocateReplicas (s : replicasAllocator) (replicas : Z)
    (specifiedSubsetReplicas : option (gmap string Z))
    : option (gmap string Z * bool * string * replicasAllocator) :=
  let '(effective, reason) :=
    effectiveReplicas s replicas specifiedSubsetReplicas in
  if negb effective then
    '(allocated, s') ← incrementalAllocate s replicas;
    Some (allocated, false, reason, s')
  else
    '(allocated, s') ← normalAllocate s replicas specifiedSubsetReplicas;
    Some (allocated, true, ""%string, s').

(** *** String *)

(** The method [String] of the allocator; it sorts the records again
    before it prints them. *)
Definition allocatorString (s : replicasAllocator)
    : string * replicasAllocator :=
  let n := sort_Sort (subsets s) in
  (foldl (λ result subset,
            result ++ " " ++ SubsetName subset ++ " -> "
              ++ formatInt (Replicas subset) ++ ";")%string
         ""%string n,
   {| subsets := n |}).

(** *** From the UnitedDeployment to the allocation *)

Section Pipeline.

(** [ParseSubsetReplicas] is defined next to the controller, outside
    this file; the allocator only relies on it returning a count or an
    error ([None]). *)
Context {IntOrString : Type}.
Variable ParseSubsetReplicas : Z → IntOrString → option Z.

(** [for _, subsetDef := range ud.Spec.Topology.Subsets]; a failed parse
    is logged and skipped.  [ud.Spec.Replicas] is dereferenced for each
    subset that has a replica specification. *)
Fixpoint specifiedOf (udReplicas : option Z)
    (defs : list (SubsetDef IntOrString)) (replicaLimits : gmap string Z)
    : option (gmap string Z) :=
  match defs with
  | [] => Some replicaLimits
  | subsetDef :: rest =>
      match SubsetDefReplicas subsetDef with
      | None => specifiedOf udReplicas rest replicaLimits
      | Some spec =>
          replicas ← udReplicas;
          match ParseSubsetReplicas replicas spec with
          | Some specifiedReplicas =>
              specifiedOf udReplicas rest
                (<[Name subsetDef := specifiedReplicas]> replicaLimits)
          | None => specifiedOf udReplicas rest replicaLimits
          end
      end
  end.

Definition getSpecifiedSubsetReplicas (ud : UnitedDeployment IntOrString)
    : option (gmap string Z) :=
  specifiedOf (SpecReplicas ud) (TopologySubsets ud) ∅.

(** A subset that does not exist yet counts no replicas.  [nameToSubset]
    stands for a map that is not nil and holds no nil subset: the source
    dereferences both, and a nil one is outside this model. *)
Definition getSubsetInfos (nameToSubset : gmap string Subset)
    (ud : UnitedDeployment IntOrString) : subsetInfos :=
  (λ subsetDef,
     let replicas :=
       match nameToSubset !! Name subsetDef with
       | Some subset => SubsetSpecReplicas subset
       | None => 0
       end in
     {| SubsetName := Name subsetDef; Replicas := replicas;
        Specified := false |}) <$> TopologySubsets ud.

Definition GetAllocatedReplicas (nameToSubset : gmap string Subset)
    (ud : UnitedDeployment IntOrString)
    : option (gmap string Z * bool * string * replicasAllocator) :=
  let subsetInfos := getSubsetInfos nameToSubset ud in
  specifiedReplicas ← getSpecifiedSubsetReplicas ud;
  replicas ← SpecReplicas ud;
  AllocateReplicas (SortToAllocator subsetInfos) replicas
    (Some specifiedReplicas).

End Pipeline.

End Allocator.

(** ** The vocabulary of the properties *)

(** The sum of a list of counts as an integer, without wrap-around. *)
Definition sumZ (l : list Z) : Z := foldr Z.add 0 l.

(** The exact sum of the replicas of the records. *)
Definition totalReplicas (n : subsetInfos) : Z := sumZ (Replicas <$> n).

(** The exact sum of the values of a map. *)
Definition mapTotal (m : gmap string Z) : Z := sumZ ((map_to_list m).*2).

(** The number of records whose name is a key of the map. *)
Definition pinnedCount (limits : gmap string Z) (n : subsetInfos) : nat :=
  length (filter (λ subset, is_Some (limits !! SubsetName subset)) n).

(** The entry of a record in the returned mapping. *)
Definition entryOf (subset : nameToReplicas) : string * Z :=
  (SubsetName subset, Replicas subset).

(** The record after step 1 of [normalAllocate]. *)
Definition applyLimit (limits : gmap string Z) (subset : nameToReplicas)
    : nameToReplicas :=
  match limits !! SubsetName subset with
  | Some replicas => setSpecified true (setReplicas replicas subset)
  | None => subset
  end.

(** The exact sum of the specified replicas over the records that have
    one. *)
Definition pinnedTotal (limits : gmap string Z) (n : subsetInfos) : Z :=
  sumZ (omap (λ subset, limits !! SubsetName subset) n).

(** The records that step 2 of [normalAllocate] assigns. *)
Definition unpinned (n : subsetInfos) : subsetInfos :=
  filter (λ subset, Specified subset = false) n.

(** The mark of a record is a function [mark] of its name. *)
Definition markedBy (mark : string → bool) (n : subsetInfos) : Prop :=
  Forall (λ subset, Specified subset = mark (SubsetName subset)) n.

(** The average the scale-out loop compares a record with: the quotient
    of what is left of the total by the number of records considered,
    rounded up. *)
Definition consideredAverage (expected count : Z) : Z :=
  Z.quot expected count + (if decide (Z.rem expected count > 0) then 1 else 0).

(** The records whose name has no specified count, in order. *)
Definition freeOf (S : gmap string Z) (n : subsetInfos) : subsetInfos :=
  filter (λ subset, S !! SubsetName subset = None) n.

(** ** Requests the allocator is meant for

    The conditions under which the controller calls the allocator: counts
    that an [int32] holds without wrapping, the records as
    [getSubsetInfos] builds them, and the specified counts as
    [getSpecifiedSubsetReplicas] derives them from a parser that keeps
    them between 0 and the total. *)

Definition validTotal (T : Z) : Prop := 0 ≤ T ≤ Int32.max_int.

(** Current replicas are counts, and their sum and the number of records
    fit an [int32]. *)
Definition observedCounts (n : subsetInfos) : Prop :=
  Forall (λ subset, 0 ≤ Replicas subset) n ∧
  totalReplicas n ≤ Int32.max_int ∧
  Len n ≤ Int32.max_int.

(** Names are unique and no record is marked yet. *)
Definition freshRecords (n : subsetInfos) : Prop :=
  NoDup (SubsetName <$> n) ∧
  Forall (λ subset, Specified subset = false) n.

(** Every specified count belongs to a subset of the topology and lies
    between 0 and the total; their sum fits an [int32]. *)
Definition validSpecified (T : Z) (S : gmap string Z) (n : subsetInfos)
    : Prop :=
  map_Forall (λ name v, name ∈ SubsetName <$> n ∧ 0 ≤ v ≤ T) S ∧
  mapTotal S ≤ Int32.max_int.

Global Instance validTotal_dec T : Decision (validTotal T).
Proof. unfold validTotal. apply _. Defined.
Global Instance observedCounts_dec n : Decision (observedCounts n).
Proof. unfold observedCounts. apply _. Defined.
Global Instance freshRecords_dec n : Decision (freshRecords n).
Proof. unfold freshRecords. apply _. Defined.
Global Instance validSpecified_dec T S n : Decision (validSpecified T S n).
Proof. unfold validSpecified. apply _. Defined.

(** ** Example requests *)

Definition subsetA2 : nameToReplicas :=
  {| SubsetName := "A"; Replicas := 2; Specified := false |}.
Definition subsetB8 : nameToReplicas :=
  {| SubsetName := "B"; Replicas := 8; Specified := false |}.

(** Two subsets, A with 2 and B with 8 replicas, sorted. *)
Definition twoSubsets : replicasAllocator :=
  {| subsets := [subsetA2; subsetB8] |}.

(** Three subsets A, B, C without replicas. *)
Definition threeIdle : replicasAllocator :=
  {| subsets := [ {| SubsetName := "A"; Replicas := 0; Specified := false |};
                  {| SubsetName := "B"; Replicas := 0; Specified := false |};
                  {| SubsetName := "C"; Replicas := 0; Specified := false |} ] |}.

(** Three subsets with 1, 5 and 5 replicas. *)
Definition threeUneven : replicasAllocator :=
  {| subsets := [ {| SubsetName := "A"; Replicas := 1; Specified := false |};
                  {| SubsetName := "B"; Replicas := 5; Specified := false |};
                  {| SubsetName := "C"; Replicas := 5; Specified := false |} ] |}.

Definition pinA7 : gmap string Z := {[ "A"%string := 7 ]}.
Definition pinA8B8 : gmap string Z := <[ "B"%string := 8 ]> {[ "A"%string := 8 ]}.

(** A parser for the examples: the specification is the count itself,
    accepted between 0 and the total. *)
Definition parseCount (total spec : Z) : option Z :=
  if decide (0 ≤ spec ≤ total) then Some spec else None.

(** A topology of A, specified at 7, and B, for a total of 10. *)
Definition udTwo : UnitedDeployment Z :=
  {| SpecReplicas := Some 10;
     TopologySubsets := [ {| Name := "A"; SubsetDefReplicas := Some 7 |};
                          {| Name := "B"; SubsetDefReplicas := None |} ] |}.

(** A topology without subsets, for a total of 9. *)
Definition udEmpty : UnitedDeployment Z :=
  {| SpecReplicas := Some 9; TopologySubsets := [] |}.

Definition observedTwo : gmap string Subset :=
  <[ "B"%string := {| SubsetSpecReplicas := 8 |} ]>
    {[ "A"%string := {| SubsetSpecReplicas := 2 |} ]}.

(** The subsets A and B once the allocation of 7 and 3 is applied. *)
Definition appliedTwo : gmap string Subset :=
  <[ "B"%string := {| SubsetSpecReplicas := 3 |} ]>
    {[ "A"%string := {| SubsetSpecReplicas := 7 |} ]}.

(** A and B specified at the largest [int32] each. *)
Definition pinMaxAB : gmap string Z :=
  <[ "B"%string := 2147483647 ]> {[ "A"%string := 2147483647 ]}.

(** Two subsets, A and B, at the largest [int32] each, sorted. *)
Definition twoFull : replicasAllocator :=
  {| subsets := [ {| SubsetName := "A"; Replicas := 2147483647;
                     Specified := false |};
                  {| SubsetName := "B"; Replicas := 2147483647;
                     Specified := false |} ] |}.

(** ** The order of [Less] *)

Section Order.

Lemma string_compare_refl (a : string) : String.compare a a = Eq.
Proof.
  induction a as [|c a IH]; simpl; [done|].
  unfold Ascii.compare. by rewrite N.compare_refl.
Qed.

Lemma string_compare_lt_trans (a b c : string) :
  String.compare a b = Lt → String.compare b c = Lt →
  String.compare a c = Lt.
Proof.
  revert b c. induction a as [|x a IH]; intros [|y b] [|z c]; simpl; try done.
  unfold Ascii.compare.
  destruct (N.compare_spec (N_of_ascii x) (N_of_ascii y)) as [Hxy|Hxy|Hxy];
    destruct (N.compare_spec (N_of_ascii y) (N_of_ascii z)) as [Hyz|Hyz|Hyz];
    try done; intros Hab Hbc.
  - rewrite Hxy, Hyz, N.compare_refl. eauto.
  - rewrite Hxy. by apply N.compare_lt_iff in Hyz as ->.
  - rewrite <- Hyz. by apply N.compare_lt_iff in Hxy as ->.
  - assert (N_of_ascii x < N_of_ascii z)%N as Hxz by lia.
    by apply N.compare_lt_iff in Hxz as ->.
Qed.

Lemma string_compare_gt_lt (a b : string) :
  String.compare a b = Gt ↔ String.compare b a = Lt.
Proof.
  rewrite (String.compare_antisym a b).
  destruct (String.compare b a); simpl; split; congruence.
Qed.

(** [Less] orders the records by the pair (replicas, name). *)
Lemma lessRecord_true (a b : nameToReplicas) :
  lessRecord a b = true ↔
  Replicas a < Replicas b ∨
  (Replicas a = Replicas b ∧
   String.compare (SubsetName a) (SubsetName b) = Lt).
Proof.
  unfold lessRecord, strings_Compare.
  destruct (decide (Replicas a ≠ Replicas b)) as [Hne|Heq].
  - rewrite bool_decide_eq_true. split; [tauto|]. intros [?|[? _]]; [done|lia].
  - assert (Replicas a = Replicas b) as E by lia.
    rewrite bool_decide_eq_true.
    destruct (String.compare (SubsetName a) (SubsetName b));
      split; try lia; try (intros [?|[_ ?]]; (lia || done)); tauto.
Qed.

Lemma notAfter_iff (a b : nameToReplicas) :
  notAfter a b ↔
  Replicas a < Replicas b ∨
  (Replicas a = Replicas b ∧
   String.compare (SubsetName a) (SubsetName b) ≠ Gt).
Proof.
  unfold notAfter. rewrite <- not_true_iff_false, lessRecord_true.
  rewrite string_compare_gt_lt.
  destruct (Z.lt_trichotomy (Replicas a) (Replicas b)) as [Hlt|[E|Hgt]].
  - split; [by left|]. intros _ [?|[? _]]; lia.
  - split.
    + intros Hn. right. split; [done|]. intros Hc. apply Hn. by right.
    + intros [?|[_ Hn]] [?|[_ Hc]]; (lia || done).
  - split; [|intros [?|[? _]]; lia]. intros Hn. exfalso. apply Hn. by left.
Qed.

Lemma lessRecord_irrefl (a : nameToReplicas) : lessRecord a a = false.
Proof.
  apply not_true_iff_false. rewrite lessRecord_true, string_compare_refl.
  intros [?|[_ ?]]; [lia|done].
Qed.

Lemma lessRecord_asym (a b : nameToReplicas) :
  lessRecord a b = true → lessRecord b a = false.
Proof.
  intros Hab. apply not_true_iff_false. intros Hba.
  apply lessRecord_true in Hab, Hba.
  destruct Hab as [?|[? Hab]], Hba as [?|[? Hba]]; try lia.
  apply string_compare_gt_lt in Hba. congruence.
Qed.

Lemma lessRecord_trans (a b c : nameToReplicas) :
  lessRecord a b = true → lessRecord b c = true → lessRecord a c = true.
Proof.
  rewrite !lessRecord_true.
  intros [?|[? Hab]] [?|[? Hbc]]; try (left; lia).
  right. split; [lia|]. eauto using string_compare_lt_trans.
Qed.

(** Two records of different names are ordered one way or the other. *)
Lemma lessRecord_connex (a b : nameToReplicas) :
  SubsetName a ≠ SubsetName b →
  lessRecord a b = true ∨ lessRecord b a = true.
Proof.
  intros Hne. rewrite !lessRecord_true.
  destruct (Z.lt_trichotomy (Replicas a) (Replicas b)) as [?|[E|?]];
    [by left; left| |by right; left].
  destruct (String.compare (SubsetName a) (SubsetName b)) eqn:Hc.
  - by apply String.compare_eq_iff in Hc.
  - left. by right.
  - right. right. split; [done|]. by apply string_compare_gt_lt.
Qed.

Global Instance notAfter_total : Total notAfter.
Proof.
  intros a b. unfold notAfter.
  destruct (lessRecord b a) eqn:Hba; [|by left].
  right. by apply lessRecord_asym.
Qed.

Global Instance notAfter_transitive : Transitive notAfter.
Proof.
  intros a b c. rewrite !notAfter_iff.
  intros [?|[? Hab]] [?|[? Hbc]]; try (left; lia).
  right. split; [lia|]. intros Hac.
  apply string_compare_gt_lt in Hac.
  destruct (String.compare (SubsetName a) (SubsetName b)) eqn:E1; [| |done].
  - apply String.compare_eq_iff in E1. rewrite E1 in Hac.
    apply string_compare_gt_lt in Hac. done.
  - destruct (String.compare (SubsetName b) (SubsetName c)) eqn:E2; [| |done].
    + apply String.compare_eq_iff in E2. rewrite <- E2 in Hac.
      apply string_compare_gt_lt in Hac. congruence.
    + pose proof (string_compare_lt_trans _ _ _ Hac E1) as H1.
      apply string_compare_gt_lt in H1. congruence.
Qed.

Lemma notAfter_antisym (a b : nameToReplicas) :
  notAfter a b → notAfter b a →
  Replicas a = Replicas b ∧ SubsetName a = SubsetName b.
Proof.
  rewrite !notAfter_iff. intros [?|[? Hab]] [?|[? Hba]]; try lia.
  split; [done|].
  destruct (String.compare (SubsetName a) (SubsetName b)) eqn:E; [| |done].
  - by apply String.compare_eq_iff.
  - apply string_compare_gt_lt in E. done.
Qed.

End Order.

(** ** A runtime to compute with

    Merge sort for [sort.Sort] and the key order for [range]. *)

Global Instance referenceRuntime : GoRuntime :=
  {| sort_Sort := merge_sort notAfter;
     sort_Sort_perm := merge_sort_Permutation notAfter;
     sort_Sort_sorted := λ n, Sorted_merge_sort notAfter n;
     rangeOver := map_to_list;
     rangeOver_perm := λ m, reflexivity (map_to_list m) |}.

(** A second runtime: the same sort, the map visited in the opposite
    order. *)
Definition reversedRuntime : GoRuntime :=
  {| sort_Sort := merge_sort notAfter;
     sort_Sort_perm := merge_sort_Permutation notAfter;
     sort_Sort_sorted := λ n, Sorted_merge_sort notAfter n;
     rangeOver := λ m, reverse (map_to_list m);
     rangeOver_perm := λ m, reverse_Permutation (map_to_list m) |}.

(** ** Exact sums and the wrap-around *)

Section Sums.

Lemma wrap_id (z : Z) : Int32.in_range z → Int32.wrap z = z.
Proof.
  unfold Int32.in_range, Int32.wrap, Int32.min_int, Int32.max_int,
    Int32.modulus.
  intros ?. rewrite Z.mod_small; lia.
Qed.

Lemma wrap_in_range (z : Z) : Int32.in_range (Int32.wrap z).
Proof.
  unfold Int32.in_range, Int32.wrap, Int32.min_int, Int32.max_int,
    Int32.modulus.
  pose proof (Z.mod_pos_bound (z - -2147483648) 4294967296). lia.
Qed.

Lemma wrap_add_l (a b : Z) :
  Int32.wrap (Int32.wrap a + b) = Int32.wrap (a + b).
Proof.
  unfold Int32.wrap.
  replace ((a - Int32.min_int) `mod` Int32.modulus + Int32.min_int + b
           - Int32.min_int)
    with ((a - Int32.min_int) `mod` Int32.modulus + b) by lia.
  rewrite Zplus_mod_idemp_l.
  by replace (a - Int32.min_int + b) with (a + b - Int32.min_int) by lia.
Qed.

Lemma wrap_sub_r (a b : Z) :
  Int32.wrap (a - Int32.wrap b) = Int32.wrap (a - b).
Proof.
  unfold Int32.wrap.
  replace (a - ((b - Int32.min_int) `mod` Int32.modulus + Int32.min_int)
           - Int32.min_int)
    with (a - Int32.min_int - Int32.min_int
          - (b - Int32.min_int) `mod` Int32.modulus) by lia.
  rewrite Zminus_mod_idemp_r.
  by replace (a - Int32.min_int - Int32.min_int - (b - Int32.min_int))
    with (a - b - Int32.min_int) by lia.
Qed.

Lemma sumZ_app (l k : list Z) : sumZ (l ++ k) = sumZ l + sumZ k.
Proof. unfold sumZ. induction l as [|x l IH]; simpl; lia. Qed.

Global Instance sumZ_perm : Proper ((≡ₚ) ==> (=)) sumZ.
Proof.
  unfold sumZ. induction 1; simpl; lia.
Qed.

Lemma sumZ_nonneg (l : list Z) : Forall (λ z, 0 ≤ z) l → 0 ≤ sumZ l.
Proof. unfold sumZ. induction 1; simpl; lia. Qed.

Lemma totalReplicas_cons (x : nameToReplicas) (n : subsetInfos) :
  totalReplicas (x :: n) = Replicas x + totalReplicas n.
Proof. done. Qed.

Lemma totalReplicas_app (n1 n2 : subsetInfos) :
  totalReplicas (n1 ++ n2) = totalReplicas n1 + totalReplicas n2.
Proof. unfold totalReplicas. by rewrite fmap_app, sumZ_app. Qed.

Lemma totalReplicas_nonneg (n : subsetInfos) :
  Forall (λ subset, 0 ≤ Replicas subset) n → 0 ≤ totalReplicas n.
Proof.
  intros H. apply sumZ_nonneg. by apply Forall_fmap.
Qed.

Lemma totalReplicas_take_drop (n : subsetInfos) (k : nat) :
  totalReplicas n = totalReplicas (take k n) + totalReplicas (drop k n).
Proof. by rewrite <- totalReplicas_app, take_drop. Qed.

Lemma totalReplicas_take_S (n : subsetInfos) (k : nat) (x : nameToReplicas) :
  n !! k = Some x →
  totalReplicas (take (S k) n) = totalReplicas (take k n) + Replicas x.
Proof.
  intros Hk. rewrite (take_S_r _ _ _ Hk), totalReplicas_app.
  change (totalReplicas [x]) with (Replicas x + 0). lia.
Qed.

Lemma totalReplicas_drop (n : subsetInfos) (k : nat) (x : nameToReplicas) :
  n !! k = Some x →
  totalReplicas (drop k n) = Replicas x + totalReplicas (drop (S k) n).
Proof. intros Hk. by rewrite (drop_S _ _ _ Hk). Qed.

Lemma totalReplicas_insert (n : subsetInfos) (k : nat)
    (x y : nameToReplicas) :
  n !! k = Some x →
  totalReplicas (<[k := y]> n) = totalReplicas n - Replicas x + Replicas y.
Proof.
  revert k. induction n as [|z n IH]; intros [|k] Hk; simplify_eq/=.
  - rewrite !totalReplicas_cons. lia.
  - rewrite !totalReplicas_cons, (IH _ Hk). lia.
Qed.

(** A loop that accumulates in an [int32] holds the wrapped exact sum. *)
Lemma sumZ_cons (x : Z) (l : list Z) : sumZ (x :: l) = x + sumZ l.
Proof. done. Qed.

(** A loop that accumulates in an [int32] holds the wrapped exact sum. *)
Lemma foldl_add_wrap {A} (f : A → Z) (l : list A) (acc acc' : Z) :
  acc = Int32.wrap acc' →
  foldl (λ a x, Int32.add a (f x)) acc l = Int32.wrap (acc' + sumZ (f <$> l)).
Proof.
  revert acc acc'. induction l as [|x l IH]; intros acc acc' ->.
  - cbn [foldl fmap list_fmap]. change (sumZ []) with 0.
    by rewrite Z.add_0_r.
  - cbn [foldl]. rewrite (IH _ (acc' + f x)).
    + rewrite fmap_cons, sumZ_cons. by rewrite Z.add_assoc.
    + unfold Int32.add. apply wrap_add_l.
Qed.

Lemma sumCurrent_wrap (n : subsetInfos) :
  sumCurrent n = Int32.wrap (totalReplicas n).
Proof.
  unfold sumCurrent. by rewrite (foldl_add_wrap Replicas n 0 0).
Qed.

Lemma sumLimits_wrap (entries : list (string * Z)) :
  sumLimits entries = Int32.wrap (sumZ entries.*2).
Proof.
  unfold sumLimits. by rewrite (foldl_add_wrap snd entries 0 0).
Qed.

(** The sum of the feasibility check does not depend on the order in
    which the map is visited. *)
Lemma sumLimits_rangeOver `{rt : GoRuntime} (limits : gmap string Z) :
  sumLimits (rangeOver limits) = Int32.wrap (mapTotal limits).
Proof.
  rewrite sumLimits_wrap. unfold mapTotal.
  by rewrite (rangeOver_perm limits).
Qed.

Lemma countSpecified_filter (limits : gmap string Z) (n : subsetInfos)
    (c : Z) :
  countSpecified limits n c = c + Z.of_nat (pinnedCount limits n).
Proof.
  unfold pinnedCount. revert c. induction n as [|x n IH]; intros c; simpl.
  - lia.
  - rewrite filter_cons. destruct (limits !! SubsetName x) eqn:E.
    + rewrite IH. rewrite decide_True by eauto. simpl. lia.
    + rewrite IH. rewrite decide_False by (by intros [? ?]). done.
Qed.

Lemma pinnedCount_le (limits : gmap string Z) (n : subsetInfos) :
  (pinnedCount limits n ≤ length n)%nat.
Proof. apply length_filter. Qed.

End Sums.

(** ** The returned mapping *)

Section ReplicaMap.

Lemma foldl_insert_entries (n : subsetInfos) (m : gmap string Z) :
  foldl (λ allocatedReplicas subset,
           <[SubsetName subset := Replicas subset]> allocatedReplicas) m n
  = list_to_map (reverse (entryOf <$> n)) ∪ m.
Proof.
  revert m. induction n as [|x n IH]; intros m.
  - cbn. by rewrite (left_id_L ∅ (∪)).
  - cbn [foldl]. rewrite IH, fmap_cons, reverse_cons, list_to_map_app.
    cbn [list_to_map foldr entryOf fst snd uncurry].
    rewrite <- (assoc_L (∪)). f_equal.
    rewrite insert_union_singleton_l.
    by rewrite insert_empty, <- insert_union_singleton_l.
Qed.

Lemma toSubsetReplicaMap_entries (n : subsetInfos) :
  toSubsetReplicaMap {| subsets := n |}
  = list_to_map (reverse (entryOf <$> n)).
Proof.
  unfold toSubsetReplicaMap. cbn [subsets].
  by rewrite foldl_insert_entries, (right_id_L ∅ (∪)).
Qed.

Lemma entryOf_names (n : subsetInfos) :
  (entryOf <$> n).*1 = SubsetName <$> n.
Proof. by rewrite <- list_fmap_compose. Qed.

Lemma entryOf_replicas (n : subsetInfos) :
  (entryOf <$> n).*2 = Replicas <$> n.
Proof. by rewrite <- list_fmap_compose. Qed.

(** With unique names the mapping holds, for every record, its name and
    its replicas, and nothing else. *)
Lemma toSubsetReplicaMap_lookup (n : subsetInfos) (name : string) (v : Z) :
  NoDup (SubsetName <$> n) →
  toSubsetReplicaMap {| subsets := n |} !! name = Some v ↔
  ∃ subset, subset ∈ n ∧ SubsetName subset = name ∧ Replicas subset = v.
Proof.
  intros Hnd. rewrite toSubsetReplicaMap_entries.
  rewrite <- elem_of_list_to_map.
  - rewrite elem_of_reverse, list_elem_of_fmap. unfold entryOf.
    split.
    + intros (x & [= -> ->] & ?). eauto.
    + intros (x & ? & <- & <-). eauto.
  - by rewrite fmap_reverse, entryOf_names, reverse_Permutation.
Qed.

(** Without that assumption every key of the mapping still is the name
    of a record. *)
Lemma toSubsetReplicaMap_key (n : subsetInfos) (name : string) (v : Z) :
  toSubsetReplicaMap {| subsets := n |} !! name = Some v →
  name ∈ SubsetName <$> n.
Proof.
  rewrite toSubsetReplicaMap_entries. intros H.
  apply elem_of_list_to_map_2 in H.
  apply elem_of_reverse, list_elem_of_fmap in H as (x & [= -> ->] & ?).
  apply list_elem_of_fmap. eauto.
Qed.

Lemma toSubsetReplicaMap_total (n : subsetInfos) :
  NoDup (SubsetName <$> n) →
  mapTotal (toSubsetReplicaMap {| subsets := n |}) = totalReplicas n.
Proof.
  intros Hnd. rewrite toSubsetReplicaMap_entries. unfold mapTotal.
  rewrite map_to_list_to_map
    by (by rewrite fmap_reverse, entryOf_names, reverse_Permutation).
  by rewrite fmap_reverse, reverse_Permutation, entryOf_replicas.
Qed.

Lemma toSubsetReplicaMap_nil :
  toSubsetReplicaMap {| subsets := [] |} = ∅.
Proof. done. Qed.

Lemma mapTotal_empty : mapTotal ∅ = 0.
Proof. unfold mapTotal. by rewrite map_to_list_empty. Qed.

End ReplicaMap.

(** ** The feasibility check *)

Section Feasibility.

Context {rt : GoRuntime}.

(** The check decides on the sum as the [int32] accumulator holds it. *)
Lemma effectiveReplicas_int32 (s : replicasAllocator) (T : Z)
    (S : gmap string Z) :
  let Σ := Int32.wrap (mapTotal S) in
  let infeasible :=
    Σ > T ∨ (Σ < T ∧ pinnedCount S (subsets s) = length (subsets s)) in
  (infeasible → fst (effectiveReplicas s T (Some S)) = false) ∧
  (¬ infeasible → effectiveReplicas s T (Some S) = (true, ""%string)).
Proof.
  intros Σ infeasible. subst infeasible. unfold effectiveReplicas.
  rewrite sumLimits_rangeOver. fold Σ.
  rewrite countSpecified_filter. unfold Len.
  destruct (decide (Σ > T)) as [Hgt|Hgt]; [split; [done|tauto]|].
  destruct (decide (Σ < T)) as [Hlt|Hlt].
  - destruct (decide (0 + Z.of_nat (pinnedCount S (subsets s))
                      = Z.of_nat (length (subsets s)))) as [Hk|Hk].
    + split; [done|]. intros Hn. exfalso. apply Hn. right. split; [done|lia].
    + split; [|done]. intros [?|[_ E]]; [done|]. rewrite E in Hk. lia.
  - split; [|done]. intros [?|[? _]]; done.
Qed.

End Feasibility.

(** C2, as the code has it.  When an [int32] can hold the sum of the
    specified replicas, the feasibility check answers infeasible exactly
    when that sum exceeds the total, or falls short of it while every
    record is specified; in every other case, and for a nil map, it answers
    feasible with the empty reason.  Beyond that range the accumulator of
    the check wraps around and the check decides on the wrapped sum. *)
Theorem effectiveReplicas_feasibility `{rt : GoRuntime}
    (s : replicasAllocator) (T : Z) (S : gmap string Z) :
  Int32.in_range (mapTotal S) →
  let Σ := mapTotal S in
  let k := pinnedCount S (subsets s) in
  let N := length (subsets s) in
  effectiveReplicas s T None = (true, ""%string) ∧
  (Σ > T ∨ (Σ < T ∧ k = N) → fst (effectiveReplicas s T (Some S)) = false) ∧
  (¬ (Σ > T ∨ (Σ < T ∧ k = N)) →
   effectiveReplicas s T (Some S) = (true, ""%string)).
Proof.
  intros Hrange Σ k N. split; [done|].
  pose proof (effectiveReplicas_int32 s T S) as H. cbv zeta in H.
  by rewrite (wrap_id _ Hrange) in H.
Qed.

(** ** A topology without subsets *)

Section EmptyTopology.

Context {rt : GoRuntime}.

Lemma sort_Sort_nil : sort_Sort [] = [].
Proof. apply Permutation_nil_r, sort_Sort_perm. Qed.

Lemma rangeOver_empty : rangeOver ∅ = [].
Proof.
  apply Permutation_nil_r. by rewrite rangeOver_perm, map_to_list_empty.
Qed.

Lemma incrementalAllocate_nil (T : Z) :
  incrementalAllocate {| subsets := [] |} T
  = Some (∅, {| subsets := [] |}).
Proof.
  unfold incrementalAllocate. cbn [subsets Len length Z.of_nat Z.to_nat].
  destruct (decide (Int32.sub T (sumCurrent []) > 0)); [done|].
  destruct (decide (Int32.sub T (sumCurrent []) < 0)); done.
Qed.

End EmptyTopology.

(** C9.  With no subset in the topology and a positive total, the
    specified map derived from the topology is empty, the feasibility
    check answers infeasible (the specified sum 0 is less than the total and
    the specified count 0 is the subset count 0), and the incremental path
    returns the empty mapping, whose values sum to 0 and not to the
    total. *)
Theorem GetAllocatedReplicas_no_subsets `{rt : GoRuntime} {IntOrString : Type}
    (ParseSubsetReplicas : Z → IntOrString → option Z)
    (nameToSubset : gmap string Subset) (ud : UnitedDeployment IntOrString)
    (T : Z) :
  TopologySubsets ud = [] → SpecReplicas ud = Some T → 0 < T →
  let s := SortToAllocator (getSubsetInfos nameToSubset ud) in
  let reason :=
    ("Specified subsets' replica (0) is less than UnitedDeployment replica ("
       ++ formatInt T ++ ")")%string in
  getSpecifiedSubsetReplicas ParseSubsetReplicas ud = Some ∅ ∧
  effectiveReplicas s T (Some ∅) = (false, reason) ∧
  incrementalAllocate s T = Some (∅, s) ∧
  GetAllocatedReplicas ParseSubsetReplicas nameToSubset ud
    = Some (∅, false, reason, s) ∧
  mapTotal (∅ : gmap string Z) = 0 ∧ mapTotal (∅ : gmap string Z) ≠ T.
Proof.
  intros Hnil HT Hpos s reason.
  assert (s = {| subsets := [] |}) as Hs.
  { subst s. unfold SortToAllocator, getSubsetInfos.
    by rewrite Hnil, fmap_nil, sort_Sort_nil. }
  assert (getSpecifiedSubsetReplicas ParseSubsetReplicas ud = Some ∅) as Hspec.
  { unfold getSpecifiedSubsetReplicas. by rewrite Hnil. }
  assert (effectiveReplicas s T (Some ∅) = (false, reason)) as Heff.
  { rewrite Hs. unfold effectiveReplicas. rewrite rangeOver_empty.
    cbn [sumLimits foldl subsets countSpecified Len length Z.of_nat].
    rewrite decide_False by lia. rewrite decide_True by lia.
    by rewrite decide_True by done. }
  assert (incrementalAllocate s T = Some (∅, s)) as Hinc.
  { rewrite Hs. apply incrementalAllocate_nil. }
  split_and!; try done.
  - unfold GetAllocatedReplicas. rewrite Hspec, HT. cbn [mbind option_bind].
    fold s. unfold AllocateReplicas. rewrite Heff. cbn [negb].
    by rewrite Hinc.
  - rewrite mapTotal_empty. lia.
Qed.

(** ** The normal path *)

Section NormalPath.

Lemma Get_lookup (n : subsetInfos) (k : nat) :
  Get n (Z.of_nat k) = n !! k.
Proof.
  unfold Get. rewrite decide_True by lia. by rewrite Nat2Z.id.
Qed.

Lemma fmap_insert_same {B} (f : nameToReplicas → B) (n : subsetInfos)
    (i : nat) (x y : nameToReplicas) :
  n !! i = Some x → f y = f x → f <$> <[i := y]> n = f <$> n.
Proof.
  intros Hi Hf. rewrite list_fmap_insert, Hf.
  apply list_insert_id. by rewrite list_lookup_fmap, Hi.
Qed.

Lemma applySpecified_spec (limits : gmap string Z) (n : subsetInfos)
    (sum sum0 count : Z) :
  sum = Int32.wrap sum0 →
  applySpecified (Some limits) n sum count
  = Some (applyLimit limits <$> n,
          Int32.wrap (sum0 + pinnedTotal limits n),
          count + Z.of_nat (pinnedCount limits n)).
Proof.
  unfold pinnedTotal, pinnedCount.
  revert sum sum0 count. induction n as [|x n IH]; intros sum sum0 count ->.
  - cbn. change (sumZ []) with 0. rewrite !Z.add_0_r. done.
  - cbn [applySpecified mbind option_bind fmap list_fmap omap list_omap].
    rewrite filter_cons. unfold applyLimit at 1.
    destruct (limits !! SubsetName x) as [v|] eqn:E.
    + rewrite (IH _ (sum0 + v)) by apply wrap_add_l.
      rewrite decide_True by eauto. cbn [mbind option_bind length].
      rewrite sumZ_cons, Z.add_assoc. do 2 f_equal. lia.
    + rewrite (IH _ sum0) by done.
      rewrite decide_False by (by intros [? ?]). done.
Qed.

Lemma applyLimit_name (limits : gmap string Z) (subset : nameToReplicas) :
  SubsetName (applyLimit limits subset) = SubsetName subset.
Proof. unfold applyLimit. by destruct (limits !! SubsetName subset). Qed.

Lemma applyLimit_names (limits : gmap string Z) (n : subsetInfos) :
  SubsetName <$> (applyLimit limits <$> n) = SubsetName <$> n.
Proof.
  rewrite <- list_fmap_compose. apply list_fmap_ext.
  intros ? x _. apply applyLimit_name.
Qed.

(** Step 2 never panics, touches neither a name nor a flag, and leaves
    the specified records as they are. *)
Lemma spreadRest_spec (k : nat) (n : subsetInfos)
    (average remainder leftSubsetCount : Z) :
  (k ≤ length n)%nat →
  ∃ n', spreadRest n k average remainder leftSubsetCount = Some n' ∧
    length n' = length n ∧
    SubsetName <$> n' = SubsetName <$> n ∧
    Specified <$> n' = Specified <$> n ∧
    drop k n' = drop k n ∧
    (∀ j subset, n !! j = Some subset → Specified subset = true →
                 n' !! j = Some subset).
Proof.
  revert n remainder leftSubsetCount.
  induction k as [|k IH]; intros n remainder leftSubsetCount Hk.
  { exists n. by rewrite !drop_0. }
  destruct (lookup_lt_is_Some_2 n k ltac:(lia)) as [subset Hsub].
  cbn [spreadRest]. rewrite Get_lookup, Hsub. cbn [mbind option_bind].
  destruct (Specified subset) eqn:Hflag.
  { destruct (IH n remainder leftSubsetCount ltac:(lia))
      as (n' & -> & ? & ? & ? & Hd & ?).
    exists n'. split_and!; try done.
    replace (S k) with (k + 1)%nat by lia. by rewrite <- !drop_drop, Hd. }
  set (p := if decide (remainder > 0)
            then (setReplicas (Int32.wrap (average + 1)) subset, remainder - 1)
            else (setReplicas (Int32.wrap average) subset, remainder)).
  assert (SubsetName p.1 = SubsetName subset ∧
          Specified p.1 = Specified subset) as [Hname Hspec].
  { subst p. by destruct (decide (remainder > 0)). }
  destruct p as [subset' remainder'] eqn:Hp. cbn [fst] in Hname, Hspec.
  assert (∀ j r, n !! j = Some r → Specified r = true →
                 <[k := subset']> n !! j = Some r) as Hkeep.
  { intros j r Hj Hr. destruct (decide (j = k)) as [->|Hne].
    - congruence.
    - by rewrite list_lookup_insert_ne. }
  assert (drop (S k) (<[k := subset']> n) = drop (S k) n) as Hdrop.
  { by rewrite drop_insert_lt by lia. }
  destruct (decide (leftSubsetCount - 1 = 0)).
  { exists (<[k := subset']> n). split_and!; try done.
    - apply length_insert.
    - by apply (fmap_insert_same SubsetName n k subset).
    - by apply (fmap_insert_same Specified n k subset). }
  assert (k ≤ length (<[k := subset']> n))%nat as Hk1
    by (rewrite length_insert; lia).
  destruct (IH (<[k := subset']> n) remainder' (leftSubsetCount - 1) Hk1)
    as (n' & -> & Hlen & Hn & Hs & Hd & Hk').
  exists n'. split_and!; try done.
  - by rewrite Hlen, length_insert.
  - rewrite Hn. by apply (fmap_insert_same SubsetName n k subset).
  - rewrite Hs. by apply (fmap_insert_same Specified n k subset).
  - rewrite <- Hdrop. replace (S k) with (k + 1)%nat by lia.
    by rewrite <- !drop_drop, Hd.
  - intros j r Hj Hr. apply Hk'; [|done]. by apply Hkeep.
Qed.

End NormalPath.

Section NormalAllocate.

(** [normalAllocate] after step 1 has run. *)
Lemma normalAllocate_step2 (s : replicasAllocator) (T : Z)
    (S : gmap string Z) :
  let n1 := applyLimit S <$> subsets s in
  let leftSubsetCount :=
    Len n1 - Z.of_nat (pinnedCount S (subsets s)) in
  let allocatableReplicas :=
    Int32.sub T (Int32.wrap (pinnedTotal S (subsets s))) in
  normalAllocate s T (Some S)
  = (n2 ←
       (if decide (leftSubsetCount ≠ 0) then
          spreadRest n1 (length n1)
            (Z.quot allocatableReplicas leftSubsetCount)
            (Z.rem allocatableReplicas leftSubsetCount) leftSubsetCount
        else Some n1);
     Some (toSubsetReplicaMap {| subsets := n2 |}, {| subsets := n2 |})).
Proof.
  intros n1 leftSubsetCount allocatableReplicas. unfold normalAllocate.
  rewrite (applySpecified_spec S (subsets s) 0 0 0) by done.
  cbn [mbind option_bind]. by rewrite !Z.add_0_l.
Qed.

(** The normal path returns, and its records are those of step 1 up to
    the replicas of the records that are not specified. *)
Lemma normalAllocate_records (s : replicasAllocator) (T : Z)
    (S : gmap string Z) :
  ∃ n2,
    normalAllocate s T (Some S)
    = Some (toSubsetReplicaMap {| subsets := n2 |}, {| subsets := n2 |}) ∧
    length n2 = length (subsets s) ∧
    SubsetName <$> n2 = SubsetName <$> subsets s ∧
    (∀ j subset v, subsets s !! j = Some subset →
       S !! SubsetName subset = Some v →
       n2 !! j = Some (setSpecified true (setReplicas v subset))).
Proof.
  rewrite normalAllocate_step2. cbv zeta.
  set (n1 := applyLimit S <$> subsets s).
  assert (∀ j subset v, subsets s !! j = Some subset →
            S !! SubsetName subset = Some v →
            n1 !! j = Some (setSpecified true (setReplicas v subset)))
    as Hn1.
  { intros j subset v Hj Hv. subst n1.
    rewrite list_lookup_fmap, Hj. cbn. unfold applyLimit. by rewrite Hv. }
  match goal with |- context [decide ?P] => destruct (decide P) end.
  - destruct (spreadRest_spec (length n1) n1
                (Int32.sub T (Int32.wrap (pinnedTotal S (subsets s)))
                   `quot` (Len n1 - Z.of_nat (pinnedCount S (subsets s))))
                (Int32.sub T (Int32.wrap (pinnedTotal S (subsets s)))
                   `rem` (Len n1 - Z.of_nat (pinnedCount S (subsets s))))
                (Len n1 - Z.of_nat (pinnedCount S (subsets s)))
                ltac:(lia))
      as (n2 & -> & Hlen & Hnames & _ & _ & Hkeep).
    exists n2. split_and!; [done| | |].
    + rewrite Hlen. subst n1. by rewrite length_fmap.
    + rewrite Hnames. apply applyLimit_names.
    + intros j subset v Hj Hv. by apply Hkeep; [apply Hn1|].
  - exists n1. split_and!; [done| | |done].
    + subst n1. by rewrite length_fmap.
    + apply applyLimit_names.
Qed.

(** A name that every record carrying it maps to the same count is
    mapped to that count. *)
Lemma toSubsetReplicaMap_agree (n : subsetInfos) (name : string) (v : Z) :
  name ∈ SubsetName <$> n →
  (∀ subset, subset ∈ n → SubsetName subset = name → Replicas subset = v) →
  toSubsetReplicaMap {| subsets := n |} !! name = Some v.
Proof.
  intros Hin Hall.
  destruct (toSubsetReplicaMap {| subsets := n |} !! name) as [w|] eqn:E.
  - f_equal. rewrite toSubsetReplicaMap_entries in E.
    apply elem_of_list_to_map_2 in E.
    apply elem_of_reverse, list_elem_of_fmap in E as (x & [= Hn Hw] & ?).
    rewrite Hw. by apply Hall.
  - rewrite toSubsetReplicaMap_entries in E.
    apply not_elem_of_list_to_map in E.
    by rewrite fmap_reverse, entryOf_names, elem_of_reverse in E.
Qed.

End NormalAllocate.

(** C3.  When the check answers feasible, the normal path runs; it writes
    the specified count into every record whose name is in the specified
    map and marks the record, the distribution of the rest leaves these
    records alone, and the returned mapping holds the specified count for
    each of these names. *)
Theorem AllocateReplicas_pinned `{rt : GoRuntime}
    (s : replicasAllocator) (T : Z) (S : gmap string Z) :
  fst (effectiveReplicas s T (Some S)) = true →
  ∃ allocated s',
    AllocateReplicas s T (Some S) = Some (allocated, true, ""%string, s') ∧
    (∀ subset v, subset ∈ subsets s → S !! SubsetName subset = Some v →
       allocated !! SubsetName subset = Some v) ∧
    (∀ j subset v, subsets s !! j = Some subset →
       S !! SubsetName subset = Some v →
       subsets s' !! j = Some (setSpecified true (setReplicas v subset))).
Proof.
  intros Heff. unfold AllocateReplicas.
  destruct (effectiveReplicas s T (Some S)) as [effective reason].
  cbn [fst] in Heff. subst effective. cbn [negb].
  destruct (normalAllocate_records s T S) as (n2 & -> & Hlen & Hnames & Hpin).
  cbn [mbind option_bind].
  eexists _, _. split; [done|]. split; [|done].
  intros subset v Hin Hv. apply toSubsetReplicaMap_agree.
  - rewrite Hnames. apply list_elem_of_fmap. eauto.
  - intros r Hr Hname.
    apply list_elem_of_lookup in Hr as [j Hj].
    assert (is_Some (subsets s !! j)) as [r0 Hr0].
    { apply lookup_lt_is_Some. rewrite <- Hlen.
      by apply lookup_lt_is_Some_1; eauto. }
    assert (SubsetName r0 = SubsetName r) as Hsame.
    { apply (f_equal (.!! j)) in Hnames.
      rewrite !list_lookup_fmap, Hj, Hr0 in Hnames. by injection Hnames. }
    assert (S !! SubsetName r0 = Some v) as Hv0 by congruence.
    rewrite (Hpin j r0 v Hr0 Hv0) in Hj. by injection Hj as <-.
Qed.

Section Spread.

Lemma unpinned_app (n1 n2 : subsetInfos) :
  unpinned (n1 ++ n2) = unpinned n1 ++ unpinned n2.
Proof. apply filter_app. Qed.

Lemma unpinned_reverse_snoc (n : subsetInfos) (x : nameToReplicas) :
  unpinned (reverse (n ++ [x]))
  = (if Specified x then [] else [x]) ++ unpinned (reverse n).
Proof.
  rewrite reverse_snoc. unfold unpinned. rewrite filter_cons.
  destruct (Specified x); by case_decide.
Qed.

Lemma unpinned_snoc_length (n : subsetInfos) (x : nameToReplicas) :
  length (unpinned (n ++ [x]))
  = (length (unpinned n) + (if Specified x then 0 else 1))%nat.
Proof.
  rewrite unpinned_app, length_app. f_equal. unfold unpinned.
  rewrite filter_cons. destruct (Specified x); by case_decide.
Qed.

Lemma unpinned_reverse_nil (n : subsetInfos) :
  length (unpinned n) = 0%nat → unpinned (reverse n) = [].
Proof.
  intros H. unfold unpinned in *. rewrite filter_reverse.
  apply nil_length_inv in H. by rewrite H.
Qed.

(** The walk of step 2, seen from the highest index down: the first
    [remainder] records that are not specified get [average + 1], the
    others [average]. *)
Lemma spreadRest_shape (k : nat) (n : subsetInfos)
    (average remainder leftSubsetCount : Z) :
  (k ≤ length n)%nat →
  leftSubsetCount = Z.of_nat (length (unpinned (take k n))) →
  (Z.to_nat remainder ≤ length (unpinned (take k n)))%nat →
  ∃ n', spreadRest n k average remainder leftSubsetCount = Some n' ∧
    Replicas <$> unpinned (reverse (take k n'))
    = replicate (Z.to_nat remainder) (Int32.wrap (average + 1))
      ++ replicate (length (unpinned (take k n)) - Z.to_nat remainder)
           (Int32.wrap average).
Proof.
  revert n remainder leftSubsetCount.
  induction k as [|k IH]; intros n remainder leftSubsetCount Hk Hleft Hrem.
  { exists n. split; [done|]. rewrite take_0 in *. cbn in Hrem.
    replace (Z.to_nat remainder) with 0%nat by lia. done. }
  destruct (lookup_lt_is_Some_2 n k ltac:(lia)) as [subset Hsub].
  rewrite (take_S_r _ _ _ Hsub), unpinned_snoc_length in Hleft, Hrem.
  rewrite (take_S_r _ _ _ Hsub), unpinned_snoc_length.
  cbn [spreadRest]. rewrite Get_lookup, Hsub. cbn [mbind option_bind].
  destruct (Specified subset) eqn:Hflag.
  { rewrite Nat.add_0_r in *.
    destruct (IH n remainder leftSubsetCount ltac:(lia) Hleft Hrem)
      as (n' & Hrun & Hshape).
    destruct (spreadRest_spec k n average remainder leftSubsetCount
                ltac:(lia)) as (n'' & Hrun' & _ & _ & _ & _ & Hkeep).
    rewrite Hrun in Hrun'. injection Hrun' as <-.
    exists n'. split; [done|].
    rewrite (take_S_r _ _ _ (Hkeep _ _ Hsub Hflag)), unpinned_reverse_snoc.
    by rewrite Hflag. }
  set (p := if decide (remainder > 0)
            then (setReplicas (Int32.wrap (average + 1)) subset, remainder - 1)
            else (setReplicas (Int32.wrap average) subset, remainder)).
  set (c := length (unpinned (take k n))) in *.
  assert (Specified p.1 = false ∧
          [Replicas p.1]
            ++ replicate (Z.to_nat p.2) (Int32.wrap (average + 1))
            ++ replicate (c - Z.to_nat p.2) (Int32.wrap average)
          = replicate (Z.to_nat remainder) (Int32.wrap (average + 1))
            ++ replicate (c + 1 - Z.to_nat remainder) (Int32.wrap average) ∧
          (Z.to_nat p.2 ≤ c)%nat) as (Hspec & Hlist & Hrem').
  { subst p. destruct (decide (remainder > 0)); cbn [fst snd].
    - split; [done|]. split; [|lia].
      replace (Z.to_nat remainder) with (S (Z.to_nat (remainder - 1))) by lia.
      cbn [replicate app Replicas setReplicas].
      by replace (c + 1 - S (Z.to_nat (remainder - 1)))%nat
        with (c - Z.to_nat (remainder - 1))%nat by lia.
    - split; [done|]. split; [|lia].
      replace (Z.to_nat remainder) with 0%nat by lia.
      rewrite Nat.sub_0_r.
      replace (c + 1)%nat with (S c) by lia. done. }
  destruct p as [subset' remainder'] eqn:Hp. cbn [fst snd] in *.
  assert (take k (<[k := subset']> n) = take k n) as Htake
    by (by rewrite take_insert_ge).
  assert (<[k := subset']> n !! k = Some subset') as Hnew
    by (apply list_lookup_insert_eq; lia).
  destruct (decide (leftSubsetCount - 1 = 0)) as [Hlast|Hmore].
  { exists (<[k := subset']> n). split; [done|].
    rewrite (take_S_r _ _ _ Hnew), Htake, unpinned_reverse_snoc, Hspec.
    rewrite unpinned_reverse_nil by (fold c; lia).
    rewrite <- Hlist. replace c with 0%nat by lia.
    replace (Z.to_nat remainder') with 0%nat by lia. done. }
  assert (k ≤ length (<[k := subset']> n))%nat as Hk1
    by (rewrite length_insert; lia).
  destruct (IH (<[k := subset']> n) remainder' (leftSubsetCount - 1) Hk1)
    as (n' & Hrun & Hshape).
  { rewrite Htake. fold c. lia. }
  { rewrite Htake. by fold c. }
  destruct (spreadRest_spec k (<[k := subset']> n) average remainder'
              (leftSubsetCount - 1) Hk1)
    as (n'' & Hrun' & _ & _ & _ & Hd & _).
  rewrite Hrun in Hrun'. injection Hrun' as <-.
  exists n'. split; [done|].
  assert (n' !! k = Some subset') as Hk'.
  { apply (f_equal (.!! 0%nat)) in Hd. rewrite !lookup_drop in Hd.
    by rewrite Nat.add_0_r, Hnew in Hd. }
  rewrite (take_S_r _ _ _ Hk'), unpinned_reverse_snoc, Hspec.
  rewrite fmap_app, Hshape, Htake. fold c. by rewrite <- Hlist.
Qed.

End Spread.

Section NormalDistribution.

Lemma applyLimit_flag (S : gmap string Z) (subset : nameToReplicas) :
  Specified subset = false →
  Specified (applyLimit S subset)
  = bool_decide (is_Some (S !! SubsetName subset)).
Proof.
  intros Hf. unfold applyLimit.
  destruct (S !! SubsetName subset) eqn:E.
  - by rewrite bool_decide_eq_true_2 by eauto.
  - rewrite bool_decide_eq_false_2 by (by intros [? ?]). done.
Qed.

Lemma unpinned_applyLimit_length (S : gmap string Z) (n : subsetInfos) :
  Forall (λ subset, Specified subset = false) n →
  (length (unpinned (applyLimit S <$> n)) + pinnedCount S n)%nat = length n.
Proof.
  unfold unpinned, pinnedCount. induction 1 as [|x n Hx Hn IH]; [done|].
  rewrite fmap_cons, !filter_cons, (applyLimit_flag S x Hx).
  destruct (decide (is_Some (S !! SubsetName x))) as [Hs|Hs].
  - rewrite bool_decide_eq_true_2 by done.
    rewrite decide_False by done. cbn [length]. lia.
  - rewrite bool_decide_eq_false_2 by done.
    rewrite decide_True by done. cbn [length]. lia.
Qed.

Lemma fmap_eq_lookup {B} (f : nameToReplicas → B) (n n' : subsetInfos)
    (j : nat) (r r' : nameToReplicas) :
  f <$> n = f <$> n' → n !! j = Some r → n' !! j = Some r' → f r = f r'.
Proof.
  intros H Hj Hj'. apply (f_equal (.!! j)) in H.
  rewrite !list_lookup_fmap, Hj, Hj' in H. by injection H.
Qed.

Lemma unpinned_reverse (n : subsetInfos) :
  unpinned (reverse n) = reverse (unpinned n).
Proof. apply filter_reverse. Qed.

Lemma Z_rem_to_nat_le (a : Z) (m : nat) :
  (0 < m)%nat → (Z.to_nat (Z.rem a (Z.of_nat m)) ≤ m)%nat.
Proof.
  intros Hm. pose proof (Z.rem_bound_abs a (Z.of_nat m) ltac:(lia)). lia.
Qed.

(** The records after the normal path, with no assumption on the
    numbers: which records are marked, what the marked ones hold, and
    how the rest is spread. *)
Lemma normalAllocate_distribution (s : replicasAllocator) (T : Z)
    (S : gmap string Z) :
  Forall (λ subset, Specified subset = false) (subsets s) →
  let free := (length (subsets s) - pinnedCount S (subsets s))%nat in
  let pool := Int32.sub T (Int32.wrap (pinnedTotal S (subsets s))) in
  let base := Z.quot pool (Z.of_nat free) in
  let extra := Z.rem pool (Z.of_nat free) in
  ∃ n2,
    normalAllocate s T (Some S)
    = Some (toSubsetReplicaMap {| subsets := n2 |}, {| subsets := n2 |}) ∧
    SubsetName <$> n2 = SubsetName <$> subsets s ∧
    Forall (λ subset, Specified subset
                      = bool_decide (is_Some (S !! SubsetName subset))) n2 ∧
    Forall (λ subset, ∀ v, S !! SubsetName subset = Some v →
                           Replicas subset = v) n2 ∧
    length (unpinned n2) = free ∧
    (free ≠ 0%nat →
     Replicas <$> unpinned (reverse n2)
     = replicate (Z.to_nat extra) (Int32.wrap (base + 1))
       ++ replicate (free - Z.to_nat extra) (Int32.wrap base)).
Proof.
  intros Hfresh free pool base extra.
  pose proof (unpinned_applyLimit_length S (subsets s) Hfresh) as Hcount.
  pose proof (pinnedCount_le S (subsets s)) as Hle.
  set (n1 := applyLimit S <$> subsets s) in *.
  assert (length n1 = length (subsets s)) as Hlen1
    by (subst n1; apply length_fmap).
  assert (Forall (λ subset, Specified subset
            = bool_decide (is_Some (S !! SubsetName subset))) n1) as Hflag1.
  { subst n1. apply Forall_fmap. eapply Forall_impl; [exact Hfresh|].
    intros x Hx. cbn. by rewrite applyLimit_name, applyLimit_flag. }
  assert (Forall (λ subset, ∀ v, S !! SubsetName subset = Some v →
            Replicas subset = v) n1) as Hval1.
  { subst n1. apply Forall_fmap, Forall_forall. intros x _ v. cbn.
    rewrite applyLimit_name. unfold applyLimit. by intros ->. }
  rewrite normalAllocate_step2. cbv zeta. fold n1.
  replace (Len n1 - Z.of_nat (pinnedCount S (subsets s)))
    with (Z.of_nat free) by (unfold Len; lia).
  fold pool. fold base. fold extra.
  destruct (decide (Z.of_nat free ≠ 0)) as [Hfree|Hfree].
  - assert (Z.of_nat free = Z.of_nat (length (unpinned (take (length n1) n1))))
      as Hleft by (rewrite firstn_all; lia).
    destruct (spreadRest_shape (length n1) n1 base extra (Z.of_nat free)
                ltac:(lia) Hleft) as (n2 & Hrun & Hshape).
    { rewrite firstn_all. subst extra.
      replace (length (unpinned n1)) with free by lia.
      apply Z_rem_to_nat_le. lia. }
    destruct (spreadRest_spec (length n1) n1 base extra (Z.of_nat free)
                ltac:(lia)) as (n2' & Hrun' & Hlen & Hnames & Hflags & _ & Hkeep).
    rewrite Hrun in Hrun'. injection Hrun' as <-. rewrite Hrun.
    rewrite firstn_all in Hshape.
    replace (take (length n1) n2) with n2 in Hshape
      by (by rewrite <- Hlen, firstn_all).
    assert (Forall (λ subset, Specified subset
              = bool_decide (is_Some (S !! SubsetName subset))) n2) as Hflag2.
    { apply Forall_lookup. intros j r Hj.
      assert (is_Some (n1 !! j)) as [r1 Hr1].
      { apply lookup_lt_is_Some. rewrite <- Hlen.
        by apply lookup_lt_is_Some_1; eauto. }
      pose proof (Forall_lookup_1 _ _ _ _ Hflag1 Hr1) as Hf. cbn in Hf.
      cbn. rewrite (fmap_eq_lookup _ _ _ _ _ _ Hnames Hj Hr1).
      by rewrite (fmap_eq_lookup _ _ _ _ _ _ Hflags Hj Hr1). }
    exists n2. split_and!; try done.
    + rewrite Hnames. apply applyLimit_names.
    + apply Forall_lookup. intros j r Hj v Hv.
      pose proof (Forall_lookup_1 _ _ _ _ Hflag2 Hj) as Hf. cbn in Hf.
      rewrite bool_decide_eq_true_2 in Hf by eauto.
      assert (is_Some (n1 !! j)) as [r1 Hr1].
      { apply lookup_lt_is_Some. rewrite <- Hlen.
        by apply lookup_lt_is_Some_1; eauto. }
      assert (Specified r1 = true) as Hs1.
      { by rewrite <- (fmap_eq_lookup _ _ _ _ _ _ Hflags Hj Hr1). }
      rewrite (Hkeep _ _ Hr1 Hs1) in Hj. injection Hj as <-.
      by apply (Forall_lookup_1 _ _ _ _ Hval1 Hr1).
    + apply (f_equal length) in Hshape.
      rewrite length_fmap, length_app, !length_replicate in Hshape.
      rewrite unpinned_reverse, length_reverse in Hshape.
      pose proof (Z_rem_to_nat_le pool free ltac:(lia)). fold extra in H.
      lia.
    + intros _. rewrite Hshape. by replace (length (unpinned n1)) with free by lia.
  - cbn [mbind option_bind]. exists n1. split_and!; try done.
    + apply applyLimit_names.
    + lia.
    + lia.
Qed.

End NormalDistribution.

Section NormalArithmetic.

Lemma sumZ_replicate (m : nat) (x : Z) :
  sumZ (replicate m x) = Z.of_nat m * x.
Proof.
  induction m as [|m IH]; [done|].
  rewrite replicate_S, sumZ_cons, IH. lia.
Qed.

Lemma pinnedTotal_cons (S : gmap string Z) (x : nameToReplicas)
    (n : subsetInfos) :
  pinnedTotal S (x :: n)
  = match S !! SubsetName x with Some v => v | None => 0 end
    + pinnedTotal S n.
Proof.
  unfold pinnedTotal. cbn [omap list_omap].
  destruct (S !! SubsetName x); [apply sumZ_cons|done].
Qed.

Lemma pinnedTotal_names (S : gmap string Z) (n n' : subsetInfos) :
  SubsetName <$> n = SubsetName <$> n' → pinnedTotal S n = pinnedTotal S n'.
Proof.
  revert n'. induction n as [|x n IH]; intros [|x' n'] H; try done.
  injection H as Hx Hn. rewrite !pinnedTotal_cons, Hx. f_equal. by apply IH.
Qed.

Lemma pinnedTotal_delete (S : gmap string Z) (name : string)
    (n : subsetInfos) :
  name ∉ SubsetName <$> n →
  pinnedTotal (delete name S) n = pinnedTotal S n.
Proof.
  induction n as [|x n IH]; [done|]. rewrite fmap_cons, not_elem_of_cons.
  intros [Hne Hn]. rewrite !pinnedTotal_cons, IH by done.
  by rewrite lookup_delete_ne.
Qed.

Lemma mapTotal_insert (S : gmap string Z) (name : string) (v : Z) :
  S !! name = None → mapTotal (<[name := v]> S) = v + mapTotal S.
Proof.
  intros Hnone. unfold mapTotal.
  by rewrite (map_to_list_insert _ _ _ Hnone).
Qed.

(** With unique names, and every specified name that of a record, the
    sum that step 1 accumulates is the sum of the specified map. *)
Lemma pinnedTotal_mapTotal (S : gmap string Z) (n : subsetInfos) :
  NoDup (SubsetName <$> n) →
  map_Forall (λ name _, name ∈ SubsetName <$> n) S →
  pinnedTotal S n = mapTotal S.
Proof.
  revert S. induction n as [|x n IH]; intros S Hnd Hdom.
  - assert (S = ∅) as ->.
    { apply map_empty. intros name.
      destruct (S !! name) eqn:E; [|done].
      apply Hdom in E. by apply elem_of_nil in E. }
    by rewrite mapTotal_empty.
  - rewrite fmap_cons in Hnd. apply NoDup_cons in Hnd as [Hx Hnd].
    rewrite pinnedTotal_cons.
    destruct (S !! SubsetName x) as [v|] eqn:E.
    + rewrite <- (insert_delete_id S (SubsetName x) v E) at 2.
      rewrite mapTotal_insert by apply lookup_delete_eq.
      f_equal. rewrite <- (pinnedTotal_delete S (SubsetName x) n Hx).
      apply IH; [done|]. intros name w Hw.
      apply lookup_delete_Some in Hw as [Hne Hw].
      apply Hdom in Hw. rewrite fmap_cons in Hw.
      apply elem_of_cons in Hw as [?|?]; congruence.
    + rewrite Z.add_0_l. apply IH; [done|]. intros name w Hw.
      pose proof (Hdom _ _ Hw) as Hin. rewrite fmap_cons in Hin.
      apply elem_of_cons in Hin as [->|?]; [congruence|done].
Qed.

Lemma mapTotal_nonneg (S : gmap string Z) :
  map_Forall (λ _ v, 0 ≤ v) S → 0 ≤ mapTotal S.
Proof.
  intros H. apply sumZ_nonneg, Forall_fmap, Forall_forall.
  intros [name v] Hin. apply elem_of_map_to_list in Hin. cbn. eauto.
Qed.

(** What the feasibility check has established when it answers
    feasible. *)
Lemma feasible_total `{rt : GoRuntime} (s : replicasAllocator) (T : Z)
    (S : gmap string Z) :
  Int32.in_range (mapTotal S) →
  fst (effectiveReplicas s T (Some S)) = true →
  mapTotal S ≤ T ∧
  (pinnedCount S (subsets s) = length (subsets s) → mapTotal S = T).
Proof.
  intros Hrange Heff.
  destruct (effectiveReplicas_int32 s T S) as (Hbad & _).
  cbv zeta in Hbad. rewrite (wrap_id _ Hrange) in Hbad.
  split.
  - destruct (decide (mapTotal S > T)) as [Hgt|]; [|lia].
    rewrite Hbad in Heff by (by left). done.
  - intros Hk. destruct (decide (mapTotal S = T)) as [|Hne]; [done|].
    destruct (decide (mapTotal S > T)) as [Hgt|].
    + rewrite Hbad in Heff by (by left). done.
    + rewrite Hbad in Heff by (right; split; [lia|done]). done.
Qed.

Lemma validSpecified_range (T : Z) (S : gmap string Z) (n : subsetInfos) :
  validSpecified T S n → Int32.in_range (mapTotal S) ∧ 0 ≤ mapTotal S.
Proof.
  intros [Hall Hmax].
  assert (0 ≤ mapTotal S) as H0.
  { apply mapTotal_nonneg. intros name v Hv. by apply Hall in Hv as [_ [? _]]. }
  split; [|done]. unfold Int32.in_range, Int32.min_int. lia.
Qed.

(** The pool that step 2 divides, and its quotient and remainder, are
    the exact ones. *)
Lemma normal_pool `{rt : GoRuntime} (s : replicasAllocator) (T : Z)
    (S : gmap string Z) :
  validTotal T → NoDup (SubsetName <$> subsets s) →
  validSpecified T S (subsets s) →
  fst (effectiveReplicas s T (Some S)) = true →
  Int32.sub T (Int32.wrap (pinnedTotal S (subsets s))) = T - mapTotal S ∧
  0 ≤ T - mapTotal S ≤ Int32.max_int ∧
  (pinnedCount S (subsets s) = length (subsets s) → mapTotal S = T).
Proof.
  intros [HT0 HTmax] Hnd Hvalid Heff.
  destruct (validSpecified_range _ _ _ Hvalid) as [Hrange H0].
  destruct (feasible_total s T S Hrange Heff) as [Hle Hfull].
  rewrite (pinnedTotal_mapTotal S (subsets s) Hnd).
  - rewrite (wrap_id _ Hrange). unfold Int32.sub.
    rewrite wrap_id; [lia|]. unfold Int32.in_range, Int32.min_int. lia.
  - destruct Hvalid as [Hall _]. intros name v Hv. by apply Hall in Hv as [? _].
Qed.

Lemma quot_rem_pool (pool : Z) (free : nat) :
  0 ≤ pool ≤ Int32.max_int → (0 < free)%nat →
  let base := Z.quot pool (Z.of_nat free) in
  let extra := Z.rem pool (Z.of_nat free) in
  0 ≤ base ≤ pool ∧ 0 ≤ extra < Z.of_nat free ∧
  pool = Z.of_nat free * base + extra ∧
  Int32.wrap base = base ∧ (0 < extra → Int32.wrap (base + 1) = base + 1).
Proof.
  intros [Hp0 Hpmax] Hfree base extra.
  assert (0 ≤ base) as Hb0 by (apply Z.quot_pos; lia).
  assert (0 ≤ extra < Z.of_nat free) as He by (apply Z.rem_bound_pos; lia).
  assert (pool = Z.of_nat free * base + extra) as Heq
    by (apply Z.quot_rem'; lia).
  assert (base ≤ pool) as Hbp by nia.
  split_and!; try done; try lia.
  - apply wrap_id. unfold Int32.in_range, Int32.min_int. lia.
  - intros Hpos. apply wrap_id. unfold Int32.in_range, Int32.min_int.
    split; [lia|]. nia.
Qed.

End NormalArithmetic.

(** C4.  On the normal path the pool [T - Σ] is divided over the [N - k]
    records that are not specified: with [base] its quotient and [extra]
    its remainder, the walk from the highest index to the lowest gives
    [base + 1] to the first [extra] records that are not specified and
    [base] to the others, so two such records, and two such names in the
    returned mapping, differ by at most 1. *)
Theorem normalAllocate_fair `{rt : GoRuntime}
    (s : replicasAllocator) (T : Z) (S : gmap string Z) :
  validTotal T → freshRecords (subsets s) →
  validSpecified T S (subsets s) →
  fst (effectiveReplicas s T (Some S)) = true →
  let N := length (subsets s) in
  let k := pinnedCount S (subsets s) in
  let base := Z.quot (T - mapTotal S) (Z.of_nat (N - k)) in
  let extra := Z.rem (T - mapTotal S) (Z.of_nat (N - k)) in
  ∃ allocated s',
    AllocateReplicas s T (Some S) = Some (allocated, true, ""%string, s') ∧
    length (unpinned (subsets s')) = (N - k)%nat ∧
    ((k < N)%nat →
     0 ≤ extra < Z.of_nat (N - k) ∧
     Replicas <$> unpinned (reverse (subsets s'))
     = replicate (Z.to_nat extra) (base + 1)
       ++ replicate (N - k - Z.to_nat extra) base) ∧
    (∀ a b, a ∈ unpinned (subsets s') → b ∈ unpinned (subsets s') →
            Replicas a - Replicas b ≤ 1) ∧
    (∀ name1 name2 v1 v2,
       S !! name1 = None → S !! name2 = None →
       allocated !! name1 = Some v1 → allocated !! name2 = Some v2 →
       v1 - v2 ≤ 1).
Proof.
  intros HT [Hnd Hfresh] Hvalid Heff N k base extra.
  destruct (normal_pool s T S HT Hnd Hvalid Heff) as (Hpool & Hrange & _).
  destruct (normalAllocate_distribution s T S Hfresh)
    as (n2 & Hrun & Hnames & Hflags & _ & Hfree & Hshape).
  cbv zeta in Hshape. rewrite Hpool in Hshape.
  fold N in Hfree, Hshape. fold k in Hfree, Hshape.
  fold base in Hshape. fold extra in Hshape.
  assert ((k < N)%nat →
          0 ≤ extra < Z.of_nat (N - k) ∧
          Replicas <$> unpinned (reverse n2)
          = replicate (Z.to_nat extra) (base + 1)
            ++ replicate (N - k - Z.to_nat extra) base) as Hwalk.
  { intros Hk.
    destruct (quot_rem_pool (T - mapTotal S) (N - k) Hrange ltac:(lia))
      as (_ & Hextra & _ & Hwb & Hwb1).
    fold base in Hwb, Hwb1. fold extra in Hextra, Hwb1.
    split; [done|]. rewrite Hshape by lia. rewrite Hwb.
    destruct (decide (0 < extra)) as [Hpos|Hzero].
    - by rewrite Hwb1.
    - by replace (Z.to_nat extra) with 0%nat by lia. }
  assert (∀ a, a ∈ unpinned n2 → base ≤ Replicas a ≤ base + 1) as Hnear.
  { intros a Ha.
    assert (k < N)%nat as Hk.
    { destruct (unpinned n2); [by apply elem_of_nil in Ha|].
      cbn [length] in Hfree. lia. }
    destruct (Hwalk Hk) as [_ Heq].
    assert (Replicas a ∈ Replicas <$> unpinned (reverse n2)) as Hin.
    { apply list_elem_of_fmap. exists a. split; [done|].
      by rewrite unpinned_reverse, elem_of_reverse. }
    rewrite Heq, elem_of_app in Hin.
    destruct Hin as [Hin|Hin]; apply elem_of_replicate in Hin as [-> _]; lia. }
  unfold AllocateReplicas.
  destruct (effectiveReplicas s T (Some S)) as [effective reason].
  cbn [fst] in Heff. subst effective. cbn [negb]. rewrite Hrun.
  cbn [mbind option_bind]. eexists _, _. split; [done|]. cbn [subsets].
  split_and!; [done|done| |].
  - intros a b Ha Hb. pose proof (Hnear a Ha). pose proof (Hnear b Hb). lia.
  - assert (∀ name v, S !! name = None →
              toSubsetReplicaMap {| subsets := n2 |} !! name = Some v →
              base ≤ v ≤ base + 1) as Hmap.
    { intros name v Hnone Hv.
      apply toSubsetReplicaMap_lookup in Hv as (r & Hr & <- & <-);
        [|by rewrite Hnames].
      apply Hnear. apply list_elem_of_filter. split; [|done].
      rewrite Forall_forall in Hflags. rewrite (Hflags r Hr).
      apply bool_decide_eq_false_2. rewrite Hnone. by intros [? ?]. }
    intros name1 name2 v1 v2 H1 H2 Hv1 Hv2.
    pose proof (Hmap _ _ H1 Hv1). pose proof (Hmap _ _ H2 Hv2). lia.
Qed.

Section NormalTotal.

Lemma totalReplicas_by_flag (S : gmap string Z) (n : subsetInfos) :
  Forall (λ subset, Specified subset
                    = bool_decide (is_Some (S !! SubsetName subset))) n →
  Forall (λ subset, ∀ v, S !! SubsetName subset = Some v →
                         Replicas subset = v) n →
  totalReplicas n = pinnedTotal S n + totalReplicas (unpinned n).
Proof.
  induction 1 as [|x n Hx Hn IH]; intros Hv; [done|].
  apply Forall_cons in Hv as [Hvx Hvn].
  rewrite totalReplicas_cons, pinnedTotal_cons, (IH Hvn).
  unfold unpinned. rewrite filter_cons.
  destruct (S !! SubsetName x) as [v|] eqn:E.
  - rewrite bool_decide_eq_true_2 in Hx by eauto.
    rewrite decide_False by congruence. rewrite (Hvx v eq_refl). lia.
  - rewrite bool_decide_eq_false_2 in Hx by (by intros [? ?]).
    rewrite decide_True by done. rewrite totalReplicas_cons. lia.
Qed.

Lemma totalReplicas_reverse (n : subsetInfos) :
  totalReplicas (reverse n) = totalReplicas n.
Proof. unfold totalReplicas. by rewrite fmap_reverse, reverse_Permutation. Qed.

(** The normal path on a valid request: the records sum to the total and
    hold no negative count. *)
Lemma normalAllocate_total `{rt : GoRuntime} (s : replicasAllocator)
    (T : Z) (S : gmap string Z) :
  validTotal T → freshRecords (subsets s) →
  validSpecified T S (subsets s) →
  fst (effectiveReplicas s T (Some S)) = true →
  ∃ n2,
    normalAllocate s T (Some S)
    = Some (toSubsetReplicaMap {| subsets := n2 |}, {| subsets := n2 |}) ∧
    SubsetName <$> n2 = SubsetName <$> subsets s ∧
    totalReplicas n2 = T ∧
    Forall (λ subset, 0 ≤ Replicas subset) n2.
Proof.
  intros HT [Hnd Hfresh] Hvalid Heff.
  destruct (normal_pool s T S HT Hnd Hvalid Heff) as (Hpool & Hrange & Hfull).
  destruct (normalAllocate_distribution s T S Hfresh)
    as (n2 & Hrun & Hnames & Hflags & Hvals & Hfree & Hshape).
  cbv zeta in Hshape. rewrite Hpool in Hshape.
  pose proof (pinnedCount_le S (subsets s)) as Hle.
  set (free := (length (subsets s) - pinnedCount S (subsets s))%nat) in *.
  assert (pinnedTotal S n2 = mapTotal S) as Hpinned.
  { rewrite (pinnedTotal_names S n2 (subsets s) Hnames).
    apply pinnedTotal_mapTotal; [done|].
    destruct Hvalid as [Hall _]. intros name v Hv. by apply Hall in Hv as [? _]. }
  exists n2. split_and!; [done|done| |].
  - rewrite (totalReplicas_by_flag S n2 Hflags Hvals), Hpinned.
    destruct (decide (free = 0%nat)) as [Hz|Hnz].
    + rewrite Hz in Hfree. apply nil_length_inv in Hfree. rewrite Hfree.
      change (totalReplicas []) with 0. rewrite Hfull by (subst free; lia). lia.
    + destruct (quot_rem_pool (T - mapTotal S) free Hrange ltac:(lia))
        as (_ & Hextra & Heq & Hwb & Hwb1).
      rewrite <- totalReplicas_reverse. unfold totalReplicas.
      rewrite <- unpinned_reverse, (Hshape Hnz), Hwb.
      rewrite sumZ_app, !sumZ_replicate.
      set (extra := (T - mapTotal S) `rem` Z.of_nat free) in *.
      set (base := (T - mapTotal S) `quot` Z.of_nat free) in *.
      destruct (decide (0 < extra)) as [Hp|Hp].
      * rewrite (Hwb1 Hp). nia.
      * replace (Z.to_nat extra) with 0%nat by lia. nia.
  - apply Forall_forall. intros r Hr.
    rewrite Forall_forall in Hflags, Hvals.
    destruct (S !! SubsetName r) as [v|] eqn:E.
    + rewrite (Hvals r Hr v E). destruct Hvalid as [Hall _].
      apply Hall in E as [_ [? _]]. done.
    + assert (r ∈ unpinned n2) as Hin.
      { apply list_elem_of_filter. split; [|done]. rewrite (Hflags r Hr).
        apply bool_decide_eq_false_2. rewrite E. by intros [? ?]. }
      assert (free ≠ 0%nat) as Hnz.
      { intros Hz. rewrite Hz in Hfree. apply nil_length_inv in Hfree.
        rewrite Hfree in Hin. by apply elem_of_nil in Hin. }
      destruct (quot_rem_pool (T - mapTotal S) free Hrange ltac:(lia))
        as (Hbase & Hextra & Heq & Hwb & Hwb1).
      assert (Replicas r ∈ Replicas <$> unpinned (reverse n2)) as Hin'.
      { apply list_elem_of_fmap. exists r. split; [done|].
        by rewrite unpinned_reverse, elem_of_reverse. }
      rewrite (Hshape Hnz), Hwb, elem_of_app in Hin'.
      destruct Hin' as [Hin'|Hin']; apply elem_of_replicate in Hin' as [-> Hm].
      * rewrite Hwb1; lia.
      * lia.
Qed.

End NormalTotal.

(** ** The incremental path: scaling out *)

Section ScaleOut.

Lemma in_range_nonneg (z : Z) :
  0 ≤ z ≤ Int32.max_int → Int32.in_range z.
Proof. unfold Int32.in_range, Int32.min_int. lia. Qed.

Lemma add_exact (a b : Z) :
  Int32.in_range (a + b) → Int32.add a b = a + b.
Proof. apply wrap_id. Qed.

Lemma sub_exact (a b : Z) :
  Int32.in_range (a - b) → Int32.sub a b = a - b.
Proof. apply wrap_id. Qed.

Lemma quo_exact (a b : Z) :
  0 ≤ a ≤ Int32.max_int → 0 < b →
  Int32.quo a b = Some (Z.quot a b) ∧ Int32.rem a b = Some (Z.rem a b) ∧
  0 ≤ Z.quot a b ≤ a ∧ 0 ≤ Z.rem a b < b ∧
  a = b * Z.quot a b + Z.rem a b.
Proof.
  intros Ha Hb. unfold Int32.quo, Int32.rem.
  rewrite !decide_False by lia.
  assert (0 ≤ Z.quot a b) by (apply Z.quot_pos; lia).
  assert (0 ≤ Z.rem a b < b) by (apply Z.rem_bound_pos; lia).
  assert (a = b * Z.quot a b + Z.rem a b) by (apply Z.quot_rem'; lia).
  assert (Z.quot a b ≤ a) by nia.
  rewrite wrap_id by (apply in_range_nonneg; lia). done.
Qed.

(** The second loop: the records below [k] receive [average], and the
    [reminder] of them with the highest indices one more. *)
Lemma scaleOutAssign_spec (k : nat) (n : subsetInfos) (avg rem : Z) :
  (k ≤ length n)%nat → 0 ≤ rem ≤ Z.of_nat k → rem ≤ Int32.max_int →
  (0 < rem → Int32.in_range (avg + 1)) →
  ∃ n', scaleOutAssign n k avg rem = Some n' ∧
    length n' = length n ∧
    SubsetName <$> n' = SubsetName <$> n ∧
    Specified <$> n' = Specified <$> n ∧
    drop k n' = drop k n ∧
    totalReplicas (take k n') = Z.of_nat k * avg + rem ∧
    Forall (λ subset, avg ≤ Replicas subset ≤ avg + 1) (take k n').
Proof.
  revert n rem. induction k as [|k IH]; intros n rem Hk Hrem Hmax Havg.
  { exists n. rewrite !take_0. split_and!; try done.
    change (totalReplicas []) with 0. lia. }
  destruct (lookup_lt_is_Some_2 n k ltac:(lia)) as [subset Hsub].
  cbn [scaleOutAssign]. rewrite Get_lookup, Hsub. cbn [mbind option_bind].
  set (new := if decide (rem > 0) then setReplicas (avg + 1) subset
              else setReplicas avg subset).
  set (rem' := if decide (rem > 0) then rem - 1 else rem).
  assert (scaleOutAssign (<[k := new]> n) k avg rem'
          = if decide (rem > 0)
            then scaleOutAssign
                   (<[k := setReplicas (Int32.add avg 1) subset]> n) k avg
                   (Int32.sub rem 1)
            else scaleOutAssign (<[k := setReplicas avg subset]> n) k avg rem)
    as <-.
  { subst new rem'. destruct (decide (rem > 0)); [|done].
    rewrite add_exact by (apply Havg; lia).
    by rewrite sub_exact by (apply in_range_nonneg; lia). }
  assert (SubsetName new = SubsetName subset ∧
          Specified new = Specified subset ∧
          avg ≤ Replicas new ≤ avg + 1 ∧
          Replicas new + rem' = avg + rem ∧ 0 ≤ rem' ≤ Z.of_nat k ∧
          (0 < rem' → 0 < rem))
    as (Hname & Hflag & Hnear & Hsum & Hrem' & Hpos).
  { subst new rem'.
    destruct (decide (rem > 0)); cbn; split_and!; (done || lia). }
  assert (k ≤ length (<[k := new]> n))%nat as Hk1
    by (rewrite length_insert; lia).
  destruct (IH (<[k := new]> n) rem' Hk1 Hrem' ltac:(lia) ltac:(auto))
    as (n' & -> & Hlen & Hnames & Hflags & Hdrop & Htotal & Hall).
  assert (n' !! k = Some new) as Hnew.
  { apply (f_equal (.!! 0%nat)) in Hdrop. rewrite !lookup_drop in Hdrop.
    rewrite Nat.add_0_r in Hdrop. rewrite Hdrop.
    apply list_lookup_insert_eq. lia. }
  exists n'. split_and!; [done| | | | | |].
  - by rewrite Hlen, length_insert.
  - rewrite Hnames. by apply (fmap_insert_same SubsetName n k subset).
  - rewrite Hflags. by apply (fmap_insert_same Specified n k subset).
  - replace (S k) with (k + 1)%nat by lia.
    rewrite <- !drop_drop, Hdrop, !drop_drop.
    by rewrite drop_insert_lt by lia.
  - rewrite (totalReplicas_take_S _ _ _ Hnew), Htotal. lia.
  - rewrite (take_S_r _ _ _ Hnew). apply Forall_app. split; [done|].
    by apply Forall_singleton.
Qed.

(** The first loop: it stops at an index [m - 1 ≥ 0]; the records from
    [m] on are set aside with their replicas, and what is left of the
    total exceeds what the records below [m] hold. *)
Lemma scaleOutBoundary_spec (k : nat) (n : subsetInfos)
    (v : incrementalVars) :
  Forall (λ subset, 0 ≤ Replicas subset) n → Len n ≤ Int32.max_int →
  (1 ≤ k ≤ length n)%nat →
  totalReplicas (take k n) < expectedReplicas v ≤ Int32.max_int →
  ∃ v' m,
    scaleOutBoundary n k v = Some v' ∧
    boundary v' = Z.of_nat m - 1 ∧ (1 ≤ m ≤ k)%nat ∧
    expectedReplicas v' + totalReplicas (drop m (take k n))
      = expectedReplicas v ∧
    totalReplicas (take m n) < expectedReplicas v' ∧
    average v' = Z.quot (expectedReplicas v') (Z.of_nat m) ∧
    reminder v' = Z.rem (expectedReplicas v') (Z.of_nat m) ∧
    leftSubsetsCount v' = Z.of_nat m.
Proof.
  intros Hnonneg Hlen. unfold Len in Hlen. revert v.
  induction k as [|k IH]; intros v Hk HE; [lia|].
  destruct (lookup_lt_is_Some_2 n k ltac:(lia)) as [subset Hsub].
  assert (0 ≤ Replicas subset) as Hr
    by (by apply (Forall_lookup_1 _ _ _ _ Hnonneg Hsub)).
  assert (0 ≤ totalReplicas (take k n)) as Hpre
    by (by apply totalReplicas_nonneg, Forall_take).
  rewrite (totalReplicas_take_S _ _ _ Hsub) in HE.
  cbn [scaleOutBoundary].
  rewrite (wrap_id (Z.of_nat k)) by (apply in_range_nonneg; lia).
  rewrite add_exact by (apply in_range_nonneg; lia).
  destruct (quo_exact (expectedReplicas v) (Z.of_nat k + 1)
              ltac:(lia) ltac:(lia)) as (-> & -> & Hq & Hrm & Heq).
  cbn [mbind option_bind]. rewrite Get_lookup, Hsub. cbn [mbind option_bind].
  set (E := expectedReplicas v) in *.
  set (q := Z.quot E (Z.of_nat k + 1)) in *.
  set (r := Z.rem E (Z.of_nat k + 1)) in *.
  assert ((if decide (r > 0) then Int32.add q 1 else q)
          = if decide (r > 0) then q + 1 else q) as ->.
  { destruct (decide (r > 0)); [|done].
    apply add_exact, in_range_nonneg. nia. }
  destruct (decide ((if decide (r > 0) then q + 1 else q) < Replicas subset))
    as [Hskip|Hstop].
  - assert (1 ≤ k)%nat as Hk1.
    { destruct k as [|k]; [|lia]. exfalso.
      rewrite take_0 in HE. change (totalReplicas []) with 0 in HE.
      assert (q = E) by (subst q; apply Z.quot_1_r).
      destruct (decide (r > 0)); lia. }
    rewrite sub_exact by (apply in_range_nonneg; lia).
    destruct (IH {| expectedReplicas := E - Replicas subset; average := q;
                    reminder := r; leftSubsetsCount := Z.of_nat k + 1;
                    boundary := Z.of_nat k |} ltac:(lia) ltac:(cbn; lia))
      as (v' & m & -> & Hb & Hm & Hsum & Hlt & Havg & Hrem & Hleft).
    cbn [expectedReplicas] in Hsum.
    exists v', m. split_and!; try done; try lia.
    rewrite (take_S_r _ _ _ Hsub), drop_app_le
      by (rewrite length_take; lia).
    rewrite totalReplicas_app. change (totalReplicas [subset])
      with (Replicas subset + 0). lia.
  - eexists _, (S k). split; [done|]. cbn.
    rewrite drop_ge by (rewrite length_take; lia).
    change (totalReplicas []) with 0.
    rewrite (totalReplicas_take_S _ _ _ Hsub).
    replace (Z.of_nat (S k)) with (Z.of_nat k + 1) by lia.
    split_and!; try done; try lia.
Qed.

End ScaleOut.

(** ** The incremental path: scaling in *)

Section ScaleIn.

(** The first loop: it stops at an index [b] below the length.  Every
    record before [b] holds less than the average of what was left of the
    total when the loop looked at it, and is set aside with its
    replicas; the record at [b] holds at least the average. *)
Lemma scaleInBoundary_spec (todo : nat) (n : subsetInfos)
    (v : incrementalVars) (a : nat) :
  Forall (λ subset, 0 ≤ Replicas subset) n → Len n ≤ Int32.max_int →
  boundary v = Z.of_nat a → (a + todo = length n)%nat → (1 ≤ todo)%nat →
  0 ≤ expectedReplicas v ≤ Int32.max_int →
  expectedReplicas v < totalReplicas (drop a n) →
  ∃ v' b,
    scaleInBoundary n (Len n) todo v = Some v' ∧
    boundary v' = Z.of_nat b ∧ (a ≤ b < length n)%nat ∧
    expectedReplicas v' + totalReplicas (take (b - a) (drop a n))
      = expectedReplicas v ∧
    0 ≤ expectedReplicas v' < totalReplicas (drop b n) ∧
    average v' = Z.quot (expectedReplicas v') (Len n - Z.of_nat b) ∧
    reminder v' = Z.rem (expectedReplicas v') (Len n - Z.of_nat b) ∧
    leftSubsetsCount v' = Len n - Z.of_nat b ∧
    (∀ subset, n !! b = Some subset → average v' ≤ Replicas subset) ∧
    (∀ j subset, (a ≤ j < b)%nat → n !! j = Some subset →
       Replicas subset
       < Z.quot (expectedReplicas v
                 - totalReplicas (take (j - a) (drop a n)))
                (Len n - Z.of_nat j)).
Proof.
  intros Hnonneg Hlen. unfold Len in *. revert v a.
  induction todo as [|todo IH]; intros v a Hb Hcount Htodo HE Hlt; [lia|].
  destruct (lookup_lt_is_Some_2 n a ltac:(lia)) as [subset Hsub].
  assert (0 ≤ Replicas subset) as Hr
    by (by apply (Forall_lookup_1 _ _ _ _ Hnonneg Hsub)).
  rewrite (totalReplicas_drop _ _ _ Hsub) in Hlt.
  cbn [scaleInBoundary]. rewrite Hb.
  rewrite (wrap_id (Z.of_nat (length n) - Z.of_nat a))
    by (apply in_range_nonneg; lia).
  destruct (quo_exact (expectedReplicas v)
              (Z.of_nat (length n) - Z.of_nat a) ltac:(lia) ltac:(lia))
    as (-> & -> & Hq & Hrm & Heq).
  cbn [mbind option_bind]. rewrite Get_lookup, Hsub. cbn [mbind option_bind].
  set (E := expectedReplicas v) in *.
  set (left := Z.of_nat (length n) - Z.of_nat a) in *.
  set (q := Z.quot E left) in *.
  set (r := Z.rem E left) in *.
  destruct (decide (q > Replicas subset)) as [Hskip|Hstop].
  - assert (1 ≤ todo)%nat as Htodo1.
    { destruct todo as [|todo]; [|lia]. exfalso.
      assert (left = 1) as Hone by (subst left; lia).
      assert (q = E) by (subst q; rewrite Hone; apply Z.quot_1_r).
      assert (0 ≤ totalReplicas (drop (S a) n)) as H0
        by (by apply totalReplicas_nonneg, Forall_drop).
      rewrite drop_ge in Hlt by lia.
      change (totalReplicas []) with 0 in Hlt. lia. }
    assert (1 ≤ E - Replicas subset) as Hleft by nia.
    rewrite sub_exact by (apply in_range_nonneg; lia).
    destruct (IH {| expectedReplicas := E - Replicas subset; average := q;
                    reminder := r; leftSubsetsCount := left;
                    boundary := Z.of_nat a + 1 |} (S a)
                ltac:(cbn; lia) ltac:(lia) Htodo1 ltac:(cbn; lia)
                ltac:(cbn; lia))
      as (v' & b & -> & Hb' & Hrange & Hsum & HE' & Havg & Hrem & Hl & Hstop
          & Hbefore).
    cbn [expectedReplicas] in Hsum, Hbefore.
    assert (take (b - a) (drop a n)
            = subset :: take (b - S a) (drop (S a) n)) as Htake.
    { rewrite (drop_S _ _ _ Hsub).
      replace (b - a)%nat with (S (b - S a)) by lia. done. }
    exists v', b. split_and!; try done; try lia.
    + rewrite Htake, totalReplicas_cons. lia.
    + intros j x Hj Hx. destruct (decide (j = a)) as [->|Hne].
      * rewrite Hsub in Hx. injection Hx as <-.
        rewrite Nat.sub_diag, take_0. change (totalReplicas []) with 0.
        rewrite Z.sub_0_r. fold left. fold q. lia.
      * replace (take (j - a) (drop a n))
          with (subset :: take (j - S a) (drop (S a) n)).
        2:{ rewrite (drop_S _ _ _ Hsub).
            replace (j - a)%nat with (S (j - S a)) by lia. done. }
        rewrite totalReplicas_cons.
        replace (E - (Replicas subset
                      + totalReplicas (take (j - S a) (drop (S a) n))))
          with (E - Replicas subset
                - totalReplicas (take (j - S a) (drop (S a) n))) by lia.
        apply Hbefore; [lia|done].
  - eexists _, a. split; [done|]. cbn.
    rewrite Nat.sub_diag, take_0. change (totalReplicas []) with 0.
    rewrite (totalReplicas_drop _ _ _ Hsub).
    split_and!; try done; try lia.
    intros x Hx. rewrite Hsub in Hx. injection Hx as <-. lia.
Qed.

(** The second loop: the records from [a] on receive [average], and
    those whose distance to the end is at most [reminder] one more. *)
Lemma scaleInAssign_spec (todo : nat) (n : subsetInfos) (a : nat)
    (avg rem left : Z) :
  (a + todo = length n)%nat → Len n ≤ Int32.max_int →
  0 ≤ rem ≤ Int32.max_int → left = Z.max (Z.of_nat todo) rem →
  (0 < rem → Int32.in_range (avg + 1)) →
  ∃ n', scaleInAssign n (Z.of_nat a) todo avg rem left = Some n' ∧
    length n' = length n ∧
    SubsetName <$> n' = SubsetName <$> n ∧
    Specified <$> n' = Specified <$> n ∧
    take a n' = take a n ∧
    (∀ p subset, (a ≤ p)%nat → n !! p = Some subset →
       n' !! p
       = Some (setReplicas
                 (if decide (Len n - Z.of_nat p ≤ rem) then avg + 1 else avg)
                 subset)) ∧
    totalReplicas (drop a n')
      = Z.of_nat todo * avg + Z.min (Z.of_nat todo) rem.
Proof.
  unfold Len. revert n a left.
  induction todo as [|todo IH]; intros n a left Hcount Hlen Hrem Hleft Havg.
  { exists n. split_and!; try done.
    - intros p subset Hp Hsub. apply lookup_lt_Some in Hsub. lia.
    - rewrite drop_ge by lia. change (totalReplicas []) with 0. lia. }
  destruct (lookup_lt_is_Some_2 n a ltac:(lia)) as [subset Hsub].
  cbn [scaleInAssign]. rewrite Get_lookup, Hsub. cbn [mbind option_bind].
  rewrite Nat2Z.id.
  replace (Z.of_nat a + 1) with (Z.of_nat (S a)) by lia.
  set (new := setReplicas
                (if decide (Z.of_nat (S todo) ≤ rem) then avg + 1 else avg)
                subset).
  set (left' := Z.max (Z.of_nat todo) rem).
  assert (scaleInAssign (<[a := new]> n) (Z.of_nat (S a)) todo avg rem left'
          = if decide (left ≤ rem)
            then scaleInAssign
                   (<[a := setReplicas (Int32.add avg 1) subset]> n)
                   (Z.of_nat (S a)) todo avg rem left
            else scaleInAssign (<[a := setReplicas avg subset]> n)
                   (Z.of_nat (S a)) todo avg rem (Int32.sub left 1)) as <-.
  { subst new left'. destruct (decide (left ≤ rem)) as [Hle|Hgt].
    - rewrite decide_True by lia.
      rewrite add_exact by (apply Havg; lia). f_equal. lia.
    - rewrite decide_False by lia.
      rewrite sub_exact by (apply in_range_nonneg; lia). f_equal. lia. }
  assert (length (<[a := new]> n) = length n) as Hlen1 by apply length_insert.
  destruct (IH (<[a := new]> n) (S a) left' ltac:(lia) ltac:(lia) Hrem
              eq_refl Havg)
    as (n' & -> & Hlen' & Hnames & Hflags & Htake & Hlook & Htotal).
  assert (n' !! a = Some new) as Hnew.
  { apply (f_equal (.!! a)) in Htake.
    rewrite !lookup_take_lt in Htake by lia. rewrite Htake.
    apply list_lookup_insert_eq. lia. }
  exists n'. split_and!; [done| | | | | |].
  - by rewrite Hlen'.
  - rewrite Hnames. by apply (fmap_insert_same SubsetName n a subset).
  - rewrite Hflags. by apply (fmap_insert_same Specified n a subset).
  - apply (f_equal (take a)) in Htake. rewrite !take_take in Htake.
    rewrite Nat.min_l in Htake by lia. rewrite Htake.
    by rewrite take_insert_ge.
  - intros p x Hp Hx. destruct (decide (p = a)) as [->|Hne].
    + rewrite Hsub in Hx. injection Hx as <-. rewrite Hnew. subst new.
      do 2 f_equal. replace (Z.of_nat (length n) - Z.of_nat a)
        with (Z.of_nat (S todo)) by lia. done.
    + rewrite (Hlook p x) by (by (lia || rewrite list_lookup_insert_ne)).
      by rewrite Hlen1.
  - rewrite (totalReplicas_drop _ _ _ Hnew), Htotal. subst new. cbn.
    destruct (decide (Z.of_nat (S todo) ≤ rem)); lia.
Qed.

End ScaleIn.

(** ** The incremental path as a whole *)

Section Incremental.

(** The difference the branches of [incrementalAllocate] test is the
    exact one. *)
Lemma incremental_diff (n : subsetInfos) (T : Z) :
  validTotal T → observedCounts n →
  sumCurrent n = totalReplicas n ∧
  Int32.sub T (sumCurrent n) = T - totalReplicas n ∧
  0 ≤ totalReplicas n.
Proof.
  intros [HT0 HT] (Hnonneg & Hsum & Hlen).
  pose proof (totalReplicas_nonneg n Hnonneg) as H0.
  rewrite sumCurrent_wrap, wrap_id by (apply in_range_nonneg; lia).
  split; [done|]. split; [|done]. apply sub_exact.
  unfold Int32.in_range, Int32.min_int, Int32.max_int in *. lia.
Qed.

Lemma incrementalAllocate_unfold (s : replicasAllocator) (T : Z) :
  validTotal T → observedCounts (subsets s) →
  incrementalAllocate s T
  = (n' ←
       (if decide (T - totalReplicas (subsets s) > 0) then
          v ← scaleOutBoundary (subsets s) (length (subsets s))
                (declaredVars T);
          scaleOutAssign (subsets s) (Z.to_nat (boundary v + 1))
            (average v) (reminder v)
        else if decide (T - totalReplicas (subsets s) < 0) then
          v ← scaleInBoundary (subsets s) (Len (subsets s))
                (length (subsets s)) (declaredVars T);
          scaleInAssign (subsets s) (boundary v)
            (Z.to_nat (Len (subsets s) - boundary v))
            (average v) (reminder v) (leftSubsetsCount v)
        else Some (subsets s));
     Some (toSubsetReplicaMap {| subsets := n' |}, {| subsets := n' |})).
Proof.
  intros HT Hobs. unfold incrementalAllocate. cbv zeta.
  destruct (incremental_diff _ _ HT Hobs) as (_ & -> & _).
  unfold Len. by rewrite Nat2Z.id.
Qed.

(** Scaling out: the loops return, the records from the boundary up are
    untouched, and the others share what is left of the total. *)
Lemma scaleOut_result (n : subsetInfos) (T : Z) :
  validTotal T → observedCounts n → n ≠ [] → totalReplicas n < T →
  ∃ v m n',
    scaleOutBoundary n (length n) (declaredVars T) = Some v ∧
    boundary v = Z.of_nat m - 1 ∧ (1 ≤ m ≤ length n)%nat ∧
    scaleOutAssign n (Z.to_nat (boundary v + 1)) (average v) (reminder v)
      = Some n' ∧
    length n' = length n ∧
    SubsetName <$> n' = SubsetName <$> n ∧
    Specified <$> n' = Specified <$> n ∧
    drop m n' = drop m n ∧
    totalReplicas n' = T ∧
    Forall (λ subset, 0 ≤ Replicas subset) n'.
Proof.
  intros [HT0 HT] (Hnonneg & Hsum & Hlen) Hnil Hdiff.
  assert (1 ≤ length n)%nat as Hne by (destruct n; [done|cbn; lia]).
  destruct (scaleOutBoundary_spec (length n) n (declaredVars T) Hnonneg Hlen
              ltac:(lia))
    as (v & m & Hrun & Hb & Hm & HE & Hlt & Havg & Hrem & _).
  { rewrite firstn_all. cbn. lia. }
  rewrite firstn_all in HE. cbn [declaredVars expectedReplicas] in HE.
  assert (0 ≤ totalReplicas (take m n)) as H0
    by (by apply totalReplicas_nonneg, Forall_take).
  assert (0 ≤ totalReplicas (drop m n)) as H1
    by (by apply totalReplicas_nonneg, Forall_drop).
  destruct (quo_exact (expectedReplicas v) (Z.of_nat m) ltac:(lia) ltac:(lia))
    as (_ & _ & Hq & Hr & Heq).
  rewrite <- ?Havg, <- ?Hrem in Hq, Hr, Heq.
  destruct (scaleOutAssign_spec m n (average v) (reminder v) ltac:(lia)
              ltac:(lia) ltac:(lia))
    as (n' & Hassign & Hlen' & Hnames & Hflags & Hdrop & Htotal & Hall).
  { intros Hpos. apply in_range_nonneg. nia. }
  exists v, m, n'. rewrite Hb.
  replace (Z.to_nat (Z.of_nat m - 1 + 1)) with m by lia.
  split_and!; try done; try lia.
  - rewrite (totalReplicas_take_drop n' m), Htotal, Hdrop. lia.
  - rewrite <- (take_drop m n'). apply Forall_app. split.
    + eapply Forall_impl; [exact Hall|]. cbn. intros x Hx. lia.
    + rewrite Hdrop. by apply Forall_drop.
Qed.

(** Scaling in: the loops return, the records below the boundary are
    untouched, and the others share what is left of the total, the
    larger shares at the end. *)
Lemma scaleIn_result (n : subsetInfos) (T : Z) :
  validTotal T → observedCounts n → T < totalReplicas n →
  ∃ v b n',
    scaleInBoundary n (Len n) (length n) (declaredVars T) = Some v ∧
    boundary v = Z.of_nat b ∧ (b < length n)%nat ∧
    scaleInAssign n (boundary v) (Z.to_nat (Len n - boundary v))
      (average v) (reminder v) (leftSubsetsCount v) = Some n' ∧
    length n' = length n ∧
    SubsetName <$> n' = SubsetName <$> n ∧
    Specified <$> n' = Specified <$> n ∧
    take b n' = take b n ∧
    totalReplicas n' = T ∧
    Forall (λ subset, 0 ≤ Replicas subset) n' ∧
    let pool := T - totalReplicas (take b n) in
    let base := Z.quot pool (Len n - Z.of_nat b) in
    let extra := Z.rem pool (Len n - Z.of_nat b) in
    0 ≤ extra < Len n - Z.of_nat b ∧
    (∀ subset, n !! b = Some subset → base ≤ Replicas subset) ∧
    (∀ j subset, (j < b)%nat → n !! j = Some subset →
       Replicas subset
       < Z.quot (T - totalReplicas (take j n)) (Len n - Z.of_nat j)) ∧
    (∀ j subset, (b ≤ j)%nat → n !! j = Some subset →
       n' !! j
       = Some (setReplicas
                 (if decide (Len n - Z.of_nat j ≤ extra)
                  then base + 1 else base) subset)).
Proof.
  intros [HT0 HT] (Hnonneg & Hsum & Hlen) Hdiff.
  assert (1 ≤ length n)%nat as Hne.
  { destruct n; [|cbn; lia]. change (totalReplicas []) with 0 in Hdiff. lia. }
  destruct (scaleInBoundary_spec (length n) n (declaredVars T) 0 Hnonneg Hlen
              eq_refl eq_refl Hne)
    as (v & b & Hrun & Hb & Hrange & HE & HE' & Havg & Hrem & Hleft & Hstop
        & Hbefore).
  { cbn. lia. }
  { by rewrite drop_0. }
  cbn [declaredVars expectedReplicas] in HE, Hbefore.
  rewrite drop_0, Nat.sub_0_r in HE.
  assert (expectedReplicas v = T - totalReplicas (take b n)) as HEv by lia.
  assert (0 ≤ totalReplicas (take b n)) as H0
    by (by apply totalReplicas_nonneg, Forall_take).
  unfold Len in *.
  destruct (quo_exact (expectedReplicas v)
              (Z.of_nat (length n) - Z.of_nat b) ltac:(lia) ltac:(lia))
    as (_ & _ & Hq & Hr & Heq).
  rewrite <- ?Havg, <- ?Hrem in Hq, Hr, Heq.
  destruct (scaleInAssign_spec (length n - b) n b (average v) (reminder v)
              (leftSubsetsCount v) ltac:(lia) Hlen ltac:(lia))
    as (n' & Hassign & Hlen' & Hnames & Hflags & Htake & Hlook & Htotal).
  { rewrite Hleft. lia. }
  { intros Hpos. apply in_range_nonneg. nia. }
  exists v, b, n'. rewrite Hb.
  replace (Z.to_nat (Z.of_nat (length n) - Z.of_nat b))
    with (length n - b)%nat by lia.
  rewrite <- HEv, <- Havg, <- Hrem.
  split_and!; try done; try lia.
  - rewrite (totalReplicas_take_drop n' b), Htotal, Htake. nia.
  - rewrite <- (take_drop b n'). apply Forall_app. split.
    + rewrite Htake. by apply Forall_take.
    + apply Forall_lookup. intros j x Hj. rewrite lookup_drop in Hj.
      assert (is_Some (n !! (b + j)%nat)) as [x0 Hx0].
      { apply lookup_lt_is_Some. rewrite <- Hlen'.
        by apply lookup_lt_is_Some_1; eauto. }
      rewrite (Hlook (b + j)%nat x0 ltac:(lia) Hx0) in Hj. injection Hj as <-. cbn.
      case_decide; lia.
  - intros j x Hj Hx. specialize (Hbefore j x ltac:(lia) Hx).
    by rewrite drop_0, Nat.sub_0_r in Hbefore.
Qed.

(** The incremental path on valid counts and at least one record: it
    returns, the records keep their names, sum to the total and hold no
    negative count. *)
Lemma incrementalAllocate_total (s : replicasAllocator) (T : Z) :
  validTotal T → observedCounts (subsets s) → subsets s ≠ [] →
  ∃ n',
    incrementalAllocate s T
    = Some (toSubsetReplicaMap {| subsets := n' |}, {| subsets := n' |}) ∧
    SubsetName <$> n' = SubsetName <$> subsets s ∧
    totalReplicas n' = T ∧
    Forall (λ subset, 0 ≤ Replicas subset) n'.
Proof.
  intros HT Hobs Hne. rewrite (incrementalAllocate_unfold s T HT Hobs).
  destruct (decide (T - totalReplicas (subsets s) > 0)) as [Hout|Hnout].
  { destruct (scaleOut_result (subsets s) T HT Hobs Hne ltac:(lia))
      as (v & m & n' & -> & _ & _ & Hrun & _ & Hnames & _ & _ & Htotal & Hall).
    cbn [mbind option_bind]. rewrite Hrun. cbn [mbind option_bind].
    by exists n'. }
  destruct (decide (T - totalReplicas (subsets s) < 0)) as [Hin|Hnin].
  { destruct (scaleIn_result (subsets s) T HT Hobs ltac:(lia))
      as (v & b & n' & -> & _ & _ & Hrun & _ & Hnames & _ & _ & Htotal & Hall
          & _).
    cbn [mbind option_bind]. rewrite Hrun. cbn [mbind option_bind].
    by exists n'. }
  cbn [mbind option_bind]. exists (subsets s).
  destruct Hobs as (Hnonneg & _). split_and!; try done. lia.
Qed.

End Incremental.

(** ** The allocation as a whole *)

Section Allocation.



(** The three ways into an allocation, on a valid request: the
    incremental path on its own, the normal path when the check answers
    feasible, and [AllocateReplicas], which chooses between them.  Each
    returns records that keep the names, sum to the total when there is a
    record at all, and hold no negative count. *)
Lemma allocation_sound `{rt : GoRuntime} (s : replicasAllocator) (T : Z)
    (S : gmap string Z) :
  validTotal T → observedCounts (subsets s) → freshRecords (subsets s) →
  validSpecified T S (subsets s) →
  let good (result : option (gmap string Z * replicasAllocator)) :=
    ∃ n', result
          = Some (toSubsetReplicaMap {| subsets := n' |},
                  {| subsets := n' |}) ∧
          SubsetName <$> n' = SubsetName <$> subsets s ∧
          (subsets s ≠ [] → totalReplicas n' = T) ∧
          Forall (λ subset, 0 ≤ Replicas subset) n' in
  good (incrementalAllocate s T) ∧
  (fst (effectiveReplicas s T (Some S)) = true →
   good (normalAllocate s T (Some S))) ∧
  ∃ n' reason,
    AllocateReplicas s T (Some S)
    = Some (toSubsetReplicaMap {| subsets := n' |},
            fst (effectiveReplicas s T (Some S)), reason,
            {| subsets := n' |}) ∧
    SubsetName <$> n' = SubsetName <$> subsets s ∧
    (subsets s ≠ [] → totalReplicas n' = T) ∧
    Forall (λ subset, 0 ≤ Replicas subset) n'.
Proof.
  intros HT Hobs Hfresh Hvalid good.
  assert (good (incrementalAllocate s T)) as Hinc.
  { destruct s as [[|x n]].
    - exists []. by rewrite incrementalAllocate_nil.
    - destruct (incrementalAllocate_total _ T HT Hobs ltac:(done))
        as (n' & ? & ? & ? & ?).
      exists n'. split_and!; done. }
  assert (fst (effectiveReplicas s T (Some S)) = true →
          good (normalAllocate s T (Some S))) as Hnorm.
  { intros Heff.
    destruct (normalAllocate_total s T S HT Hfresh Hvalid Heff)
      as (n' & ? & ? & ? & ?).
    exists n'. split_and!; done. }
  split; [done|]. split; [done|].
  unfold AllocateReplicas.
  destruct (effectiveReplicas s T (Some S)) as [[|] reason]; cbn [negb fst].
  - destruct (Hnorm eq_refl) as (n' & -> & ? & ? & ?).
    cbn [mbind option_bind]. by exists n', ""%string.
  - destruct Hinc as (n' & -> & ? & ? & ?).
    cbn [mbind option_bind]. by exists n', reason.
Qed.

End Allocation.

(** C1, as the code has it.  On a valid request with at least one
    subset, the mapping that [AllocateReplicas] returns sums to the total,
    whether the check answers feasible or not; so does the mapping of the
    incremental path on its own, and that of the normal path when the check
    answers feasible. *)
Theorem AllocateReplicas_sum `{rt : GoRuntime}
    (s : replicasAllocator) (T : Z) (S : gmap string Z) :
  subsets s ≠ [] →
  validTotal T → observedCounts (subsets s) → freshRecords (subsets s) →
  validSpecified T S (subsets s) →
  (∃ allocated effective reason s',
     AllocateReplicas s T (Some S) = Some (allocated, effective, reason, s') ∧
     mapTotal allocated = T) ∧
  (∃ allocated s',
     incrementalAllocate s T = Some (allocated, s') ∧ mapTotal allocated = T) ∧
  (fst (effectiveReplicas s T (Some S)) = true →
   ∃ allocated s',
     normalAllocate s T (Some S) = Some (allocated, s') ∧
     mapTotal allocated = T).
Proof.
  intros Hne HT Hobs Hfresh Hvalid.
  destruct (allocation_sound s T S HT Hobs Hfresh Hvalid)
    as (Hinc & Hnorm & n' & reason & Hrun & Hnames & Htotal & _).
  destruct Hfresh as [Hnd _].
  split_and!.
  - eexists _, _, _, _. split; [exact Hrun|].
    rewrite toSubsetReplicaMap_total by (by rewrite Hnames). auto.
  - destruct Hinc as (n1 & -> & Hn1 & Ht1 & _). eexists _, _. split; [done|].
    rewrite toSubsetReplicaMap_total by (by rewrite Hn1). auto.
  - intros Heff. destruct (Hnorm Heff) as (n1 & -> & Hn1 & Ht1 & _).
    eexists _, _. split; [done|].
    rewrite toSubsetReplicaMap_total by (by rewrite Hn1). auto.
Qed.


(** C7.  When the total is the sum of the current replicas, the
    difference is zero: the incremental path changes no record, and the
    returned mapping holds the current replicas of every subset. *)
Theorem incrementalAllocate_unchanged (s : replicasAllocator) (T : Z) :
  T = totalReplicas (subsets s) →
  Int32.sub T (sumCurrent (subsets s)) = 0 ∧
  incrementalAllocate s T = Some (toSubsetReplicaMap s, s) ∧
  (NoDup (SubsetName <$> subsets s) →
   ∀ subset, subset ∈ subsets s →
     toSubsetReplicaMap s !! SubsetName subset = Some (Replicas subset)).
Proof.
  intros ->.
  assert (Int32.sub (totalReplicas (subsets s)) (sumCurrent (subsets s)) = 0)
    as Hdiff.
  { rewrite sumCurrent_wrap. unfold Int32.sub. rewrite wrap_sub_r.
    by rewrite Z.sub_diag. }
  split; [done|]. destruct s as [n]. split.
  - unfold incrementalAllocate. cbv zeta. rewrite Hdiff.
    rewrite decide_False by lia. by rewrite decide_False by lia.
  - intros Hnd subset Hin. apply toSubsetReplicaMap_lookup; [done|]. eauto.
Qed.


(** C5.  Scaling in, on valid counts: the scan from index 0 sets aside,
    unchanged, every record that holds less than the average of what is
    left of the total over the records from it on; it stops at the first
    record [b] that holds at least that average.  The records from [b] on
    receive the quotient [base] of the rest, and those whose distance to
    the end is at most the remainder [extra], the highest indices, receive
    [base + 1]; the record at [b] itself receives [base], at most what it
    held. *)
Theorem incrementalAllocate_scale_in (s : replicasAllocator) (T : Z) :
  validTotal T → observedCounts (subsets s) →
  T < totalReplicas (subsets s) →
  let n := subsets s in
  let pool (j : nat) := T - totalReplicas (take j n) in
  let fair (j : nat) := Z.quot (pool j) (Len n - Z.of_nat j) in
  ∃ allocated s' (b : nat),
    incrementalAllocate s T = Some (allocated, s') ∧
    (b < length n)%nat ∧
    (∀ j subset, (j < b)%nat → n !! j = Some subset →
       Replicas subset < fair j ∧ subsets s' !! j = Some subset) ∧
    (∀ subset, n !! b = Some subset → fair b ≤ Replicas subset) ∧
    let base := fair b in
    let extra := Z.rem (pool b) (Len n - Z.of_nat b) in
    0 ≤ extra < Len n - Z.of_nat b ∧
    (∀ j subset, (b ≤ j)%nat → n !! j = Some subset →
       subsets s' !! j
       = Some (setReplicas
                 (if decide (Len n - Z.of_nat j ≤ extra)
                  then base + 1 else base) subset)) ∧
    (∀ subset, n !! b = Some subset →
       subsets s' !! b = Some (setReplicas base subset) ∧
       base ≤ Replicas subset).
Proof.
  intros HT Hobs Hdiff n pool fair.
  destruct (scaleIn_result n T HT Hobs Hdiff)
    as (v & b & n' & Hrun & Hb & Hrange & Hassign & Hlen & _ & _ & Htake
        & _ & _ & Hextra & Hstop & Hbefore & Hafter).
  cbv zeta in Hextra, Hstop, Hafter.
  eexists _, {| subsets := n' |}, b. split.
  { rewrite (incrementalAllocate_unfold s T HT Hobs).
    rewrite decide_False by lia. rewrite decide_True by lia.
    fold n. rewrite Hrun. cbn [mbind option_bind]. rewrite Hassign. done. }
  cbn [subsets]. split; [done|]. split.
  { intros j subset Hj Hsub. split; [by apply Hbefore|].
    apply (f_equal (.!! j)) in Htake.
    rewrite !lookup_take_lt in Htake by done. by rewrite Htake. }
  split; [exact Hstop|]. cbv zeta.
  split; [exact Hextra|]. split; [exact Hafter|].
  intros subset Hsub. split; [|by apply Hstop].
  rewrite (Hafter b subset ltac:(lia) Hsub).
  by rewrite decide_False by lia.
Qed.

(** ** Determinism *)

Section Determinism.

Lemma Get_Some (n : subsetInfos) (j : Z) (subset : nameToReplicas) :
  Get n j = Some subset → n !! Z.to_nat j = Some subset.
Proof. unfold Get. by case_decide. Qed.

(** The loops of the incremental path write replicas and nothing else:
    whatever of a record does not depend on its replicas stays in place,
    also when the counts are arbitrary. *)
Lemma scaleOutAssign_frame {B} (f : nameToReplicas → B) (k : nat)
    (n n' : subsetInfos) (avg rem : Z) :
  (∀ v subset, f (setReplicas v subset) = f subset) →
  scaleOutAssign n k avg rem = Some n' → f <$> n' = f <$> n.
Proof.
  intros Hf. revert n rem.
  induction k as [|k IH]; intros n rem; cbn [scaleOutAssign].
  { by intros [= ->]. }
  rewrite Get_lookup. destruct (n !! k) as [subset|] eqn:Hsub; [|done].
  cbn [mbind option_bind].
  destruct (decide (rem > 0)); intros Hrun; apply IH in Hrun;
    rewrite Hrun; by apply (fmap_insert_same f n k subset).
Qed.

Lemma scaleInAssign_frame {B} (f : nameToReplicas → B) (todo : nat)
    (n n' : subsetInfos) (j avg rem left : Z) :
  (∀ v subset, f (setReplicas v subset) = f subset) →
  scaleInAssign n j todo avg rem left = Some n' → f <$> n' = f <$> n.
Proof.
  intros Hf. revert n j left.
  induction todo as [|todo IH]; intros n j left; cbn [scaleInAssign].
  { by intros [= ->]. }
  destruct (Get n j) as [subset|] eqn:Hsub; [|done].
  apply Get_Some in Hsub. cbn [mbind option_bind].
  destruct (decide (left ≤ rem)); intros Hrun; apply IH in Hrun;
    rewrite Hrun; by apply (fmap_insert_same f n _ subset).
Qed.

Lemma incrementalAllocate_frame {B} (f : nameToReplicas → B)
    (s s' : replicasAllocator) (T : Z) (allocated : gmap string Z) :
  (∀ v subset, f (setReplicas v subset) = f subset) →
  incrementalAllocate s T = Some (allocated, s') →
  f <$> subsets s' = f <$> subsets s.
Proof.
  intros Hf. unfold incrementalAllocate. cbv zeta.
  destruct (decide (Int32.sub T (sumCurrent (subsets s)) > 0)).
  { destruct (scaleOutBoundary _ _ _) as [v|]; [|done].
    cbn [mbind option_bind].
    destruct (scaleOutAssign _ _ _ _) as [n'|] eqn:Hrun; [|done].
    cbn [mbind option_bind]. intros [= _ <-]. cbn [subsets].
    by apply (scaleOutAssign_frame f) in Hrun. }
  destruct (decide (Int32.sub T (sumCurrent (subsets s)) < 0)).
  { destruct (scaleInBoundary _ _ _ _) as [v|]; [|done].
    cbn [mbind option_bind].
    destruct (scaleInAssign _ _ _ _ _ _) as [n'|] eqn:Hrun; [|done].
    cbn [mbind option_bind]. intros [= _ <-]. cbn [subsets].
    by apply (scaleInAssign_frame f) in Hrun. }
  cbn [mbind option_bind]. by intros [= _ <-].
Qed.

(** After an allocation on records that were not marked, the mark of a
    record is decided by its name: by the specified map on the normal path,
    unset on the incremental one. *)
Lemma AllocateReplicas_marks `{rt : GoRuntime} (s s' : replicasAllocator)
    (T : Z) (S : gmap string Z) (allocated : gmap string Z)
    (effective : bool) (reason : string) :
  Forall (λ subset, Specified subset = false) (subsets s) →
  AllocateReplicas s T (Some S) = Some (allocated, effective, reason, s') →
  ∃ mark, markedBy mark (subsets s').
Proof.
  intros Hfresh. unfold AllocateReplicas.
  destruct (effectiveReplicas s T (Some S)) as [[|] why]; cbn [negb].
  - destruct (normalAllocate_distribution s T S Hfresh)
      as (n2 & -> & _ & Hflags & _).
    cbn [mbind option_bind]. intros [= _ _ _ <-].
    by exists (λ name, bool_decide (is_Some (S !! name))).
  - destruct (incrementalAllocate s T) as [[m s1]|] eqn:Hrun; [|done].
    cbn [mbind option_bind]. intros [= _ _ _ <-].
    apply (incrementalAllocate_frame Specified) in Hrun; [|done].
    exists (λ _, false). apply Forall_lookup. intros j r Hj.
    assert (is_Some (subsets s !! j)) as [r0 Hr0].
    { apply lookup_lt_is_Some.
      rewrite <- (length_fmap Specified (subsets s)), <- Hrun, length_fmap.
      by apply lookup_lt_is_Some_1; eauto. }
    rewrite (fmap_eq_lookup _ _ _ _ _ _ Hrun Hj Hr0).
    by apply (Forall_lookup_1 _ _ _ _ Hfresh Hr0).
Qed.

Lemma nameToReplicas_eq (a b : nameToReplicas) :
  SubsetName a = SubsetName b → Replicas a = Replicas b →
  Specified a = Specified b → a = b.
Proof. destruct a, b. cbn. by intros -> -> ->. Qed.

(** Records whose marks are decided by their names have one sorted
    arrangement: two records that [Less] does not separate are the same
    record. *)
Lemma sorted_unique_marked (mark : string → bool) (n l1 l2 : subsetInfos) :
  markedBy mark n → l1 ≡ₚ n → l2 ≡ₚ n →
  Sorted notAfter l1 → Sorted notAfter l2 → l1 = l2.
Proof.
  intros Hmark H1 H2 Hs1 Hs2.
  apply (Sorted_unique_strong notAfter); [|done|done|by rewrite H1, H2].
  intros x1 x2 Hx1 Hx2 H12 H21.
  destruct (notAfter_antisym _ _ H12 H21) as [Hreplicas Hname].
  apply nameToReplicas_eq; [done|done|].
  unfold markedBy in Hmark. rewrite Forall_forall in Hmark.
  rewrite (Hmark x1) by (by rewrite <- H1).
  rewrite (Hmark x2) by (by rewrite <- H2).
  by rewrite Hname.
Qed.

Lemma sort_Sort_marked (rt1 rt2 : GoRuntime) (mark : string → bool)
    (n : subsetInfos) :
  markedBy mark n → @sort_Sort rt1 n = @sort_Sort rt2 n.
Proof.
  intros Hmark.
  apply (sorted_unique_marked mark n);
    auto using sort_Sort_perm, sort_Sort_sorted.
Qed.

Lemma NoDup_fmap_eq {A B} (f : A → B) (l : list A) (x y : A) :
  NoDup (f <$> l) → x ∈ l → y ∈ l → f x = f y → x = y.
Proof.
  induction l as [|z l IH]; [by intros _ ?%elem_of_nil|].
  rewrite fmap_cons, NoDup_cons, !elem_of_cons.
  intros [Hz Hnd] [->|Hx] [->|Hy] Hf; try done.
  - exfalso. apply Hz. rewrite Hf. apply list_elem_of_fmap. eauto.
  - exfalso. apply Hz. rewrite <- Hf. apply list_elem_of_fmap. eauto.
  - by apply IH.
Qed.

(** With unique names there is one sorted arrangement of the records,
    whatever their marks. *)
Lemma sorted_unique (n l1 l2 : subsetInfos) :
  NoDup (SubsetName <$> n) → l1 ≡ₚ n → l2 ≡ₚ n →
  Sorted notAfter l1 → Sorted notAfter l2 → l1 = l2.
Proof.
  intros Hnd H1 H2 Hs1 Hs2.
  apply (Sorted_unique_strong notAfter); [|done|done|by rewrite H1, H2].
  intros x1 x2 Hx1 Hx2 H12 H21.
  destruct (notAfter_antisym _ _ H12 H21) as [_ Hname].
  apply (NoDup_fmap_eq SubsetName n); [done| | |done].
  - by rewrite <- H1.
  - by rewrite <- H2.
Qed.

Lemma effectiveReplicas_runtime (rt1 rt2 : GoRuntime)
    (s : replicasAllocator) (T : Z) (limits : option (gmap string Z)) :
  @effectiveReplicas rt1 s T limits = @effectiveReplicas rt2 s T limits.
Proof.
  destruct limits as [S|]; [|done]. unfold effectiveReplicas.
  by rewrite !sumLimits_rangeOver.
Qed.

Lemma AllocateReplicas_runtime (rt1 rt2 : GoRuntime)
    (s : replicasAllocator) (T : Z) (limits : option (gmap string Z)) :
  @AllocateReplicas rt1 s T limits = @AllocateReplicas rt2 s T limits.
Proof.
  unfold AllocateReplicas.
  by rewrite (effectiveReplicas_runtime rt1 rt2).
Qed.

Lemma getSubsetInfos_names {IntOrString : Type}
    (nameToSubset : gmap string Subset) (ud : UnitedDeployment IntOrString) :
  SubsetName <$> getSubsetInfos nameToSubset ud = Name <$> TopologySubsets ud.
Proof.
  unfold getSubsetInfos. rewrite <- list_fmap_compose.
  by apply list_fmap_ext.
Qed.

Lemma getSubsetInfos_fresh {IntOrString : Type}
    (nameToSubset : gmap string Subset) (ud : UnitedDeployment IntOrString) :
  Forall (λ subset, Specified subset = false)
         (getSubsetInfos nameToSubset ud).
Proof. unfold getSubsetInfos. by apply Forall_fmap, Forall_true. Qed.

End Determinism.

(** C8.  The allocation is a function of the contents of its inputs.  Two
    runtimes, that is two orders of visiting the specified map and two
    sorting routines, give the same mapping, feasibility answer and reason
    and leave the same records, and the debug string printed from these
    records is the same.  With unique names [Less] is a strict total order
    on the records (irreflexive, transitive, and any two records compare
    one way or the other), so a slice has one sorted arrangement. *)
Theorem GetAllocatedReplicas_deterministic (rt1 rt2 : GoRuntime)
    {IntOrString : Type} (ParseSubsetReplicas : Z → IntOrString → option Z)
    (nameToSubset : gmap string Subset) (ud : UnitedDeployment IntOrString) :
  @GetAllocatedReplicas rt1 _ ParseSubsetReplicas nameToSubset ud
  = @GetAllocatedReplicas rt2 _ ParseSubsetReplicas nameToSubset ud ∧
  (∀ allocated effective reason s',
     @GetAllocatedReplicas rt1 _ ParseSubsetReplicas nameToSubset ud
     = Some (allocated, effective, reason, s') →
     @allocatorString rt1 s' = @allocatorString rt2 s') ∧
  (∀ n l1 l2 : subsetInfos,
     NoDup (SubsetName <$> n) → l1 ≡ₚ n → l2 ≡ₚ n →
     Sorted notAfter l1 → Sorted notAfter l2 → l1 = l2) ∧
  (∀ a, lessRecord a a = false) ∧
  (∀ a b c, lessRecord a b = true → lessRecord b c = true →
            lessRecord a c = true) ∧
  (∀ a b, SubsetName a ≠ SubsetName b →
          lessRecord a b = true ∨ lessRecord b a = true).
Proof.
  pose proof (getSubsetInfos_fresh nameToSubset ud) as Hfresh.
  assert (@SortToAllocator rt1 (getSubsetInfos nameToSubset ud)
          = @SortToAllocator rt2 (getSubsetInfos nameToSubset ud)) as Hsort.
  { unfold SortToAllocator.
    by rewrite (sort_Sort_marked rt1 rt2 (λ _, false)). }
  assert (@GetAllocatedReplicas rt1 _ ParseSubsetReplicas nameToSubset ud
          = @GetAllocatedReplicas rt2 _ ParseSubsetReplicas nameToSubset ud)
    as Hsame.
  { unfold GetAllocatedReplicas. rewrite Hsort.
    destruct (getSpecifiedSubsetReplicas _ _) as [S|]; [|done].
    destruct (SpecReplicas ud) as [T|]; [|done]. cbn [mbind option_bind].
    apply AllocateReplicas_runtime. }
  split; [done|]. split.
  { intros allocated effective reason s' Hrun.
    unfold GetAllocatedReplicas in Hrun.
    destruct (getSpecifiedSubsetReplicas _ _) as [S|]; [|done].
    destruct (SpecReplicas ud) as [T|]; [|done]. cbn [mbind option_bind] in Hrun.
    apply AllocateReplicas_marks in Hrun as [mark Hmark].
    - unfold allocatorString. by rewrite (sort_Sort_marked rt1 rt2 mark).
    - unfold SortToAllocator. cbn [subsets]. by rewrite sort_Sort_perm. }
  split; [apply sorted_unique|].
  split; [apply lessRecord_irrefl|].
  split; [apply lessRecord_trans|apply lessRecord_connex].
Qed.

(** ** What the pipeline hands to the allocator *)

Section PipelineValid.

Context {rt : GoRuntime} {IntOrString : Type}.
Variable ParseSubsetReplicas : Z → IntOrString → option Z.

Lemma specifiedOf_valid (T : Z) (names : list string)
    (defs : list (SubsetDef IntOrString)) (acc m : gmap string Z) :
  (∀ spec v, ParseSubsetReplicas T spec = Some v → 0 ≤ v ≤ T) →
  Forall (λ subsetDef, Name subsetDef ∈ names) defs →
  map_Forall (λ name v, name ∈ names ∧ 0 ≤ v ≤ T) acc →
  specifiedOf ParseSubsetReplicas (Some T) defs acc = Some m →
  map_Forall (λ name v, name ∈ names ∧ 0 ≤ v ≤ T) m.
Proof.
  intros Hparse Hdefs. revert acc.
  induction Hdefs as [|d defs Hd Hdefs IH]; intros acc Hacc; cbn [specifiedOf].
  { by intros [= <-]. }
  destruct (SubsetDefReplicas d) as [spec|]; [|by apply IH].
  cbn [mbind option_bind].
  destruct (ParseSubsetReplicas T spec) as [v|] eqn:Hv; [|by apply IH].
  apply IH. apply map_Forall_insert_2; [|done].
  split; [done|]. by apply (Hparse spec).
Qed.

(** With unique names in the topology and a parser that answers between
    0 and the total, the records and the specified map that
    [GetAllocatedReplicas] passes to [AllocateReplicas] are fresh and
    name subsets of the topology with counts between 0 and the total. *)
Lemma GetAllocatedReplicas_request (nameToSubset : gmap string Subset)
    (ud : UnitedDeployment IntOrString) (T : Z) (S : gmap string Z) :
  NoDup (Name <$> TopologySubsets ud) →
  (∀ spec v, ParseSubsetReplicas T spec = Some v → 0 ≤ v ≤ T) →
  SpecReplicas ud = Some T →
  getSpecifiedSubsetReplicas ParseSubsetReplicas ud = Some S →
  let s := SortToAllocator (getSubsetInfos nameToSubset ud) in
  freshRecords (subsets s) ∧
  map_Forall (λ name v, name ∈ SubsetName <$> subsets s ∧ 0 ≤ v ≤ T) S.
Proof.
  intros Hnd Hparse HT HS s.
  assert (SubsetName <$> subsets s ≡ₚ Name <$> TopologySubsets ud) as Hnames.
  { subst s. unfold SortToAllocator. cbn [subsets].
    by rewrite sort_Sort_perm, getSubsetInfos_names. }
  split.
  - split; [by rewrite Hnames|].
    subst s. unfold SortToAllocator. cbn [subsets].
    rewrite sort_Sort_perm. apply getSubsetInfos_fresh.
  - unfold getSpecifiedSubsetReplicas in HS. rewrite HT in HS.
    eapply (specifiedOf_valid T _ _ ∅); [done| |apply map_Forall_empty|done].
    apply Forall_forall. intros d Hd. rewrite Hnames.
    apply list_elem_of_fmap. eauto.
Qed.

End PipelineValid.

Section NilMap.

Context {rt : GoRuntime}.

(** A nil specified map passes the feasibility check; the normal path
    then dereferences it for the first record. *)
Lemma AllocateReplicas_nil_map (s : replicasAllocator) (T : Z) :
  subsets s ≠ [] → AllocateReplicas s T None = None.
Proof.
  intros Hne. unfold AllocateReplicas, effectiveReplicas. cbn [negb].
  unfold normalAllocate. destruct (subsets s) as [|x n]; [done|]. done.
Qed.

End NilMap.

(** ** Scaling out, record by record *)

Section ScaleOutShape.

(** The second loop, record by record. *)
Lemma scaleOutAssign_lookup (k : nat) (n n' : subsetInfos) (avg rem : Z) :
  (k ≤ length n)%nat → 0 ≤ rem ≤ Z.of_nat k → rem ≤ Int32.max_int →
  (0 < rem → Int32.in_range (avg + 1)) →
  scaleOutAssign n k avg rem = Some n' →
  ∀ j subset, (j < k)%nat → n !! j = Some subset →
    n' !! j
    = Some (setReplicas
              (if decide (Z.of_nat k - Z.of_nat j ≤ rem) then avg + 1 else avg)
              subset).
Proof.
  revert n rem. induction k as [|k IH]; intros n rem Hk Hrem Hmax Havg Hrun;
    [intros; lia|].
  destruct (lookup_lt_is_Some_2 n k ltac:(lia)) as [x Hx].
  cbn [scaleOutAssign] in Hrun. rewrite Get_lookup, Hx in Hrun.
  cbn [mbind option_bind] in Hrun.
  set (new := setReplicas (if decide (rem > 0) then avg + 1 else avg) x).
  set (rem' := if decide (rem > 0) then rem - 1 else rem).
  assert (scaleOutAssign (<[k := new]> n) k avg rem' = Some n') as Hrun'.
  { subst new rem'. destruct (decide (rem > 0)); [|done].
    rewrite add_exact in Hrun by (apply Havg; lia).
    by rewrite sub_exact in Hrun by (apply in_range_nonneg; lia). }
  assert (0 ≤ rem' ≤ Z.of_nat k ∧ (0 < rem' → 0 < rem) ∧ rem' ≤ rem)
    as (Hrem' & Hpos & Hle)
    by (subst rem'; destruct (decide (rem > 0)); lia).
  assert (k ≤ length (<[k := new]> n))%nat as Hk1
    by (rewrite length_insert; lia).
  destruct (scaleOutAssign_spec k (<[k := new]> n) avg rem' Hk1 Hrem'
              ltac:(lia) ltac:(auto)) as (n'' & Hrun'' & _ & _ & _ & Hdrop & _).
  rewrite Hrun' in Hrun''. injection Hrun'' as <-.
  intros j subset Hj Hsub. destruct (decide (j = k)) as [->|Hne].
  - apply (f_equal (.!! 0%nat)) in Hdrop. rewrite !lookup_drop in Hdrop.
    rewrite Nat.add_0_r in Hdrop. rewrite Hdrop.
    rewrite list_lookup_insert_eq by lia. rewrite Hx in Hsub.
    injection Hsub as <-. subst new. do 2 f_equal.
    destruct (decide (rem > 0)).
    + by rewrite decide_True by lia.
    + by rewrite decide_False by lia.
  - rewrite (IH (<[k := new]> n) rem' Hk1 Hrem' ltac:(lia) ltac:(auto) Hrun'
               j subset ltac:(lia)) by (by rewrite list_lookup_insert_ne).
    do 2 f_equal. subst rem'.
    destruct (decide (rem > 0)); repeat case_decide; lia.
Qed.

(** The first loop, record by record: every record it sets aside holds
    more than the considered average of what was left for the records up to
    it, and the record it stops at does not. *)
Lemma scaleOutBoundary_scan (k : nat) (n : subsetInfos)
    (v : incrementalVars) :
  Forall (λ subset, 0 ≤ Replicas subset) n → Len n ≤ Int32.max_int →
  (1 ≤ k ≤ length n)%nat →
  totalReplicas (take k n) < expectedReplicas v ≤ Int32.max_int →
  ∃ v' m,
    scaleOutBoundary n k v = Some v' ∧
    boundary v' = Z.of_nat m - 1 ∧ (1 ≤ m ≤ k)%nat ∧
    (∀ subset, n !! (m - 1)%nat = Some subset →
       Replicas subset ≤ consideredAverage (expectedReplicas v') (Z.of_nat m)) ∧
    (∀ j subset, (m ≤ j < k)%nat → n !! j = Some subset →
       consideredAverage
         (expectedReplicas v - totalReplicas (drop (S j) (take k n)))
         (Z.of_nat j + 1)
       < Replicas subset).
Proof.
  intros Hnonneg Hlen. unfold Len in Hlen. revert v.
  induction k as [|k IH]; intros v Hk HE; [lia|].
  destruct (lookup_lt_is_Some_2 n k ltac:(lia)) as [subset Hsub].
  assert (0 ≤ Replicas subset) as Hr
    by (by apply (Forall_lookup_1 _ _ _ _ Hnonneg Hsub)).
  assert (0 ≤ totalReplicas (take k n)) as Hpre
    by (by apply totalReplicas_nonneg, Forall_take).
  rewrite (totalReplicas_take_S _ _ _ Hsub) in HE.
  cbn [scaleOutBoundary].
  rewrite (wrap_id (Z.of_nat k)) by (apply in_range_nonneg; lia).
  rewrite add_exact by (apply in_range_nonneg; lia).
  destruct (quo_exact (expectedReplicas v) (Z.of_nat k + 1)
              ltac:(lia) ltac:(lia)) as (-> & -> & Hq & Hrm & Heq).
  cbn [mbind option_bind]. rewrite Get_lookup, Hsub. cbn [mbind option_bind].
  set (E := expectedReplicas v) in *.
  set (q := Z.quot E (Z.of_nat k + 1)) in *.
  set (r := Z.rem E (Z.of_nat k + 1)) in *.
  assert ((if decide (r > 0) then Int32.add q 1 else q)
          = consideredAverage E (Z.of_nat k + 1)) as ->.
  { unfold consideredAverage. fold q. fold r.
    destruct (decide (r > 0)); [|lia].
    apply add_exact, in_range_nonneg. nia. }
  destruct (decide (consideredAverage E (Z.of_nat k + 1) < Replicas subset))
    as [Hskip|Hstop].
  - assert (1 ≤ k)%nat as Hk1.
    { destruct k as [|k]; [|lia]. exfalso.
      rewrite take_0 in HE. change (totalReplicas []) with 0 in HE.
      unfold consideredAverage in Hskip. fold q in Hskip. fold r in Hskip.
      assert (q = E) by (subst q; apply Z.quot_1_r).
      destruct (decide (r > 0)); lia. }
    rewrite sub_exact by (apply in_range_nonneg; lia).
    destruct (IH {| expectedReplicas := E - Replicas subset; average := q;
                    reminder := r; leftSubsetsCount := Z.of_nat k + 1;
                    boundary := Z.of_nat k |} ltac:(lia) ltac:(cbn; lia))
      as (v' & m & -> & Hb & Hm & Hstop & Hbefore).
    cbn [expectedReplicas] in Hbefore.
    exists v', m. split_and!; try done; try lia.
    intros j x Hj Hx. destruct (decide (j = k)) as [->|Hne].
    + rewrite Hsub in Hx. injection Hx as <-.
      rewrite drop_ge by (rewrite length_take; lia).
      change (totalReplicas []) with 0. by rewrite Z.sub_0_r.
    + rewrite (take_S_r _ _ _ Hsub), drop_app_le
        by (rewrite length_take; lia).
      rewrite totalReplicas_app.
      change (totalReplicas [subset]) with (Replicas subset + 0).
      specialize (Hbefore j x ltac:(lia) Hx).
      replace (E - (totalReplicas (drop (S j) (take k n))
                    + (Replicas subset + 0)))
        with (E - Replicas subset - totalReplicas (drop (S j) (take k n)))
        by lia.
      done.
  - eexists _, (S k). split; [done|]. cbn [boundary expectedReplicas].
    split_and!; try lia.
    intros x Hx. replace (S k - 1)%nat with k in Hx by lia.
    rewrite Hsub in Hx. injection Hx as <-.
    replace (Z.of_nat (S k)) with (Z.of_nat k + 1) by lia. lia.
Qed.

End ScaleOutShape.

(** Scaling out, record by record. *)
Lemma scaleOut_shape (s : replicasAllocator) (T : Z) :
  validTotal T → observedCounts (subsets s) → subsets s ≠ [] →
  totalReplicas (subsets s) < T →
  let n := subsets s in
  let pool (j : nat) := T - totalReplicas (drop j n) in
  ∃ allocated s' (m : nat),
    incrementalAllocate s T = Some (allocated, s') ∧
    length (subsets s') = length n ∧
    (1 ≤ m ≤ length n)%nat ∧
    (∀ j subset, (m ≤ j)%nat → n !! j = Some subset →
       consideredAverage (pool (S j)) (Z.of_nat j + 1) < Replicas subset ∧
       subsets s' !! j = Some subset) ∧
    (∀ subset, n !! (m - 1)%nat = Some subset →
       Replicas subset ≤ consideredAverage (pool m) (Z.of_nat m)) ∧
    let base := Z.quot (pool m) (Z.of_nat m) in
    let extra := Z.rem (pool m) (Z.of_nat m) in
    0 ≤ extra < Z.of_nat m ∧
    (∀ j subset, (j < m)%nat → n !! j = Some subset →
       subsets s' !! j
       = Some (setReplicas
                 (if decide (Z.of_nat m - Z.of_nat j ≤ extra)
                  then base + 1 else base) subset)).
Proof.
  intros HT Hobs Hne Hdiff. cbv zeta. set (n := subsets s) in *.
  destruct (scaleOut_result n T HT Hobs Hne Hdiff)
    as (v & m & n' & Hrun & Hb & Hm & Hassign & Hlen' & _ & _ & Hdrop & _).
  destruct HT as [HT0 HT]. destruct Hobs as (Hnonneg & Hsum & Hlen).
  assert (1 ≤ length n)%nat as Hpos by lia.
  assert (totalReplicas (take (length n) n)
          < expectedReplicas (declaredVars T) ≤ Int32.max_int) as HE0
    by (rewrite firstn_all; cbn [declaredVars expectedReplicas]; lia).
  destruct (scaleOutBoundary_spec (length n) n (declaredVars T) Hnonneg Hlen
              ltac:(lia) HE0)
    as (v1 & m1 & Hrun1 & Hb1 & _ & HE & Hlt & Havg & Hrem & _).
  destruct (scaleOutBoundary_scan (length n) n (declaredVars T) Hnonneg Hlen
              ltac:(lia) HE0)
    as (v2 & m2 & Hrun2 & Hb2 & _ & Hstop & Hbefore).
  rewrite Hrun in Hrun1, Hrun2.
  injection Hrun1 as <-. injection Hrun2 as <-.
  assert (m1 = m) as -> by lia. assert (m2 = m) as -> by lia.
  rewrite firstn_all in HE, Hbefore.
  cbn [declaredVars expectedReplicas] in HE, Hbefore.
  assert (expectedReplicas v = T - totalReplicas (drop m n)) as HEv by lia.
  assert (0 ≤ totalReplicas (take m n)) as H0
    by (by apply totalReplicas_nonneg, Forall_take).
  assert (0 ≤ totalReplicas (drop m n)) as H1
    by (by apply totalReplicas_nonneg, Forall_drop).
  destruct (quo_exact (expectedReplicas v) (Z.of_nat m) ltac:(lia) ltac:(lia))
    as (_ & _ & Hq & Hr & Heq).
  rewrite Hb in Hassign.
  replace (Z.to_nat (Z.of_nat m - 1 + 1)) with m in Hassign by lia.
  eexists _, {| subsets := n' |}, m. split.
  { rewrite (incrementalAllocate_unfold s T); [|done|done].
    fold n. rewrite decide_True by lia. rewrite Hrun.
    cbn [mbind option_bind]. rewrite Hb.
    replace (Z.to_nat (Z.of_nat m - 1 + 1)) with m by lia.
    rewrite Hassign. done. }
  cbn [subsets]. split; [done|]. split; [done|]. split.
  { intros j subset Hj Hsub. split.
    - apply Hbefore; [|done]. apply lookup_lt_Some in Hsub. lia.
    - apply (f_equal (.!! (j - m)%nat)) in Hdrop.
      rewrite !lookup_drop in Hdrop.
      replace (m + (j - m))%nat with j in Hdrop by lia. by rewrite Hdrop. }
  rewrite <- HEv. split; [done|]. split; [done|].
  intros j subset Hj Hsub. rewrite <- Havg, <- Hrem.
  apply (scaleOutAssign_lookup m n n' (average v) (reminder v));
    try done; try lia.
  intros Hp. apply in_range_nonneg. rewrite Havg. rewrite Hrem in Hp. nia.
Qed.

(** X1.  Scaling out, on valid counts: the scan from the last index sets
    aside, unchanged, every record that holds more than the considered
    average of what is left of the total over the records up to it, and
    stops at the first record [m - 1] that does not.  The records below [m]
    receive the quotient [base] of the rest, and the [extra] of them with the
    highest indices receive [base + 1]. *)
Theorem incrementalAllocate_scale_out (s : replicasAllocator) (T : Z) :
  validTotal T → observedCounts (subsets s) → subsets s ≠ [] →
  totalReplicas (subsets s) < T →
  let n := subsets s in
  let pool (j : nat) := T - totalReplicas (drop j n) in
  ∃ allocated s' (m : nat),
    incrementalAllocate s T = Some (allocated, s') ∧
    length (subsets s') = length n ∧
    (1 ≤ m ≤ length n)%nat ∧
    (∀ j subset, (m ≤ j)%nat → n !! j = Some subset →
       consideredAverage (pool (S j)) (Z.of_nat j + 1) < Replicas subset ∧
       subsets s' !! j = Some subset) ∧
    (∀ subset, n !! (m - 1)%nat = Some subset →
       Replicas subset ≤ consideredAverage (pool m) (Z.of_nat m)) ∧
    let base := Z.quot (pool m) (Z.of_nat m) in
    let extra := Z.rem (pool m) (Z.of_nat m) in
    0 ≤ extra < Z.of_nat m ∧
    (∀ j subset, (j < m)%nat → n !! j = Some subset →
       subsets s' !! j
       = Some (setReplicas
                 (if decide (Z.of_nat m - Z.of_nat j ≤ extra)
                  then base + 1 else base) subset)).
Proof. apply scaleOut_shape. Qed.

(** ** The order of the records after the incremental path *)

Section Ascending.

Lemma Sorted_adjacent {A} (R : relation A) (l : list A) (i : nat) (a b : A) :
  Sorted R l → l !! i = Some a → l !! S i = Some b → R a b.
Proof.
  intros Hs. revert i. induction Hs as [|x l Hs IH Hhd]; intros i; [done|].
  destruct i as [|i]; cbn.
  - intros [= ->] Hb. destruct Hhd as [|y l' Hxy]; [done|].
    cbn in Hb. by injection Hb as <-.
  - apply IH.
Qed.

Lemma adjacent_Sorted {A} (R : relation A) (l : list A) :
  (∀ i a b, l !! i = Some a → l !! S i = Some b → R a b) → Sorted R l.
Proof.
  induction l as [|x l IH]; intros H; [constructor|].
  constructor.
  - apply IH. intros i a b Ha Hb. by apply (H (S i)).
  - destruct l as [|y l]; constructor. by apply (H 0%nat).
Qed.

Lemma notAfter_replicas (a b : nameToReplicas) :
  notAfter a b → Replicas a ≤ Replicas b.
Proof. rewrite notAfter_iff. lia. Qed.

(** Setting aside a record above the considered average does not raise
    the considered average of the others. *)
Lemma consideredAverage_set_aside (E r c : Z) :
  0 < c → 0 ≤ r → 0 ≤ E - r →
  consideredAverage E (c + 1) < r →
  consideredAverage (E - r) c ≤ r.
Proof.
  unfold consideredAverage. intros Hc Hr HE.
  pose proof (Z.quot_rem' E (c + 1)) as H1.
  pose proof (Z.rem_bound_pos E (c + 1) ltac:(lia) ltac:(lia)) as H2.
  pose proof (Z.quot_rem' (E - r) c) as H3.
  pose proof (Z.rem_bound_pos (E - r) c ltac:(lia) ltac:(lia)) as H4.
  assert (0 ≤ E `quot` (c + 1)) by (apply Z.quot_pos; lia).
  assert (0 ≤ (E - r) `quot` c) by (apply Z.quot_pos; lia).
  repeat case_decide; nia.
Qed.

(** Setting aside a record below the average does not lower the average
    of the others. *)
Lemma average_set_aside (E r c : Z) :
  0 < c → 0 ≤ r →
  r < Z.quot E (c + 1) → r ≤ Z.quot (E - r) c.
Proof.
  intros Hc Hr Hlt.
  assert (0 ≤ E) as HE.
  { destruct (Z.lt_ge_cases E 0) as [Hneg|]; [|done].
    pose proof (Z.quot_opp_l E (c + 1) ltac:(lia)) as Hopp.
    assert (0 ≤ (- E) `quot` (c + 1)) by (apply Z.quot_pos; lia). lia. }
  pose proof (Z.quot_rem' E (c + 1)) as H1.
  pose proof (Z.rem_bound_pos E (c + 1) ltac:(lia) ltac:(lia)) as H2.
  transitivity (Z.quot E (c + 1)); [lia|].
  apply Z.quot_le_lower_bound; [lia|]. nia.
Qed.

End Ascending.

(** X2.  On valid counts and records sorted by [Less], the incremental
    path returns records that are still ascending in their replicas,
    whether it scales out, scales in or changes nothing. *)
Theorem incrementalAllocate_ascending (s : replicasAllocator) (T : Z) :
  validTotal T → observedCounts (subsets s) →
  Sorted notAfter (subsets s) →
  ∃ allocated s',
    incrementalAllocate s T = Some (allocated, s') ∧
    Sorted (λ a b, Replicas a ≤ Replicas b) (subsets s').
Proof.
  intros HT Hobs Hsorted. set (n := subsets s) in *.
  assert (∀ i a b, n !! i = Some a → n !! S i = Some b →
                   Replicas a ≤ Replicas b) as Hadj.
  { intros i a b Ha Hb. apply notAfter_replicas.
    by apply (Sorted_adjacent notAfter n i). }
  pose proof Hobs as (Hnonneg & Hsum & Hlen).
  destruct (decide (n = [])) as [Hnil|Hne].
  { destruct s as [n0]. cbn in n. subst n. subst n0.
    rewrite incrementalAllocate_nil. eexists _, _. split; [done|]. constructor. }
  destruct (Z.lt_trichotomy (totalReplicas n) T) as [Hout|[Hsame|Hin]].
  - destruct (scaleOut_shape s T HT Hobs Hne Hout)
      as (allocated & s' & m & Hrun & Hlen' & Hm & Hafter & Hstop & Hextra
          & Hbelow).
    fold n in Hlen', Hm, Hafter, Hstop, Hextra, Hbelow.
    exists allocated, s'. split; [done|]. apply adjacent_Sorted.
    intros i a b Ha Hb.
    assert (is_Some (n !! i)) as [x Hx].
    { apply lookup_lt_is_Some. rewrite <- Hlen'.
      by apply lookup_lt_is_Some_1; eauto. }
    assert (is_Some (n !! S i)) as [y Hy].
    { apply lookup_lt_is_Some. rewrite <- Hlen'.
      by apply lookup_lt_is_Some_1; eauto. }
    destruct (decide (m ≤ i)%nat) as [Hi|Hi].
    { destruct (Hafter i x Hi Hx) as [_ Ha'].
      destruct (Hafter (S i) y ltac:(lia) Hy) as [_ Hb'].
      rewrite Ha' in Ha. rewrite Hb' in Hb.
      injection Ha as <-. injection Hb as <-. by apply (Hadj i). }
    rewrite (Hbelow i x ltac:(lia) Hx) in Ha. injection Ha as <-.
    destruct (decide (S i < m)%nat) as [Hi'|Hi'].
    { rewrite (Hbelow (S i) y Hi' Hy) in Hb. injection Hb as <-. cbn.
      repeat case_decide; lia. }
    assert (S i = m) as Him by lia.
    destruct (Hafter (S i) y ltac:(lia) Hy) as [Hgt Hb'].
    rewrite Hb' in Hb. injection Hb as <-. cbn.
    rewrite Him in Hgt, Hy.
    assert (0 ≤ totalReplicas (drop (S m) n)) as H0
      by (by apply totalReplicas_nonneg, Forall_drop).
    assert (0 ≤ totalReplicas (take m n)) as H1
      by (by apply totalReplicas_nonneg, Forall_take).
    assert (0 ≤ Replicas y) as Hy0
      by (by apply (Forall_lookup_1 _ _ _ _ Hnonneg Hy)).
    pose proof (totalReplicas_drop n m y Hy) as Hd.
    pose proof (totalReplicas_take_drop n m) as Htd.
    pose proof (consideredAverage_set_aside
                  (T - totalReplicas (drop (S m) n)) (Replicas y)
                  (Z.of_nat m) ltac:(lia) Hy0 ltac:(lia)) as Hle.
    replace (Z.of_nat m + 1) with (Z.of_nat (S m)) in Hle by lia.
    replace (Z.of_nat m + 1) with (Z.of_nat (S m)) in Hgt by lia.
    specialize (Hle Hgt).
    replace (T - totalReplicas (drop (S m) n) - Replicas y)
      with (T - totalReplicas (drop m n)) in Hle by lia.
    unfold consideredAverage in Hle.
    repeat case_decide; lia.
  - eexists _, _. split.
    { rewrite (incrementalAllocate_unfold s T HT Hobs). fold n.
      rewrite decide_False by lia. rewrite decide_False by lia. done. }
    cbn [subsets]. by apply adjacent_Sorted.
  - destruct (scaleIn_result n T HT Hobs Hin)
      as (v & b & n' & Hrun & Hb & Hrange & Hassign & Hlen' & _ & _ & Htake
          & _ & _ & Hextra & Hstop & Hbefore & Hafter).
    cbv zeta in Hextra, Hstop, Hafter.
    eexists _, {| subsets := n' |}. split.
    { rewrite (incrementalAllocate_unfold s T HT Hobs). fold n.
      rewrite decide_False by lia. rewrite decide_True by lia.
      rewrite Hrun. cbn [mbind option_bind]. rewrite Hassign. done. }
    cbn [subsets]. apply adjacent_Sorted. intros i x' y' Ha Hb'.
    assert (is_Some (n !! i)) as [x Hx].
    { apply lookup_lt_is_Some. rewrite <- Hlen'.
      by apply lookup_lt_is_Some_1; eauto. }
    assert (is_Some (n !! S i)) as [y Hy].
    { apply lookup_lt_is_Some. rewrite <- Hlen'.
      by apply lookup_lt_is_Some_1; eauto. }
    assert (∀ j, (j < b)%nat → n' !! j = n !! j) as Hkeep.
    { intros j Hj. apply (f_equal (.!! j)) in Htake.
      by rewrite !lookup_take_lt in Htake by done. }
    destruct (decide (b ≤ i)%nat) as [Hi|Hi].
    { rewrite (Hafter i x Hi Hx) in Ha.
      rewrite (Hafter (S i) y ltac:(lia) Hy) in Hb'.
      injection Ha as <-. injection Hb' as <-. cbn.
      repeat case_decide; lia. }
    rewrite (Hkeep i ltac:(lia)), Hx in Ha. injection Ha as <-.
    destruct (decide (S i < b)%nat) as [Hi'|Hi'].
    { rewrite (Hkeep (S i) Hi'), Hy in Hb'. injection Hb' as <-.
      by apply (Hadj i). }
    assert (S i = b) as Hib by lia.
    rewrite (Hafter (S i) y ltac:(lia) Hy) in Hb'. injection Hb' as <-. cbn.
    pose proof (Hbefore i x ltac:(lia) Hx) as Hlt.
    assert (0 ≤ Replicas x) as Hx0
      by (by apply (Forall_lookup_1 _ _ _ _ Hnonneg Hx)).
    pose proof (totalReplicas_take_S n i x Hx) as Hts. rewrite Hib in Hts.
    unfold Len in *.
    replace (Z.of_nat (length n) - Z.of_nat i)
      with (Z.of_nat (length n) - Z.of_nat b + 1) in Hlt by lia.
    pose proof (average_set_aside (T - totalReplicas (take i n)) (Replicas x)
                  (Z.of_nat (length n) - Z.of_nat b) ltac:(lia) Hx0 Hlt) as Hle.
    replace (T - totalReplicas (take i n) - Replicas x)
      with (T - totalReplicas (take b n)) in Hle by lia.
    rewrite <- Hib. rewrite <- Hib in Hle. repeat case_decide; lia.
Qed.

(** ** The allocation never panics on a specified map *)

Section NoPanic.

Lemma Int32_quo_rem_Some (a b : Z) :
  b ≠ 0 → is_Some (Int32.quo a b) ∧ is_Some (Int32.rem a b).
Proof.
  intros Hb. unfold Int32.quo, Int32.rem. rewrite !decide_False by done.
  split; eauto.
Qed.

Lemma scaleOutBoundary_returns (k : nat) (n : subsetInfos)
    (v : incrementalVars) :
  Len n ≤ Int32.max_int → (k ≤ length n)%nat →
  ∃ v', scaleOutBoundary n k v = Some v' ∧ -1 ≤ boundary v' < Z.of_nat k.
Proof.
  unfold Len. intros Hlen. revert v.
  induction k as [|k IH]; intros v Hk; cbn [scaleOutBoundary].
  { eexists. split; [done|]. cbn. lia. }
  rewrite (wrap_id (Z.of_nat k))
    by (unfold Int32.in_range, Int32.min_int; lia).
  rewrite add_exact by (unfold Int32.in_range, Int32.min_int; lia).
  destruct (Int32_quo_rem_Some (expectedReplicas v) (Z.of_nat k + 1)
              ltac:(lia)) as [[q ->] [r ->]].
  cbn [mbind option_bind]. rewrite Get_lookup.
  destruct (lookup_lt_is_Some_2 n k ltac:(lia)) as [x ->].
  cbn [mbind option_bind].
  case_decide.
  - edestruct IH as (v' & -> & ?); [lia|]. eexists. split; [done|lia].
  - eexists. split; [done|]. cbn. lia.
Qed.

Lemma scaleOutAssign_returns (k : nat) (n : subsetInfos) (avg rem : Z) :
  (k ≤ length n)%nat → is_Some (scaleOutAssign n k avg rem).
Proof.
  revert n rem. induction k as [|k IH]; intros n rem Hk; cbn [scaleOutAssign].
  { eauto. }
  rewrite Get_lookup. destruct (lookup_lt_is_Some_2 n k ltac:(lia)) as [x ->].
  cbn [mbind option_bind].
  case_decide; apply IH; rewrite length_insert; lia.
Qed.

Lemma scaleInBoundary_returns (todo : nat) (n : subsetInfos)
    (v : incrementalVars) (a : nat) :
  Len n ≤ Int32.max_int → boundary v = Z.of_nat a →
  (a + todo = length n)%nat →
  ∃ v' b, scaleInBoundary n (Len n) todo v = Some v' ∧
          boundary v' = Z.of_nat b ∧ (a ≤ b ≤ length n)%nat.
Proof.
  unfold Len. intros Hlen. revert v a.
  induction todo as [|todo IH]; intros v a Hb Hcount; cbn [scaleInBoundary].
  { exists v, a. split_and!; try done; lia. }
  rewrite Hb.
  rewrite (wrap_id (Z.of_nat (length n) - Z.of_nat a))
    by (unfold Int32.in_range, Int32.min_int; lia).
  destruct (Int32_quo_rem_Some (expectedReplicas v)
              (Z.of_nat (length n) - Z.of_nat a) ltac:(lia))
    as [[q ->] [r ->]].
  cbn [mbind option_bind]. rewrite Get_lookup.
  destruct (lookup_lt_is_Some_2 n a ltac:(lia)) as [x ->].
  cbn [mbind option_bind].
  case_decide.
  - match goal with
    | |- context [scaleInBoundary n _ todo ?v1] =>
        destruct (IH v1 (S a) ltac:(cbn; lia) ltac:(lia))
          as (v' & b & -> & ? & ?)
    end.
    exists v', b. split_and!; try done; lia.
  - eexists _, a. split_and!; try done; lia.
Qed.

Lemma scaleInAssign_returns (todo : nat) (n : subsetInfos) (a : nat)
    (avg rem left : Z) :
  (a + todo = length n)%nat →
  is_Some (scaleInAssign n (Z.of_nat a) todo avg rem left).
Proof.
  revert n a left.
  induction todo as [|todo IH]; intros n a left Hcount; cbn [scaleInAssign].
  { eauto. }
  rewrite Get_lookup. destruct (lookup_lt_is_Some_2 n a ltac:(lia)) as [x ->].
  cbn [mbind option_bind].
  replace (Z.of_nat a + 1) with (Z.of_nat (S a)) by lia.
  case_decide; apply IH; rewrite length_insert; lia.
Qed.

Lemma incrementalAllocate_returns (s : replicasAllocator) (T : Z) :
  Len (subsets s) ≤ Int32.max_int → is_Some (incrementalAllocate s T).
Proof.
  intros Hlen. unfold incrementalAllocate. cbv zeta.
  assert (Z.to_nat (Len (subsets s)) = length (subsets s)) as ->
    by (unfold Len; lia).
  case_decide.
  { destruct (scaleOutBoundary_returns (length (subsets s)) (subsets s)
                (declaredVars T) Hlen ltac:(lia)) as (v & -> & Hb).
    cbn [mbind option_bind].
    destruct (scaleOutAssign_returns (Z.to_nat (boundary v + 1)) (subsets s)
                (average v) (reminder v) ltac:(lia)) as [n' ->].
    done. }
  case_decide; [|done].
  destruct (scaleInBoundary_returns (length (subsets s)) (subsets s)
              (declaredVars T) 0 Hlen eq_refl eq_refl)
    as (v & b & -> & Hb & Hrange).
  cbn [mbind option_bind]. rewrite Hb.
  replace (Z.to_nat (Len (subsets s) - Z.of_nat b))
    with (length (subsets s) - b)%nat by (unfold Len; lia).
  destruct (scaleInAssign_returns (length (subsets s) - b) (subsets s) b
              (average v) (reminder v) (leftSubsetsCount v) ltac:(lia))
    as [n' ->].
  done.
Qed.

Lemma specifiedOf_returns {IntOrString : Type}
    (ParseSubsetReplicas : Z → IntOrString → option Z) (T : Z)
    (defs : list (SubsetDef IntOrString)) (acc : gmap string Z) :
  is_Some (specifiedOf ParseSubsetReplicas (Some T) defs acc).
Proof.
  revert acc. induction defs as [|d defs IH]; intros acc; cbn [specifiedOf].
  { eauto. }
  destruct (SubsetDefReplicas d); [|done]. cbn [mbind option_bind].
  by destruct (ParseSubsetReplicas T i).
Qed.

End NoPanic.

(** X3.  With fewer than 2^31 records the allocator does not panic on a
    specified map that is not nil, whatever the total and the counts are,
    negative and overflowing ones included: no division by zero and no
    index outside the slice.  The incremental path returns, the normal
    path returns, and so does [AllocateReplicas]. *)
Theorem AllocateReplicas_returns `{rt : GoRuntime}
    (s : replicasAllocator) (T : Z) (S : gmap string Z) :
  Len (subsets s) ≤ Int32.max_int →
  is_Some (AllocateReplicas s T (Some S)) ∧
  is_Some (incrementalAllocate s T) ∧
  is_Some (normalAllocate s T (Some S)).
Proof.
  intros Hlen.
  destruct (incrementalAllocate_returns s T Hlen) as [[m s'] Hinc].
  destruct (normalAllocate_records s T S) as (n2 & Hnorm & _).
  split_and!; [|by rewrite Hinc|by rewrite Hnorm].
  unfold AllocateReplicas.
  destruct (effectiveReplicas s T (Some S)) as [[|] reason]; cbn [negb].
  - by rewrite Hnorm.
  - by rewrite Hinc.
Qed.

(** ** What an allocation returns *)

Section Returned.

Lemma incrementalAllocate_map (s s' : replicasAllocator) (T : Z)
    (allocated : gmap string Z) :
  incrementalAllocate s T = Some (allocated, s') →
  allocated = toSubsetReplicaMap s'.
Proof.
  unfold incrementalAllocate. cbv zeta.
  match goal with
  | |- context [mbind _ ?x] => destruct x as [n'|]; [|done]
  end.
  cbn [mbind option_bind]. by intros [= <- <-].
Qed.

(** The mapping is the one of the records left behind, which keep their
    names in place, and the feasibility answer is that of the check. *)
Lemma AllocateReplicas_result `{rt : GoRuntime} (s s' : replicasAllocator)
    (T : Z) (S : gmap string Z) (allocated : gmap string Z)
    (effective : bool) (reason : string) :
  AllocateReplicas s T (Some S) = Some (allocated, effective, reason, s') →
  allocated = toSubsetReplicaMap s' ∧
  SubsetName <$> subsets s' = SubsetName <$> subsets s ∧
  effective = fst (effectiveReplicas s T (Some S)).
Proof.
  unfold AllocateReplicas.
  destruct (effectiveReplicas s T (Some S)) as [[|] why]; cbn [negb fst].
  - destruct (normalAllocate_records s T S) as (n2 & -> & _ & Hnames & _).
    cbn [mbind option_bind]. by intros [= <- <- <- <-].
  - destruct (incrementalAllocate s T) as [[m s1]|] eqn:Hrun; [|done].
    cbn [mbind option_bind]. intros [= <- <- <- <-].
    split; [by apply incrementalAllocate_map in Hrun|].
    split; [|done]. by apply (incrementalAllocate_frame SubsetName) in Hrun.
Qed.

Lemma toSubsetReplicaMap_dom (n : subsetInfos) :
  dom (toSubsetReplicaMap {| subsets := n |})
  = list_to_set (SubsetName <$> n).
Proof.
  rewrite toSubsetReplicaMap_entries, dom_list_to_map_L.
  rewrite fmap_reverse, entryOf_names.
  apply set_eq. intros x. by rewrite !elem_of_list_to_set, elem_of_reverse.
Qed.

End Returned.

(** X4.  Whatever [GetAllocatedReplicas] returns, the keys of the mapping
    are the subset names of the topology, no more and no fewer, and with
    unique names the mapping has one entry for each subset. *)
Theorem GetAllocatedReplicas_keys `{rt : GoRuntime} {IntOrString : Type}
    (ParseSubsetReplicas : Z → IntOrString → option Z)
    (nameToSubset : gmap string Subset) (ud : UnitedDeployment IntOrString)
    (allocated : gmap string Z) (effective : bool) (reason : string)
    (s' : replicasAllocator) :
  GetAllocatedReplicas ParseSubsetReplicas nameToSubset ud
  = Some (allocated, effective, reason, s') →
  dom allocated = list_to_set (Name <$> TopologySubsets ud) ∧
  (NoDup (Name <$> TopologySubsets ud) →
   size allocated = length (TopologySubsets ud)).
Proof.
  unfold GetAllocatedReplicas.
  destruct (getSpecifiedSubsetReplicas _ _) as [S|]; [|done].
  destruct (SpecReplicas ud) as [T|]; [|done]. cbn [mbind option_bind].
  intros Hrun.
  assert (allocated = toSubsetReplicaMap s' ∧
          SubsetName <$> subsets s'
          = SubsetName <$> subsets (SortToAllocator
                                      (getSubsetInfos nameToSubset ud)))
    as [-> Hnames].
  { apply AllocateReplicas_result in Hrun as (? & ? & _). done. }
  assert (SubsetName <$> subsets s' ≡ₚ Name <$> TopologySubsets ud) as Hperm.
  { rewrite Hnames. unfold SortToAllocator. cbn [subsets].
    by rewrite sort_Sort_perm, getSubsetInfos_names. }
  destruct s' as [n']. cbn [subsets] in *. split.
  - rewrite toSubsetReplicaMap_dom. apply set_eq. intros x.
    by rewrite !elem_of_list_to_set, Hperm.
  - intros Hnd. rewrite <- size_dom, toSubsetReplicaMap_dom.
    rewrite size_list_to_set by (by rewrite Hperm).
    by rewrite Hperm, length_fmap.
Qed.

(** X5.  A nil specified map passes the feasibility check and the normal
    path then dereferences it in its first loop: [AllocateReplicas] panics
    as soon as there is a record, and returns the empty mapping, feasible,
    when there is none. *)
Theorem AllocateReplicas_nil_map_panics `{rt : GoRuntime}
    (s : replicasAllocator) (T : Z) :
  (subsets s ≠ [] → AllocateReplicas s T None = None) ∧
  (subsets s = [] →
   AllocateReplicas s T None = Some (∅, true, ""%string, s)).
Proof.
  unfold AllocateReplicas, effectiveReplicas. cbn [negb].
  unfold normalAllocate. destruct s as [[|x n]]; cbn [subsets]; split; done.
Qed.

(** ** The specified map derived from the topology *)

Section Specified.

Context {IntOrString : Type}.
Variable ParseSubsetReplicas : Z → IntOrString → option Z.

Lemma specifiedOf_lookup (T : Z) (defs : list (SubsetDef IntOrString))
    (acc m : gmap string Z) :
  NoDup (Name <$> defs) →
  Forall (λ subsetDef, acc !! Name subsetDef = None) defs →
  specifiedOf ParseSubsetReplicas (Some T) defs acc = Some m →
  ∀ name v,
    m !! name = Some v ↔
    acc !! name = Some v ∨
    ∃ subsetDef spec,
      subsetDef ∈ defs ∧ Name subsetDef = name ∧
      SubsetDefReplicas subsetDef = Some spec ∧
      ParseSubsetReplicas T spec = Some v.
Proof.
  revert acc. induction defs as [|d defs IH]; intros acc Hnd Hfree;
    cbn [specifiedOf].
  { intros [= <-] name v. split; [by left|].
    intros [?|(? & ? & ?%elem_of_nil & _)]; done. }
  rewrite fmap_cons in Hnd. apply NoDup_cons in Hnd as [Hd Hnd].
  apply Forall_cons in Hfree as [Hfd Hfree].
  assert (∀ w, Forall (λ subsetDef, <[Name d := w]> acc !! Name subsetDef = None)
                 defs) as Hfree'.
  { intros w. apply Forall_forall. intros e He.
    rewrite lookup_insert_ne.
    - rewrite Forall_forall in Hfree. by apply Hfree.
    - intros Heq. apply Hd. rewrite Heq. apply list_elem_of_fmap. eauto. }
  destruct (SubsetDefReplicas d) as [spec|] eqn:Hspec.
  - cbn [mbind option_bind].
    destruct (ParseSubsetReplicas T spec) as [w|] eqn:Hw.
    + intros Hrun name v. rewrite (IH _ Hnd (Hfree' w) Hrun name v).
      rewrite lookup_insert. split.
      * intros [Hl|(e & sp & He & ? & ? & ?)].
        -- case_decide as Hn; [|by left]. injection Hl as <-. subst name.
           right. exists d, spec. split_and!; try done. apply list_elem_of_here.
        -- right. exists e, sp. split_and!; try done.
           by apply list_elem_of_further.
      * intros [Hl|(e & sp & He & Hn & Hsp & Hp)].
        -- left. case_decide as Hn; [congruence|done].
        -- apply elem_of_cons in He as [->|He].
           ++ left. rewrite decide_True by done. congruence.
           ++ right. eauto 10.
    + intros Hrun name v. rewrite (IH _ Hnd Hfree Hrun name v). split.
      * intros [?|(e & sp & He & ? & ? & ?)]; [by left|].
        right. exists e, sp. split_and!; try done.
        by apply list_elem_of_further.
      * intros [?|(e & sp & He & Hn & Hsp & Hp)]; [by left|].
        apply elem_of_cons in He as [->|He]; [congruence|]. right. eauto 10.
  - intros Hrun name v. rewrite (IH _ Hnd Hfree Hrun name v). split.
    + intros [?|(e & sp & He & ? & ? & ?)]; [by left|].
      right. exists e, sp. split_and!; try done.
      by apply list_elem_of_further.
    + intros [?|(e & sp & He & Hn & Hsp & Hp)]; [by left|].
      apply elem_of_cons in He as [->|He]; [congruence|]. right. eauto 10.
Qed.

End Specified.

(** X6.  With unique names in the topology, the specified map that
    [getSpecifiedSubsetReplicas] derives holds a count for a name exactly
    when the subset of that name carries a replica specification that the
    parser accepts, and the count is the parser's answer: a subset without
    specification, or whose specification fails to parse, is left out, and
    the failure does not stop the others. *)
Theorem getSpecifiedSubsetReplicas_entries {IntOrString : Type}
    (ParseSubsetReplicas : Z → IntOrString → option Z)
    (ud : UnitedDeployment IntOrString) (T : Z) :
  NoDup (Name <$> TopologySubsets ud) → SpecReplicas ud = Some T →
  ∃ S,
    getSpecifiedSubsetReplicas ParseSubsetReplicas ud = Some S ∧
    ∀ name v,
      S !! name = Some v ↔
      ∃ subsetDef spec,
        subsetDef ∈ TopologySubsets ud ∧ Name subsetDef = name ∧
        SubsetDefReplicas subsetDef = Some spec ∧
        ParseSubsetReplicas T spec = Some v.
Proof.
  intros Hnd HT. unfold getSpecifiedSubsetReplicas. rewrite HT.
  destruct (specifiedOf_returns ParseSubsetReplicas T (TopologySubsets ud) ∅)
    as [S HS].
  exists S. split; [done|]. intros name v.
  rewrite (specifiedOf_lookup ParseSubsetReplicas T _ ∅ S Hnd
             ltac:(by apply Forall_true) HS name v).
  rewrite lookup_empty. split; [|by right]. by intros [?|?].
Qed.

(** X7.  The feasibility check on any specified map, overflow included: it
    compares the sum of the specified counts as the [int32] accumulator
    holds it, that is reduced modulo 2^32.  When that sum exceeds the total
    the reason says "greater", when it is below the total and every record
    is specified the reason says "less", both with the sum and the total in
    decimal; otherwise the answer is feasible, and the reason is empty
    exactly then. *)
Theorem effectiveReplicas_outcome `{rt : GoRuntime}
    (s : replicasAllocator) (T : Z) (S : gmap string Z) :
  let Σ := Int32.wrap (mapTotal S) in
  let greater :=
    ("Specified subsets' replica (" ++ formatInt Σ
       ++ ") is greater than UnitedDeployment replica ("
       ++ formatInt T ++ ")")%string in
  let less :=
    ("Specified subsets' replica (" ++ formatInt Σ
       ++ ") is less than UnitedDeployment replica ("
       ++ formatInt T ++ ")")%string in
  effectiveReplicas s T (Some S)
  = (if decide (Σ > T) then (false, greater)
     else if decide (Σ < T ∧ pinnedCount S (subsets s) = length (subsets s))
          then (false, less)
          else (true, ""%string)) ∧
  (fst (effectiveReplicas s T (Some S)) = true
   ↔ snd (effectiveReplicas s T (Some S)) = ""%string).
Proof.
  intros Σ greater less.
  assert (effectiveReplicas s T (Some S)
          = (if decide (Σ > T) then (false, greater)
             else if decide (Σ < T ∧ pinnedCount S (subsets s)
                                     = length (subsets s))
                  then (false, less)
                  else (true, ""%string))) as Heq.
  { unfold effectiveReplicas. rewrite sumLimits_rangeOver. fold Σ.
    rewrite countSpecified_filter. unfold Len.
    destruct (decide (Σ > T)); [done|].
    destruct (decide (Σ < T)).
    - destruct (decide (0 + Z.of_nat (pinnedCount S (subsets s))
                        = Z.of_nat (length (subsets s)))).
      + rewrite decide_True by (split; [done|lia]). done.
      + rewrite decide_False by (intros [_ ?]; lia). done.
    - rewrite decide_False by (intros [? _]; done). done. }
  split; [done|]. rewrite Heq.
  destruct (decide (Σ > T)); [done|].
  destruct (decide (Σ < T ∧ _)); done.
Qed.

(** X8.  Allocating again on the records that the incremental path left,
    for the same total, changes nothing: the second run returns the same
    mapping and the same records. *)
Theorem incrementalAllocate_idempotent (s s' : replicasAllocator) (T : Z)
    (allocated : gmap string Z) :
  validTotal T → observedCounts (subsets s) →
  incrementalAllocate s T = Some (allocated, s') →
  incrementalAllocate s' T = Some (allocated, s').
Proof.
  intros HT Hobs Hrun.
  destruct (decide (subsets s = [])) as [Hnil|Hne].
  { destruct s as [n]. cbn in Hnil. subst n.
    rewrite incrementalAllocate_nil in Hrun. injection Hrun as <- <-.
    apply incrementalAllocate_nil. }
  destruct (incrementalAllocate_total s T HT Hobs Hne)
    as (n' & Hrun' & _ & Htotal & _).
  rewrite Hrun in Hrun'. injection Hrun' as -> ->.
  unfold incrementalAllocate. cbv zeta. cbn [subsets].
  assert (Int32.sub T (sumCurrent n') = 0) as ->.
  { rewrite sumCurrent_wrap. unfold Int32.sub. rewrite wrap_sub_r, Htotal.
    by rewrite Z.sub_diag. }
  rewrite decide_False by lia. by rewrite decide_False by lia.
Qed.

(** ** The debug string *)

(** X9.  [String] sorts the records in place and prints them: afterwards
    the allocator holds the same records in sorted order, with unique names
    the mapping read from it is the one before the call, and a second call
    prints the same string and leaves the records as they are. *)
Theorem allocatorString_stable `{rt : GoRuntime} (s : replicasAllocator) :
  NoDup (SubsetName <$> subsets s) →
  let s1 := snd (allocatorString s) in
  subsets s1 ≡ₚ subsets s ∧
  Sorted notAfter (subsets s1) ∧
  toSubsetReplicaMap s1 = toSubsetReplicaMap s ∧
  allocatorString s1 = allocatorString s.
Proof.
  intros Hnd s1. subst s1. unfold allocatorString. cbn [snd subsets].
  pose proof (sort_Sort_perm (subsets s)) as Hperm.
  pose proof (sort_Sort_sorted (subsets s)) as Hsorted.
  assert (NoDup (SubsetName <$> sort_Sort (subsets s))) as Hnd'
    by (by rewrite Hperm).
  split; [done|]. split; [done|]. split.
  - destruct s as [n]. cbn [subsets] in *. apply map_eq. intros name.
    apply option_eq. intros v.
    rewrite !toSubsetReplicaMap_lookup by done.
    by setoid_rewrite Hperm.
  - assert (sort_Sort (sort_Sort (subsets s)) = sort_Sort (subsets s)) as ->;
      [|done].
    apply (sorted_unique (subsets s)); try done.
    + by rewrite sort_Sort_perm.
    + apply sort_Sort_sorted.
Qed.

(** X10.  [toSubsetReplicaMap] writes the records in order, so a name that
    several records carry is mapped to the replicas of the last of them; a
    name is a key of the mapping exactly when some record carries it. *)
Theorem toSubsetReplicaMap_last (before after : subsetInfos)
    (subset : nameToReplicas) :
  SubsetName subset ∉ SubsetName <$> after →
  let m := toSubsetReplicaMap {| subsets := before ++ subset :: after |} in
  m !! SubsetName subset = Some (Replicas subset) ∧
  ∀ name, is_Some (m !! name)
          ↔ name ∈ SubsetName <$> (before ++ subset :: after).
Proof.
  intros Hlast m. subst m. split.
  - rewrite toSubsetReplicaMap_entries.
    rewrite fmap_app, fmap_cons, reverse_app, reverse_cons.
    rewrite <- (assoc_L (++)), list_to_map_app.
    rewrite lookup_union_r.
    + cbn. apply lookup_insert_eq.
    + apply not_elem_of_list_to_map.
      by rewrite fmap_reverse, entryOf_names, elem_of_reverse.
  - intros name. rewrite <- elem_of_dom, toSubsetReplicaMap_dom.
    by rewrite elem_of_list_to_set.
Qed.

(** ** The slice as [sort.Interface] *)

Section SortInterface.

Lemma delete_insert_same {A} (l : list A) (i : nat) (y : A) :
  delete i (<[i := y]> l) = delete i l.
Proof.
  revert i. induction l as [|x l IH]; intros [|i]; cbn; try done.
  by rewrite IH.
Qed.

Lemma insert_Permutation_cons {A} (l : list A) (i : nat) (x y : A) :
  l !! i = Some x → <[i := y]> l ≡ₚ y :: delete i l.
Proof.
  intros Hi.
  rewrite (delete_Permutation (<[i := y]> l) i y), delete_insert_same; [done|].
  apply list_lookup_insert_eq. by apply lookup_lt_Some in Hi.
Qed.

Lemma swap_Permutation {A} (l : list A) (a b : nat) (x y : A) :
  l !! a = Some x → l !! b = Some y →
  <[b := x]> (<[a := y]> l) ≡ₚ l.
Proof.
  intros Ha Hb. destruct (decide (a = b)) as [->|Hne].
  - rewrite list_insert_insert_eq. by rewrite list_insert_id.
  - assert (<[a := y]> l !! b = Some y) as Hb'
      by (by rewrite list_lookup_insert_ne).
    rewrite (insert_Permutation_cons _ b y x Hb').
    assert (delete b (<[a := y]> l) ≡ₚ delete a l) as ->.
    { apply (Permutation_cons_inv (a := y)).
      rewrite <- (delete_Permutation _ b y Hb').
      by apply insert_Permutation_cons with x. }
    symmetry. by apply delete_Permutation.
Qed.

Lemma Get_Some_iff (n : subsetInfos) (i : Z) :
  is_Some (Get n i) ↔ 0 ≤ i < Len n.
Proof.
  unfold Get, Len. case_decide.
  - rewrite lookup_lt_is_Some. lia.
  - split; [by intros [? ?]|lia].
Qed.

End SortInterface.

(** X11.  [Swap] on two indices of the slice exchanges the two records
    and leaves the others: the result is a permutation of the slice, and
    swapping again restores it.  [Swap] and [Less] panic exactly when an
    index is outside the slice. *)
Theorem Swap_exchanges (n : subsetInfos) (i j : Z) :
  (0 ≤ i < Len n ∧ 0 ≤ j < Len n →
   ∃ n', Swap n i j = Some n' ∧
         n' ≡ₚ n ∧ Len n' = Len n ∧
         Get n' i = Get n j ∧ Get n' j = Get n i ∧
         (∀ k, k ≠ i → k ≠ j → Get n' k = Get n k) ∧
         Swap n' i j = Some n) ∧
  (Swap n i j = None ↔ ¬ (0 ≤ i < Len n ∧ 0 ≤ j < Len n)) ∧
  (Less n i j = None ↔ ¬ (0 ≤ i < Len n ∧ 0 ≤ j < Len n)).
Proof.
  assert (∀ m : subsetInfos, ∀ a b : Z,
            0 ≤ a < Len m → 0 ≤ b < Len m →
            ∃ x y, Get m a = Some x ∧ Get m b = Some y ∧
                   m !! Z.to_nat a = Some x ∧ m !! Z.to_nat b = Some y ∧
                   Swap m a b
                   = Some (<[Z.to_nat b := x]> (<[Z.to_nat a := y]> m)))
    as Hswap.
  { intros m a b Ha Hb.
    destruct (proj2 (Get_Some_iff m a) Ha) as [x Hx].
    destruct (proj2 (Get_Some_iff m b) Hb) as [y Hy].
    exists x, y. unfold Swap. rewrite Hx, Hy.
    split_and!; try done; by apply Get_Some. }
  split_and!.
  - intros [Hi Hj].
    destruct (Hswap n i j Hi Hj) as (x & y & Hx & Hy & Hx' & Hy' & Hrun).
    set (n' := <[Z.to_nat j := x]> (<[Z.to_nat i := y]> n)) in *.
    assert (length n' = length n) as Hlen
      by (subst n'; by rewrite !length_insert).
    assert (Get n' j = Some x) as Hj'.
    { unfold Get. rewrite decide_True by lia. subst n'.
      apply list_lookup_insert_eq. rewrite length_insert.
      unfold Len in *. lia. }
    assert (Get n' i = Some y) as Hi'.
    { unfold Get. rewrite decide_True by lia. subst n'.
      destruct (decide (Z.to_nat j = Z.to_nat i)) as [Heq|Hne].
      - rewrite Heq. rewrite list_lookup_insert_eq
          by (rewrite length_insert; unfold Len in *; lia).
        rewrite Heq in Hy'. congruence.
      - rewrite list_lookup_insert_ne by done.
        apply list_lookup_insert_eq. unfold Len in *. lia. }
    exists n'. split; [done|]. split; [by apply swap_Permutation|].
    split; [unfold Len; by rewrite Hlen|].
    split; [congruence|]. split; [congruence|]. split.
    + intros k Hki Hkj. unfold Get. case_decide; [|done]. subst n'.
      rewrite !list_lookup_insert_ne by lia. done.
    + unfold Swap. rewrite Hi', Hj'. cbn [mbind option_bind]. f_equal.
      subst n'. apply list_eq. intros k.
      destruct (decide (k = Z.to_nat j)) as [->|Hkj].
      { rewrite list_lookup_insert_eq by (by rewrite !length_insert;
          unfold Len in *; lia). done. }
      rewrite list_lookup_insert_ne by done.
      destruct (decide (k = Z.to_nat i)) as [->|Hki].
      { rewrite list_lookup_insert_eq by (by rewrite !length_insert;
          unfold Len in *; lia). done. }
      by rewrite !list_lookup_insert_ne by done.
  - rewrite <- (Get_Some_iff n i), <- (Get_Some_iff n j). unfold Swap.
    destruct (Get n i) as [x|], (Get n j) as [y|]; cbn [mbind option_bind];
      split; try done.
    + intros H. exfalso. apply H. split; eauto.
    + by intros _ [_ [? ?]].
    + by intros _ [[? ?] _].
    + by intros _ [[? ?] _].
  - rewrite <- (Get_Some_iff n i), <- (Get_Some_iff n j). unfold Less.
    destruct (Get n i) as [x|], (Get n j) as [y|]; cbn [mbind option_bind];
      split; try done.
    + intros H. exfalso. apply H. split; eauto.
    + by intros _ [_ [? ?]].
    + by intros _ [[? ?] _].
    + by intros _ [[? ?] _].
Qed.

(** X12.  [Less] is a strict order on the indices of a slice, as
    [sort.Sort] requires of it: no index is less than itself, no two are
    less than each other, and less than carries through a middle index.
    When the names are unique it also decides every pair of different
    indices, so that the order is total and the sorted arrangement is the
    only one. *)
Theorem Less_strict_order (n : subsetInfos) :
  (∀ i, 0 ≤ i < Len n → Less n i i = Some false) ∧
  (∀ i j, Less n i j = Some true → Less n j i = Some false) ∧
  (∀ i j k, Less n i j = Some true → Less n j k = Some true →
            Less n i k = Some true) ∧
  (NoDup (SubsetName <$> n) →
   ∀ i j, 0 ≤ i < Len n → 0 ≤ j < Len n → i ≠ j →
          Less n i j = Some true ∨ Less n j i = Some true).
Proof.
  unfold Less. split_and!.
  - intros i Hi. apply Get_Some_iff in Hi as [a ->].
    cbn [mbind option_bind]. by rewrite lessRecord_irrefl.
  - intros i j. destruct (Get n i) as [a|]; [|done].
    destruct (Get n j) as [b|]; [|done]. cbn [mbind option_bind].
    intros [= Hab]. by rewrite lessRecord_asym.
  - intros i j k. destruct (Get n i) as [a|]; [|done].
    destruct (Get n j) as [b|]; [|done]. cbn [mbind option_bind].
    destruct (Get n k) as [c|]; [|done]. cbn [mbind option_bind].
    intros [= Hab] [= Hbc]. by rewrite (lessRecord_trans a b c).
  - intros Hnd i j Hi Hj Hne.
    destruct (proj2 (Get_Some_iff n i) Hi) as [a Ha].
    destruct (proj2 (Get_Some_iff n j) Hj) as [b Hb].
    rewrite Ha, Hb. cbn [mbind option_bind].
    destruct (lessRecord_connex a b) as [->| ->]; auto.
    intros Hname. apply Get_Some in Ha, Hb.
    assert ((SubsetName <$> n) !! Z.to_nat i = Some (SubsetName a)) as Hia
      by (by rewrite list_lookup_fmap, Ha).
    assert ((SubsetName <$> n) !! Z.to_nat j = Some (SubsetName b)) as Hjb
      by (by rewrite list_lookup_fmap, Hb).
    rewrite <- Hname in Hjb.
    pose proof (NoDup_lookup _ _ _ _ Hnd Hia Hjb). lia.
Qed.

(** ** Allocating again on the allocated counts *)

Section Again.

Lemma pinnedCount_by_names (S : gmap string Z) (n : subsetInfos) :
  pinnedCount S n
  = length (filter (λ name, is_Some (S !! name)) (SubsetName <$> n)).
Proof.
  unfold pinnedCount. induction n as [|x n IH]; [done|].
  rewrite fmap_cons, !filter_cons.
  destruct (decide (is_Some (S !! SubsetName x))); cbn [length]; by rewrite IH.
Qed.

Lemma pinnedCount_perm (S : gmap string Z) (n1 n2 : subsetInfos) :
  SubsetName <$> n1 ≡ₚ SubsetName <$> n2 →
  pinnedCount S n1 = pinnedCount S n2.
Proof. intros H. by rewrite !pinnedCount_by_names, H. Qed.

Lemma effectiveReplicas_names `{rt : GoRuntime} (s1 s2 : replicasAllocator)
    (T : Z) (S : gmap string Z) :
  SubsetName <$> subsets s1 ≡ₚ SubsetName <$> subsets s2 →
  effectiveReplicas s1 T (Some S) = effectiveReplicas s2 T (Some S).
Proof.
  intros H. unfold effectiveReplicas.
  rewrite !countSpecified_filter, (pinnedCount_perm S _ _ H). unfold Len.
  assert (length (subsets s1) = length (subsets s2)) as ->; [|done].
  rewrite <- (length_fmap SubsetName (subsets s1)).
  rewrite <- (length_fmap SubsetName (subsets s2)).
  by apply Permutation_length.
Qed.

Lemma toSubsetReplicaMap_perm (n1 n2 : subsetInfos) :
  NoDup (SubsetName <$> n1) → entryOf <$> n1 ≡ₚ entryOf <$> n2 →
  toSubsetReplicaMap {| subsets := n1 |} = toSubsetReplicaMap {| subsets := n2 |}.
Proof.
  intros Hnd Hperm.
  assert (NoDup (SubsetName <$> n2)) as Hnd2.
  { rewrite <- entryOf_names, <- Hperm, entryOf_names. done. }
  assert (∀ (n : subsetInfos) name v,
            (∃ subset, subset ∈ n ∧ SubsetName subset = name
                       ∧ Replicas subset = v)
            ↔ (name, v) ∈ entryOf <$> n) as Hin.
  { intros n name v. rewrite list_elem_of_fmap. unfold entryOf. split.
    - intros (x & ? & <- & <-). eauto.
    - intros (x & [= -> ->] & ?). eauto. }
  apply map_eq. intros name. apply option_eq. intros v.
  rewrite !toSubsetReplicaMap_lookup by done.
  by rewrite !Hin, Hperm.
Qed.

Lemma entryOf_setSpecified (b : bool) (n : subsetInfos) :
  entryOf <$> (setSpecified b <$> n) = entryOf <$> n.
Proof. rewrite <- list_fmap_compose. by apply list_fmap_ext. Qed.

Lemma totalReplicas_entries (n1 n2 : subsetInfos) :
  entryOf <$> n1 ≡ₚ entryOf <$> n2 → totalReplicas n1 = totalReplicas n2.
Proof.
  intros H. unfold totalReplicas. by rewrite <- !entryOf_replicas, H.
Qed.

(** The incremental path, run again on the counts it returned. *)
Lemma incrementalAllocate_again (s : replicasAllocator) (T : Z)
    (allocated : gmap string Z) (n1 a : subsetInfos) :
  validTotal T → observedCounts (subsets s) →
  NoDup (SubsetName <$> subsets s) →
  incrementalAllocate s T = Some (allocated, {| subsets := n1 |}) →
  a ≡ₚ setSpecified false <$> n1 →
  incrementalAllocate {| subsets := a |} T
  = Some (allocated, {| subsets := a |}).
Proof.
  intros HT Hobs Hnd Hrun Ha.
  assert (entryOf <$> a ≡ₚ entryOf <$> n1) as Hentries
    by (by rewrite Ha, entryOf_setSpecified).
  destruct (decide (subsets s = [])) as [Hnil|Hne].
  { destruct s as [n]. cbn in Hnil. subst n.
    rewrite incrementalAllocate_nil in Hrun. injection Hrun as <- <-.
    rewrite fmap_nil in Ha. apply Permutation_nil_r in Ha as ->.
    apply incrementalAllocate_nil. }
  destruct (incrementalAllocate_total s T HT Hobs Hne)
    as (n' & Hrun' & Hnames & Htotal & _).
  rewrite Hrun in Hrun'. injection Hrun' as -> <-.
  unfold incrementalAllocate. cbv zeta. cbn [subsets].
  assert (Int32.sub T (sumCurrent a) = 0) as ->.
  { rewrite sumCurrent_wrap. unfold Int32.sub.
    rewrite wrap_sub_r, (totalReplicas_entries a n1 Hentries), Htotal.
    by rewrite Z.sub_diag. }
  rewrite decide_False by lia. rewrite decide_False by lia.
  cbn [mbind option_bind]. do 2 f_equal.
  symmetry. apply toSubsetReplicaMap_perm; [by rewrite Hnames|done].
Qed.

Lemma unpinned_freeOf (S : gmap string Z) (n : subsetInfos) :
  markedBy (λ name, bool_decide (is_Some (S !! name))) n →
  unpinned n = freeOf S n.
Proof.
  unfold markedBy, unpinned, freeOf.
  induction 1 as [|x n Hx Hn IH]; [done|].
  rewrite !filter_cons, IH.
  destruct (S !! SubsetName x) as [v|] eqn:E.
  - rewrite bool_decide_eq_true_2 in Hx by eauto.
    rewrite decide_False by congruence. by rewrite decide_False by done.
  - rewrite bool_decide_eq_false_2 in Hx by (by intros [? ?]).
    rewrite decide_True by done. by rewrite decide_True by done.
Qed.

Lemma freeOf_replicas_setSpecified (S : gmap string Z) (b : bool)
    (n : subsetInfos) :
  Replicas <$> freeOf S (setSpecified b <$> n) = Replicas <$> freeOf S n.
Proof.
  unfold freeOf. induction n as [|x n IH]; [done|].
  rewrite fmap_cons, !filter_cons. cbn [SubsetName setSpecified].
  case_decide; [|done]. rewrite !fmap_cons, IH. done.
Qed.

Lemma freeOf_reverse (S : gmap string Z) (n : subsetInfos) :
  freeOf S (reverse n) = reverse (freeOf S n).
Proof. apply filter_reverse. Qed.

(** Two slices with the same names in place and the same counts on the
    names without specified count agree on these records one by one. *)
Lemma freeOf_position (S : gmap string Z) (n1 n2 : subsetInfos) :
  SubsetName <$> n1 = SubsetName <$> n2 →
  Replicas <$> freeOf S n1 = Replicas <$> freeOf S n2 →
  ∀ j x y, n1 !! j = Some x → n2 !! j = Some y →
           S !! SubsetName x = None → Replicas x = Replicas y.
Proof.
  unfold freeOf. revert n2.
  induction n1 as [|x1 n1 IH]; intros [|x2 n2] Hnames Hvals; try done.
  rewrite !fmap_cons in Hnames. injection Hnames as Hname Hnames.
  rewrite !filter_cons, <- Hname in Hvals.
  intros [|j] x y; cbn.
  - intros [= <-] [= <-] Hfree. rewrite !decide_True in Hvals by done.
    rewrite !fmap_cons in Hvals. by injection Hvals.
  - apply IH; [done|]. case_decide; [|done].
    rewrite !fmap_cons in Hvals. by injection Hvals.
Qed.

Lemma StronglySorted_filter {A} (R : relation A) (P : A → Prop)
    `{∀ x, Decision (P x)} (l : list A) :
  StronglySorted R l → StronglySorted R (filter P l).
Proof.
  induction 1 as [|x l Hl IH Hx]; [constructor|].
  rewrite filter_cons. case_decide; [|done]. constructor; [done|].
  apply Forall_forall. intros y [_ Hy]%list_elem_of_filter.
  rewrite Forall_forall in Hx. by apply Hx.
Qed.

Lemma Sorted_replicate_descending (e f : nat) (b : Z) :
  Sorted (flip Z.le) (replicate e (b + 1) ++ replicate f b).
Proof.
  assert (Sorted (flip Z.le) (replicate f b)) as Hbase.
  { induction f as [|f IHf]; cbn; [constructor|].
    constructor; [done|]. destruct f; constructor. unfold flip. lia. }
  assert (∀ x, b ≤ x → HdRel (flip Z.le) x (replicate f b)) as Hlow.
  { intros x Hx. destruct f; constructor. by unfold flip. }
  assert (∀ k x, b + 1 ≤ x →
            HdRel (flip Z.le) x (replicate k (b + 1) ++ replicate f b))
    as Hhigh.
  { intros [|k] x Hx; cbn.
    - apply Hlow. lia.
    - constructor. by unfold flip. }
  induction e as [|e IH]; cbn; [done|].
  constructor; [done|]. apply Hhigh. lia.
Qed.

(** A descending list with [e] times [b + 1] and [f] times [b] is these
    values in this order. *)
Lemma descending_replicate (l : list Z) (e f : nat) (b : Z) :
  Sorted (flip Z.le) l → l ≡ₚ replicate e (b + 1) ++ replicate f b →
  l = replicate e (b + 1) ++ replicate f b.
Proof.
  intros Hl Hperm.
  assert (Transitive (flip Z.le)) by (intros x y z; unfold flip; lia).
  apply (Sorted_unique_strong (flip Z.le)); try done.
  - intros x y _ _. unfold flip. lia.
  - apply Sorted_replicate_descending.
Qed.

(** The counts of the records without specified count, read from the
    highest index down in a slice sorted by [Less], are descending. *)
Lemma freeOf_descending (S : gmap string Z) (a : subsetInfos) :
  Sorted notAfter a →
  Sorted (flip Z.le) (Replicas <$> freeOf S (reverse a)).
Proof.
  intros Hsorted. rewrite freeOf_reverse, fmap_reverse.
  apply Sorted_reverse, StronglySorted_Sorted.
  apply (StronglySorted_fmap Replicas notAfter Z.le);
    [apply notAfter_replicas|].
  apply StronglySorted_filter. apply Sorted_StronglySorted; [apply _|done].
Qed.


(** The normal path, run again on the counts it returned, sorted anew:
    the same mapping. *)
Lemma normalAllocate_again `{rt : GoRuntime} (s : replicasAllocator) (T : Z)
    (S : gmap string Z) (allocated : gmap string Z) (n1 a : subsetInfos) :
  validTotal T → freshRecords (subsets s) →
  validSpecified T S (subsets s) →
  fst (effectiveReplicas s T (Some S)) = true →
  normalAllocate s T (Some S) = Some (allocated, {| subsets := n1 |}) →
  a ≡ₚ setSpecified false <$> n1 → Sorted notAfter a →
  ∃ n2, normalAllocate {| subsets := a |} T (Some S)
        = Some (allocated, {| subsets := n2 |}).
Proof.
  intros HT [Hnd Hfresh] Hvalid Heff Hrun Ha Hsorted.
  destruct (normal_pool s T S HT Hnd Hvalid Heff) as (Hpool & Hrange & _).
  destruct (normalAllocate_distribution s T S Hfresh)
    as (n1' & Hrun1 & Hnames1 & Hflags1 & Hvals1 & Hfree1 & Hshape1).
  rewrite Hrun in Hrun1. injection Hrun1 as -> <-.
  cbv zeta in Hshape1. rewrite Hpool in Hshape1.
  (* the records of the second run *)
  assert (SubsetName <$> a ≡ₚ SubsetName <$> subsets s) as Hnames_a.
  { rewrite Ha, <- list_fmap_compose, <- Hnames1. done. }
  assert (Forall (λ subset, Specified subset = false) a) as Hfresh_a.
  { rewrite Ha. by apply Forall_fmap, Forall_true. }
  assert (NoDup (SubsetName <$> a)) as Hnd_a by (by rewrite Hnames_a).
  assert (validSpecified T S a) as Hvalid_a.
  { destruct Hvalid as [Hall Hmax]. split; [|done]. intros name v Hv.
    destruct (Hall name v Hv) as [Hin ?]. split; [|done]. by rewrite Hnames_a. }
  assert (fst (effectiveReplicas {| subsets := a |} T (Some S)) = true)
    as Heff_a.
  { by rewrite (effectiveReplicas_names {| subsets := a |} s T S). }
  destruct (normal_pool {| subsets := a |} T S HT Hnd_a Hvalid_a Heff_a)
    as (Hpool_a & _ & _).
  destruct (normalAllocate_distribution {| subsets := a |} T S Hfresh_a)
    as (n2 & Hrun2 & Hnames2 & Hflags2 & Hvals2 & Hfree2 & Hshape2).
  cbv zeta in Hshape2. rewrite Hpool_a in Hshape2. cbn [subsets] in *.
  assert (length a = length (subsets s)) as Hlen_a.
  { rewrite <- (length_fmap SubsetName a).
    rewrite <- (length_fmap SubsetName (subsets s)).
    by apply Permutation_length. }
  rewrite Hlen_a, (pinnedCount_perm S a (subsets s) Hnames_a)
    in Hfree2, Hshape2.
  set (free := (length (subsets s) - pinnedCount S (subsets s))%nat) in *.
  set (base := (T - mapTotal S) `quot` Z.of_nat free) in *.
  set (extra := (T - mapTotal S) `rem` Z.of_nat free) in *.
  (* every record of the second run holds the count of the first *)
  assert (∀ j y, n2 !! j = Some y →
            ∃ z, z ∈ n1 ∧ SubsetName z = SubsetName y
                 ∧ Replicas z = Replicas y) as Hsame.
  { intros j y Hy.
    assert (is_Some (a !! j)) as [x Hx].
    { apply lookup_lt_is_Some.
      rewrite <- (length_fmap SubsetName a), <- Hnames2, length_fmap.
      by apply lookup_lt_is_Some_1; eauto. }
    pose proof (fmap_eq_lookup _ _ _ _ _ _ Hnames2 Hy Hx) as Hname.
    assert (x ∈ setSpecified false <$> n1) as Hin
      by (rewrite <- Ha; by apply list_elem_of_lookup_2 with j).
    apply list_elem_of_fmap in Hin as (z & -> & Hz).
    cbn [SubsetName Replicas setSpecified] in Hname.
    exists z. split; [done|]. split; [done|].
    rewrite Forall_forall in Hvals1, Hvals2.
    destruct (S !! SubsetName y) as [v|] eqn:Hv.
    { rewrite (Hvals2 y (list_elem_of_lookup_2 _ _ _ Hy) v Hv).
      apply (Hvals1 z Hz). by rewrite <- Hname. }
    assert (y ∈ unpinned n2) as Hfree_y.
    { apply list_elem_of_filter. split;
        [|by apply list_elem_of_lookup_2 with j].
      rewrite Forall_forall in Hflags2.
      rewrite (Hflags2 y (list_elem_of_lookup_2 _ _ _ Hy)).
      apply bool_decide_eq_false_2. rewrite Hv. by intros [? ?]. }
    assert (free ≠ 0%nat) as Hnz.
    { intros Hz0. rewrite Hz0 in Hfree2. apply nil_length_inv in Hfree2.
      rewrite Hfree2 in Hfree_y. by apply elem_of_nil in Hfree_y. }
    destruct (quot_rem_pool (T - mapTotal S) free Hrange ltac:(lia))
      as (_ & Hextra & _ & Hwb & Hwb1).
    fold base in Hwb, Hwb1. fold extra in Hextra, Hwb1.
    set (L := replicate (Z.to_nat extra) (base + 1)
              ++ replicate (free - Z.to_nat extra) base).
    assert (replicate (Z.to_nat extra) (Int32.wrap (base + 1))
            ++ replicate (free - Z.to_nat extra) (Int32.wrap base) = L) as HL.
    { subst L. rewrite Hwb. destruct (decide (0 < extra)) as [Hp|Hp].
      - by rewrite Hwb1.
      - by replace (Z.to_nat extra) with 0%nat by lia. }
    rewrite HL in Hshape1, Hshape2.
    specialize (Hshape1 Hnz). specialize (Hshape2 Hnz).
    rewrite (unpinned_freeOf S (reverse n2)) in Hshape2
      by (unfold markedBy; by rewrite reverse_Permutation).
    rewrite (unpinned_freeOf S (reverse n1)) in Hshape1
      by (unfold markedBy; by rewrite reverse_Permutation).
    assert (Replicas <$> freeOf S (reverse a) = L) as Hshape_a.
    { apply descending_replicate; [by apply freeOf_descending|].
      transitivity (Replicas <$> freeOf S (reverse n1));
        [|by rewrite Hshape1].
      rewrite <- (freeOf_replicas_setSpecified S false (reverse n1)).
      apply fmap_Permutation. unfold freeOf. apply filter_Permutation.
      by rewrite !reverse_Permutation. }
    assert (Replicas <$> freeOf S n2 = Replicas <$> freeOf S a) as Hvals.
    { apply (inj reverse).
      rewrite <- !fmap_reverse, <- !freeOf_reverse. congruence. }
    by rewrite (freeOf_position S n2 a Hnames2 Hvals j y
                  (setSpecified false z) Hy Hx Hv). }
  (* hence the same mapping *)
  exists n2. rewrite Hrun2. do 2 f_equal.
  assert (NoDup (SubsetName <$> n2)) as Hnd2 by (by rewrite Hnames2).
  assert (NoDup (SubsetName <$> n1)) as Hnd1 by (by rewrite Hnames1).
  apply map_eq. intros name. apply option_eq. intros v.
  rewrite !toSubsetReplicaMap_lookup by done. split.
  - intros (y & Hy & <- & <-).
    apply list_elem_of_lookup in Hy as [j Hy].
    destruct (Hsame j y Hy) as (z & ? & ? & ?). eauto.
  - intros (z & Hz & <- & <-).
    assert (SubsetName z ∈ SubsetName <$> n2) as Hin.
    { rewrite Hnames2, Hnames_a, <- Hnames1. apply list_elem_of_fmap. eauto. }
    apply list_elem_of_fmap in Hin as (y & Hname & Hy).
    exists y. split; [done|]. split; [done|].
    apply list_elem_of_lookup in Hy as [j Hy].
    destruct (Hsame j y Hy) as (z' & Hz' & Hname' & <-).
    f_equal. apply (NoDup_fmap_eq SubsetName n1); try done. congruence.
Qed.

End Again.

Section Settled.

Context `{rt : GoRuntime}.

(** [AllocateReplicas], run again on the counts it returned, sorted anew:
    the same mapping, answer and reason. *)
Lemma AllocateReplicas_again (s : replicasAllocator) (T : Z)
    (S : gmap string Z) (allocated : gmap string Z) (effective : bool)
    (reason : string) (n1 a : subsetInfos) :
  validTotal T → observedCounts (subsets s) → freshRecords (subsets s) →
  validSpecified T S (subsets s) →
  AllocateReplicas s T (Some S)
  = Some (allocated, effective, reason, {| subsets := n1 |}) →
  a ≡ₚ setSpecified false <$> n1 → Sorted notAfter a →
  ∃ n2, AllocateReplicas {| subsets := a |} T (Some S)
        = Some (allocated, effective, reason, {| subsets := n2 |}).
Proof.
  intros HT Hobs Hfresh Hvalid Hrun Ha Hsorted.
  destruct (AllocateReplicas_result _ _ _ _ _ _ _ Hrun) as (_ & Hnames & _).
  cbn [subsets] in Hnames.
  assert (effectiveReplicas {| subsets := a |} T (Some S)
          = effectiveReplicas s T (Some S)) as Heq.
  { apply effectiveReplicas_names. cbn [subsets].
    rewrite Ha, <- list_fmap_compose, <- Hnames. done. }
  unfold AllocateReplicas in *. rewrite Heq.
  destruct (effectiveReplicas s T (Some S)) as [[|] why] eqn:Heff;
    cbn [negb] in *.
  - destruct (normalAllocate s T (Some S)) as [[m s1]|] eqn:Hn; [|done].
    cbn [mbind option_bind] in Hrun. injection Hrun as -> <- <- ->.
    destruct (normalAllocate_again s T S allocated n1 a) as [n2 Hn2];
      try done.
    { by rewrite Heff. }
    rewrite Hn2. cbn [mbind option_bind]. eauto.
  - destruct (incrementalAllocate s T) as [[m s1]|] eqn:Hn; [|done].
    cbn [mbind option_bind] in Hrun. injection Hrun as -> <- <- ->.
    rewrite (incrementalAllocate_again s T allocated n1 a); try done.
    + cbn [mbind option_bind]. eauto.
    + by destruct Hfresh.
Qed.

Context {IntOrString : Type}.

(** The records built from subsets that carry the counts of a mapping are
    the records that gave the mapping, in the order of the topology and
    with the marks cleared. *)
Lemma getSubsetInfos_applied (nameToSubset : gmap string Subset)
    (ud : UnitedDeployment IntOrString) (n1 : subsetInfos) :
  NoDup (Name <$> TopologySubsets ud) →
  SubsetName <$> n1 ≡ₚ Name <$> TopologySubsets ud →
  (∀ name v, toSubsetReplicaMap {| subsets := n1 |} !! name = Some v →
             ∃ subset, nameToSubset !! name = Some subset
                       ∧ SubsetSpecReplicas subset = v) →
  getSubsetInfos nameToSubset ud ≡ₚ setSpecified false <$> n1.
Proof.
  intros Hnd Hnames Happlied.
  assert (NoDup (SubsetName <$> n1)) as Hnd1 by (by rewrite Hnames).
  assert (∀ z, z ∈ n1 →
            ∃ subset, nameToSubset !! SubsetName z = Some subset
                      ∧ SubsetSpecReplicas subset = Replicas z) as Hcount.
  { intros z Hz. apply Happlied, toSubsetReplicaMap_lookup; eauto. }
  apply NoDup_Permutation.
  - apply (NoDup_fmap_1 SubsetName). by rewrite getSubsetInfos_names.
  - apply (NoDup_fmap_1 SubsetName). by rewrite <- list_fmap_compose.
  - intros x. unfold getSubsetInfos. rewrite !list_elem_of_fmap. split.
    + intros (d & -> & Hd).
      assert (Name d ∈ SubsetName <$> n1) as Hin.
      { rewrite Hnames. apply list_elem_of_fmap. eauto. }
      apply list_elem_of_fmap in Hin as (z & Hname & Hz).
      exists z. split; [|done].
      destruct (Hcount z Hz) as (subset & Hsub & Hv).
      rewrite Hname, Hsub, Hv. done.
    + intros (z & -> & Hz).
      assert (SubsetName z ∈ Name <$> TopologySubsets ud) as Hin.
      { rewrite <- Hnames. apply list_elem_of_fmap. eauto. }
      apply list_elem_of_fmap in Hin as (d & Hname & Hd).
      exists d. split; [|done].
      destruct (Hcount z Hz) as (subset & Hsub & Hv).
      rewrite <- Hname, Hsub, Hv. done.
Qed.

Lemma observedCounts_perm (n1 n2 : subsetInfos) :
  n1 ≡ₚ n2 → observedCounts n1 → observedCounts n2.
Proof.
  intros Hperm (Hpos & Htotal & Hlen). split; [|split].
  - by rewrite <- Hperm.
  - unfold totalReplicas in *.
    by rewrite <- (sumZ_perm _ _ (fmap_Permutation Replicas _ _ Hperm)).
  - unfold Len in *. by rewrite <- (Permutation_length Hperm).
Qed.

End Settled.

(** X13.  The allocation is settled once applied.  When every subset of the
    topology exists with the count the allocator returned for it, the next
    call to [GetAllocatedReplicas] returns the same mapping, the same
    feasibility answer and the same reason, on the normal path as on the
    incremental one. *)
Theorem GetAllocatedReplicas_settled `{rt : GoRuntime} {IntOrString : Type}
    (ParseSubsetReplicas : Z → IntOrString → option Z)
    (nameToSubset applied : gmap string Subset)
    (ud : UnitedDeployment IntOrString) (T : Z) (S : gmap string Z)
    (allocated : gmap string Z) (effective : bool) (reason : string)
    (s' : replicasAllocator) :
  validTotal T →
  NoDup (Name <$> TopologySubsets ud) →
  (∀ spec v, ParseSubsetReplicas T spec = Some v → 0 ≤ v ≤ T) →
  SpecReplicas ud = Some T →
  getSpecifiedSubsetReplicas ParseSubsetReplicas ud = Some S →
  mapTotal S ≤ Int32.max_int →
  observedCounts (getSubsetInfos nameToSubset ud) →
  GetAllocatedReplicas ParseSubsetReplicas nameToSubset ud
  = Some (allocated, effective, reason, s') →
  (∀ name v, allocated !! name = Some v →
             ∃ subset, applied !! name = Some subset
                       ∧ SubsetSpecReplicas subset = v) →
  ∃ s'', GetAllocatedReplicas ParseSubsetReplicas applied ud
         = Some (allocated, effective, reason, s'').
Proof.
  intros HT Hnd Hparse Hspec HS Hsum Hobs Hrun Happlied.
  destruct (GetAllocatedReplicas_request ParseSubsetReplicas nameToSubset ud
              T S Hnd Hparse Hspec HS) as [Hfresh Hvalid].
  unfold GetAllocatedReplicas in *. rewrite HS, Hspec in *.
  cbn [mbind option_bind] in *. destruct s' as [n1].
  destruct (AllocateReplicas_result _ _ _ _ _ _ _ Hrun) as (Hmap & Hnames & _).
  unfold SortToAllocator in *. cbn [subsets] in *.
  assert (SubsetName <$> n1 ≡ₚ Name <$> TopologySubsets ud) as Hperm.
  { by rewrite Hnames, sort_Sort_perm, getSubsetInfos_names. }
  rewrite Hmap in Happlied.
  destruct (AllocateReplicas_again
              {| subsets := sort_Sort (getSubsetInfos nameToSubset ud) |}
              T S allocated effective reason n1
              (sort_Sort (getSubsetInfos applied ud))) as [n2 Hn2];
    try done.
  - cbn [subsets]. apply (observedCounts_perm (getSubsetInfos nameToSubset ud));
      [by rewrite sort_Sort_perm|done].
  - rewrite sort_Sort_perm. by apply getSubsetInfos_applied.
  - apply sort_Sort_sorted.
  - eauto.
Qed.

(** ** The properties on the examples *)

(** A at 2 and B at 8, A specified at 7, total 10: the mapping sums to
    10. *)
Lemma AllocateReplicas_sum_witness :
  ∃ allocated effective reason s',
    AllocateReplicas twoSubsets 10 (Some pinA7)
    = Some (allocated, effective, reason, s') ∧
    mapTotal allocated = 10.
Proof.
  apply (AllocateReplicas_sum twoSubsets 10 pinA7);
    [done|compute_done..].
Defined.

(** No subset and a total of 1: the check answers infeasible and the
    empty mapping returned does not sum to 1. *)
Lemma AllocateReplicas_sum_counterexample :
  AllocateReplicas {| subsets := [] |} 1 (Some ∅)
  = Some (∅, false,
          "Specified subsets' replica (0) is less than UnitedDeployment replica (1)"%string,
          {| subsets := [] |}) ∧
  mapTotal (∅ : gmap string Z) ≠ 1.
Proof. split; [by vm_compute|]. rewrite mapTotal_empty. lia. Defined.

(** A and B both specified at 8 for a total of 10: infeasible. *)
Lemma effectiveReplicas_feasibility_witness :
  Int32.in_range (mapTotal pinA8B8) ∧
  fst (effectiveReplicas twoSubsets 10 (Some pinA8B8)) = false.
Proof.
  assert (Int32.in_range (mapTotal pinA8B8)) as Hrange
    by (unfold Int32.in_range; compute_done).
  split; [done|].
  apply (effectiveReplicas_feasibility twoSubsets 10 pinA8B8 Hrange).
  left. by vm_compute.
Defined.

(** A and B specified at 2147483647 each, over A, B and C, for a total of
    10: the sum exceeds the total, the accumulator wraps around to -2 and
    the check answers feasible. *)
Lemma effectiveReplicas_feasibility_counterexample :
  mapTotal pinMaxAB > 10 ∧
  effectiveReplicas threeIdle 10 (Some pinMaxAB) = (true, ""%string).
Proof. split; by vm_compute. Defined.

(** A specified at 7 for a total of 10: A receives 7. *)
Lemma AllocateReplicas_pinned_witness :
  ∃ allocated s',
    AllocateReplicas twoSubsets 10 (Some pinA7)
    = Some (allocated, true, ""%string, s') ∧
    allocated !! "A"%string = Some 7.
Proof.
  destruct (AllocateReplicas_pinned twoSubsets 10 pinA7)
    as (allocated & s' & Hrun & Hmap & _); [by vm_compute|].
  exists allocated, s'. split; [done|].
  apply (Hmap subsetA2 7); [|by vm_compute].
  apply list_elem_of_here.
Defined.

(** Three idle subsets, nothing specified, total 10: from the highest
    index down the records receive 4, 3 and 3. *)
Lemma normalAllocate_fair_witness :
  ∃ allocated s',
    AllocateReplicas threeIdle 10 (Some ∅)
    = Some (allocated, true, ""%string, s') ∧
    Replicas <$> unpinned (reverse (subsets s')) = [4; 3; 3].
Proof.
  destruct (normalAllocate_fair threeIdle 10 ∅)
    as (allocated & s' & Hrun & _ & Hwalk & _);
    [compute_done|compute_done|compute_done|by vm_compute|].
  exists allocated, s'. split; [done|].
  destruct Hwalk as [_ ->]; [compute_done|]. by vm_compute.
Defined.

(** Current 1, 5, 5 and a total of 9: A keeps 1, B and C receive 4. *)
Lemma incrementalAllocate_scale_in_witness :
  ∃ allocated s',
    incrementalAllocate threeUneven 9 = Some (allocated, s') ∧
    Replicas <$> subsets s' = [1; 4; 4].
Proof.
  destruct (incrementalAllocate_scale_in threeUneven 9)
    as (allocated & s' & b & Hrun & _);
    [compute_done|compute_done|by vm_compute|].
  exists allocated, s'. split; [done|].
  assert (incrementalAllocate threeUneven 9
          = Some (<["C"%string := 4]> (<["B"%string := 4]> {["A"%string := 1]}),
                  {| subsets :=
                       [ {| SubsetName := "A"; Replicas := 1;
                            Specified := false |};
                         {| SubsetName := "B"; Replicas := 4;
                            Specified := false |};
                         {| SubsetName := "C"; Replicas := 4;
                            Specified := false |} ] |}))
    as Heval by (by vm_compute).
  rewrite Heval in Hrun. by injection Hrun as _ <-.
Defined.



(** Current 2 and 8 and a total of 10: nothing changes. *)
Lemma incrementalAllocate_unchanged_witness :
  incrementalAllocate twoSubsets 10
  = Some (<["B"%string := 8]> {["A"%string := 2]}, twoSubsets).
Proof.
  destruct (incrementalAllocate_unchanged twoSubsets 10) as (_ & -> & _);
    [by vm_compute|].
  by vm_compute.
Defined.

(** The runtime that visits the map in the opposite order computes the
    allocation of the reference runtime. *)
Lemma GetAllocatedReplicas_deterministic_witness :
  @GetAllocatedReplicas reversedRuntime _ parseCount observedTwo udTwo
  = Some (<["B"%string := 3]> {["A"%string := 7]}, true, ""%string,
          {| subsets := [ {| SubsetName := "A"; Replicas := 7;
                             Specified := true |};
                          {| SubsetName := "B"; Replicas := 3;
                             Specified := false |} ] |}).
Proof.
  destruct (GetAllocatedReplicas_deterministic reversedRuntime
              referenceRuntime parseCount observedTwo udTwo) as [-> _].
  by vm_compute.
Defined.

(** The topology without subsets and a total of 9. *)
Lemma GetAllocatedReplicas_no_subsets_witness :
  GetAllocatedReplicas parseCount observedTwo udEmpty
  = Some (∅, false,
          "Specified subsets' replica (0) is less than UnitedDeployment replica (9)"%string,
          SortToAllocator (getSubsetInfos observedTwo udEmpty)).
Proof.
  destruct (GetAllocatedReplicas_no_subsets parseCount observedTwo udEmpty 9)
    as (_ & _ & _ & -> & _); [done|done|lia|].
  done.
Defined.



(** Current 1, 5, 5 and a total of 13: the incremental path scales out
    and keeps the three records. *)
Lemma incrementalAllocate_scale_out_witness :
  ∃ allocated s',
    incrementalAllocate threeUneven 13 = Some (allocated, s') ∧
    length (subsets s') = 3%nat.
Proof.
  destruct (incrementalAllocate_scale_out threeUneven 13)
    as (allocated & s' & m & Hrun & Hlen & _);
    [compute_done|compute_done|done|by vm_compute|].
  by exists allocated, s'.
Defined.

(** Current 2 and 8 and a total of 13: the records stay ascending. *)
Lemma incrementalAllocate_ascending_witness :
  ∃ allocated s',
    incrementalAllocate twoSubsets 13 = Some (allocated, s') ∧
    Sorted (λ a b, Replicas a ≤ Replicas b) (subsets s').
Proof.
  apply (incrementalAllocate_ascending twoSubsets 13);
    [compute_done|compute_done|].
  repeat constructor.
Defined.

(** A and B at the largest [int32], A specified at 7, total 5: the sum of
    the counts overflows and the call returns. *)
Lemma AllocateReplicas_returns_witness :
  is_Some (AllocateReplicas twoFull 5 (Some pinA7)).
Proof.
  destruct (AllocateReplicas_returns twoFull 5 pinA7) as [Hreturns _];
    [compute_done|exact Hreturns].
Defined.

(** The topology of A and B: the mapping has two entries. *)
Lemma GetAllocatedReplicas_keys_witness :
  ∃ allocated effective reason s',
    GetAllocatedReplicas parseCount observedTwo udTwo
    = Some (allocated, effective, reason, s') ∧
    size allocated = 2%nat.
Proof.
  destruct (GetAllocatedReplicas parseCount observedTwo udTwo)
    as [[[[allocated effective] reason] s']|] eqn:Hrun;
    [|by vm_compute in Hrun].
  exists allocated, effective, reason, s'. split; [done|].
  destruct (GetAllocatedReplicas_keys parseCount observedTwo udTwo
              allocated effective reason s' Hrun) as [_ Hsize].
  apply Hsize. compute_done.
Defined.

(** A at 2 and B at 8 with a nil map: the call panics. *)
Lemma AllocateReplicas_nil_map_panics_witness :
  AllocateReplicas twoSubsets 10 None = None.
Proof.
  by apply (proj1 (AllocateReplicas_nil_map_panics twoSubsets 10)).
Defined.

(** The topology of A, specified at 7, and B: the specified map holds 7
    for A. *)
Lemma getSpecifiedSubsetReplicas_entries_witness :
  ∃ S, getSpecifiedSubsetReplicas parseCount udTwo = Some S ∧
       S !! "A"%string = Some 7.
Proof.
  destruct (getSpecifiedSubsetReplicas_entries parseCount udTwo 10)
    as (S & HS & Hentries); [compute_done|done|].
  exists S. split; [done|]. apply Hentries.
  exists {| Name := "A"; SubsetDefReplicas := Some 7 |}, 7.
  split_and!; try done. apply list_elem_of_here.
Defined.

(** Current 2 and 8 and a total of 13: a second run returns the same. *)
Lemma incrementalAllocate_idempotent_witness :
  ∃ allocated s',
    incrementalAllocate twoSubsets 13 = Some (allocated, s') ∧
    incrementalAllocate s' 13 = Some (allocated, s').
Proof.
  destruct (incrementalAllocate twoSubsets 13) as [[allocated s']|] eqn:Hrun;
    [|by vm_compute in Hrun].
  exists allocated, s'. split; [done|].
  apply (incrementalAllocate_idempotent twoSubsets s' 13 allocated);
    [compute_done|compute_done|done].
Defined.

(** A at 2 and B at 8: printing leaves the mapping as it is. *)
Lemma allocatorString_stable_witness :
  toSubsetReplicaMap (snd (allocatorString twoSubsets))
  = toSubsetReplicaMap twoSubsets.
Proof.
  destruct (allocatorString_stable twoSubsets) as (_ & _ & Hmap & _);
    [compute_done|done].
Defined.

(** A at 2, B at 8 and A again at 5: A is mapped to 5. *)
Lemma toSubsetReplicaMap_last_witness :
  toSubsetReplicaMap
    {| subsets := [subsetA2; subsetB8] ++ [setReplicas 5 subsetA2] |}
  !! "A"%string = Some 5.
Proof.
  destruct (toSubsetReplicaMap_last [subsetA2; subsetB8] []
              (setReplicas 5 subsetA2)) as [Hlast _]; [|done].
  apply not_elem_of_nil.
Defined.

(** A at 2 and B at 8: swapping the indices 0 and 1 gives a permutation
    of the slice. *)
Lemma Swap_exchanges_witness :
  ∃ n', Swap (subsets twoSubsets) 0 1 = Some n' ∧ n' ≡ₚ subsets twoSubsets.
Proof.
  destruct (proj1 (Swap_exchanges (subsets twoSubsets) 0 1))
    as (n' & Hswap & Hperm & _); [compute_done|].
  by exists n'.
Defined.

(** A at 2 and B at 8: one of the indices 0 and 1 is less than the
    other. *)
Lemma Less_strict_order_witness :
  Less (subsets twoSubsets) 0 1 = Some true
  ∨ Less (subsets twoSubsets) 1 0 = Some true.
Proof.
  destruct (Less_strict_order (subsets twoSubsets)) as (_ & _ & _ & Htotal).
  apply Htotal; [compute_done|compute_done|compute_done|lia].
Defined.

(** The topology of A, specified at 7, and B, for a total of 10: with A at
    7 and B at 3 the next call returns the same. *)
Lemma GetAllocatedReplicas_settled_witness :
  ∃ allocated effective reason s' s'',
    GetAllocatedReplicas parseCount observedTwo udTwo
    = Some (allocated, effective, reason, s') ∧
    GetAllocatedReplicas parseCount appliedTwo udTwo
    = Some (allocated, effective, reason, s'').
Proof.
  assert (GetAllocatedReplicas parseCount observedTwo udTwo
          = Some (<[ "B"%string := 3 ]> {[ "A"%string := 7 ]}, true,
                  ""%string,
                  {| subsets := [ setSpecified true (setReplicas 7 subsetA2);
                                  setReplicas 3 subsetB8 ] |})) as Hrun
    by (by vm_compute).
  destruct (GetAllocatedReplicas_settled parseCount observedTwo appliedTwo
              udTwo 10 pinA7 (<[ "B"%string := 3 ]> {[ "A"%string := 7 ]})
              true ""%string
              {| subsets := [ setSpecified true (setReplicas 7 subsetA2);
                              setReplicas 3 subsetB8 ] |})
    as [s'' Hagain]; try done; try compute_done.
  - intros spec v. unfold parseCount. case_decide; [|done].
    intros [= <-]. lia.
  - intros name v [[<- <-]|[_ [<- <-]%lookup_singleton_Some]]%lookup_insert_Some.
    + by exists {| SubsetSpecReplicas := 3 |}.
    + by exists {| SubsetSpecReplicas := 7 |}.
  - eexists _, _, _, _, s''. split; [exact Hrun|exact Hagain].
Defined.
